(** * Kakiato replay core: playback engine and text-state reconstruction

  A shallow embedding of the replay subsystem of Kakiato:

  - [Types]: the event schema of [src/core/types.ts];
  - [JS]: the two built-ins of the host language the player relies on
    ([String.prototype.substring] and the nullish operator);
  - [State]: [StateReconstructor] of [src/player/state.ts];
  - [Engine]: [PlaybackEngine] of [src/player/engine.ts], with the wall
    clock, the timer queue of the host and the subscribers' callbacks
    made explicit.

  Numbers.  Positions and indices into the text are integers ([Z]),
  array indices are naturals, and times and the speed multiplier are
  rationals ([Q]).  [Engine] computes with them exactly: it is the engine
  in the arithmetic of the field, and what it says about deliveries and
  indices does not depend on rounding.  Equality of times is [Qeq]
  wherever a value has gone through a division.  What the clock reads after
  a division by the speed does depend on rounding: [Double] is the rounding
  of binary64 on the rationals, [Rounded] the methods of the engine with
  every operation rounded, and the statements about such readings are made
  there.  [Binary64] and [Hardware] hold readings computed in the binary64
  arithmetic of the proof assistant, against which the rounding is
  checked. *)

From Stdlib Require Import ZArith QArith Qminmax Qabs Qround Qpower.
From Stdlib Require Import List String Ascii Bool Lia Lqa Arith.
From Stdlib Require PrimFloat SpecFloat FloatOps.
Import ListNotations.

(* ------------------------------------------------------------------ *)
(** ** Event schema ([src/core/types.ts]) *)

Module Types.

(** [KakiatoEventBase]: [time] and the optional caret hint [pos].
    The free-form [meta] bag is never read by the player and is left out. *)
Record KakiatoEventBase : Type := mkBase {
  time : Q;
  pos : option Z
}.

Inductive KeyboardType := keydown | keyup.
Inductive InputType := beforeinput | input.
Inductive CompositionType :=
  compositionstart | compositionupdate | compositionend.
Inductive FocusType := focus | blur.
Inductive Affinity := forward | backward | none.

Record KakiatoSelectionPosition : Type := mkSel {
  index : Z;
  affinity : option Affinity
}.

(** The tagged union [KakiatoEvent].  Optional strings that may also be
    [null] ([data], [text]) are [option string]: the player treats
    [undefined] and [null] alike.  Modifier sets, composition segments and
    custom payloads are advisory and are not represented. *)
Inductive KakiatoEvent : Type :=
| KakiatoKeyboardEvent (base : KakiatoEventBase) (type : KeyboardType)
    (key code : string)
| KakiatoInputEvent (base : KakiatoEventBase) (type : InputType)
    (inputType : string) (data text : option string)
| KakiatoCompositionEvent (base : KakiatoEventBase) (type : CompositionType)
    (data : option string)
| KakiatoSelectionChangeEvent (base : KakiatoEventBase)
    (anchor focus : KakiatoSelectionPosition)
| KakiatoFocusEvent (base : KakiatoEventBase) (type : FocusType)
| KakiatoCustomEvent (base : KakiatoEventBase) (label : string).

Definition base_of (event : KakiatoEvent) : KakiatoEventBase :=
  match event with
  | KakiatoKeyboardEvent b _ _ _ => b
  | KakiatoInputEvent b _ _ _ _ => b
  | KakiatoCompositionEvent b _ _ => b
  | KakiatoSelectionChangeEvent b _ _ => b
  | KakiatoFocusEvent b _ => b
  | KakiatoCustomEvent b _ => b
  end.

Definition event_time (event : KakiatoEvent) : Q := time (base_of event).
Definition event_pos (event : KakiatoEvent) : option Z := pos (base_of event).

End Types.

(* ------------------------------------------------------------------ *)
(** ** Host built-ins *)

Module JS.

Open Scope Z_scope.

(** [a ?? b] *)
Definition nullish {A : Type} (a : option A) (b : A) : A :=
  match a with Some x => x | None => b end.

(** [s.substring(start, end)]: both bounds are clamped to [0, s.length]
    and swapped when out of order; a missing [end] is [s.length]. *)
Definition substring (s : string) (start : Z) (end_ : option Z) : string :=
  let len := Z.of_nat (String.length s) in
  let intEnd := nullish end_ len in
  let finalStart := Z.min (Z.max start 0) len in
  let finalEnd := Z.min (Z.max intEnd 0) len in
  let from := Z.min finalStart finalEnd in
  let to := Z.max finalStart finalEnd in
  String.substring (Z.to_nat from) (Z.to_nat (to - from)) s.

End JS.

(* ------------------------------------------------------------------ *)
(** ** Text state reconstruction ([src/player/state.ts]) *)

Module State.

Import Types.
Open Scope string_scope.
Open Scope Z_scope.

Record TextState : Type := mkTextState {
  text : string;
  cursorPosition : Z;
  selectionStart : Z;
  selectionEnd : Z;
  isComposing : bool;
  compositionText : string
}.

Definition set_text (v : string) (s : TextState) : TextState :=
  mkTextState v (cursorPosition s) (selectionStart s) (selectionEnd s)
    (isComposing s) (compositionText s).
Definition set_cursorPosition (v : Z) (s : TextState) : TextState :=
  mkTextState (text s) v (selectionStart s) (selectionEnd s)
    (isComposing s) (compositionText s).
Definition set_selectionStart (v : Z) (s : TextState) : TextState :=
  mkTextState (text s) (cursorPosition s) v (selectionEnd s)
    (isComposing s) (compositionText s).
Definition set_selectionEnd (v : Z) (s : TextState) : TextState :=
  mkTextState (text s) (cursorPosition s) (selectionStart s) v
    (isComposing s) (compositionText s).
Definition set_isComposing (v : bool) (s : TextState) : TextState :=
  mkTextState (text s) (cursorPosition s) (selectionStart s) (selectionEnd s)
    v (compositionText s).
Definition set_compositionText (v : string) (s : TextState) : TextState :=
  mkTextState (text s) (cursorPosition s) (selectionStart s) (selectionEnd s)
    (isComposing s) v.

(** [constructor(initialText)] and [reset(initialText)] build the same
    record. *)
Definition reset (initialText : string) : TextState :=
  mkTextState initialText 0 0 0 false EmptyString.

Definition strlen (s : string) : Z := Z.of_nat (String.length s).

(** [insertText(pos, text)] *)
Definition insertText (pos : Z) (txt : string) (state : TextState) : TextState :=
  let before := JS.substring (text state) 0 (Some pos) in
  let after := JS.substring (text state) pos None in
  let state := set_text (before ++ txt ++ after)%string state in
  set_cursorPosition (pos + strlen txt) state.

(** [deleteBackward(pos)] *)
Definition deleteBackward (pos : Z) (state : TextState) : TextState :=
  if pos <=? 0 then state
  else
    let before := JS.substring (text state) 0 (Some (pos - 1)) in
    let after := JS.substring (text state) pos None in
    let state := set_text (before ++ after)%string state in
    set_cursorPosition (pos - 1) state.

(** [deleteForward(pos)] *)
Definition deleteForward (pos : Z) (state : TextState) : TextState :=
  if pos >=? strlen (text state) then state
  else
    let before := JS.substring (text state) 0 (Some pos) in
    let after := JS.substring (text state) (pos + 1) None in
    set_text (before ++ after)%string state.

(** The [switch (event.inputType)] of [handleInputEvent]. *)
Definition applyDelta (inputType : string) (pos : Z) (data : string)
    (state : TextState) : TextState :=
  if String.eqb inputType "insertText"
     || String.eqb inputType "insertCompositionText"
  then insertText pos data state
  else if String.eqb inputType "deleteContentBackward"
  then deleteBackward pos state
  else if String.eqb inputType "deleteContentForward"
  then deleteForward pos state
  else if String.eqb inputType "deleteByCut"
          || String.eqb inputType "deleteByDrag"
  then state
  else state.

(** [handleInputEvent(event)] *)
Definition handleInputEvent (event : KakiatoEvent) (state : TextState)
    : TextState :=
  match event with
  | KakiatoInputEvent base input inputType data txt =>
      let state :=
        match txt with
        | Some t => set_text t state
        | None =>
            match data with
            | Some d =>
                let p := JS.nullish (pos base) (cursorPosition state) in
                applyDelta inputType p d state
            | None => state
            end
        end in
      match pos base with
      | Some p => set_cursorPosition p state
      | None => state
      end
  | _ => state
  end.

(** [handleSelectionChange(event)] *)
Definition handleSelectionChange (event : KakiatoEvent) (state : TextState)
    : TextState :=
  match event with
  | KakiatoSelectionChangeEvent _ event_anchor event_focus =>
      let anchor := index event_anchor in
      let focus := index event_focus in
      let state := set_selectionStart (Z.min anchor focus) state in
      let state := set_selectionEnd (Z.max anchor focus) state in
      set_cursorPosition focus state
  | _ => state
  end.

(** [applyEvent(event)]: the [switch (event.type)]; a kind without a
    [case] ([custom]) falls through the switch. *)
Definition applyEvent (event : KakiatoEvent) (state : TextState) : TextState :=
  match event with
  | KakiatoInputEvent _ input _ _ _ => handleInputEvent event state
  | KakiatoInputEvent _ beforeinput _ _ _ => state
  | KakiatoCompositionEvent _ compositionstart data =>
      set_compositionText (JS.nullish data EmptyString) (set_isComposing true state)
  | KakiatoCompositionEvent _ compositionupdate data =>
      set_compositionText (JS.nullish data EmptyString) state
  | KakiatoCompositionEvent _ compositionend _ =>
      set_compositionText EmptyString (set_isComposing false state)
  | KakiatoSelectionChangeEvent _ _ _ => handleSelectionChange event state
  | KakiatoKeyboardEvent base _ _ _ =>
      match pos base with
      | Some p => set_cursorPosition p state
      | None => state
      end
  | KakiatoFocusEvent _ _ => state
  | KakiatoCustomEvent _ _ => state
  end.

(** The state a reconstructor holds after being fed [events] in order. *)
Definition applyEvents (events : list KakiatoEvent) (state : TextState)
    : TextState :=
  fold_left (fun s e => applyEvent e s) events state.

(** The effective position of a delta: [event.pos ?? state.cursorPosition]. *)
Definition effectivePos (base : KakiatoEventBase) (state : TextState) : Z :=
  JS.nullish (pos base) (cursorPosition state).

End State.

(* ------------------------------------------------------------------ *)
(** ** Playback engine ([src/player/engine.ts]) *)

Module Engine.

Import Types.
Open Scope Q_scope.

(** *** Subscribers

    A handler is a function value: an identity ([hid], what [indexOf]
    compares) and a body.  The body is the list of calls the callback makes
    on the engine it is subscribed to while an event is being delivered to it;
    an ordinary consumer, which only reads the event, has an empty body. *)
Definition HandlerId := nat.

Inductive Call : Type :=
| CallOffEvent (target : HandlerId)
| CallPause.

Record PlaybackEventHandler : Type := mkHandler {
  hid : HandlerId;
  body : list Call
}.
Arguments mkHandler hid%_nat body.
Arguments CallOffEvent target%_nat.

(** *** The engine object *)
Record PlaybackEngine : Type := mkEngine {
  events : list KakiatoEvent;
  currentIndex : nat;
  isPlaying : bool;
  speed : Q;
  loop : bool;
  timeoutId : option nat;
  startTime : Q;
  pausedAt : Q;
  onEventHandlers : list PlaybackEventHandler
}.

(** *** The host: the timer queue and the observable trace

    [setTimeout] registers a callback that has captured the [event] it will
    deliver; [clearTimeout] removes it.  [trace] records every invocation
    of a handler, oldest first.  An array read [events[i]] past the end is
    [undefined], here [None]. *)
Record Timeout : Type := mkTimeout {
  timeout_id : nat;
  due : Q;
  captured : option KakiatoEvent
}.

Record Delivery : Type := mkDelivery {
  to_handler : HandlerId;
  delivered_event : option KakiatoEvent;
  delivered_index : nat
}.
Arguments mkDelivery to_handler%_nat delivered_event delivered_index%_nat.

Record Host : Type := mkHost {
  engine : PlaybackEngine;
  pending : list Timeout;
  nextTimeoutId : nat;
  trace : list Delivery
}.

(** How a method call ends: it returns, it throws (the host is the one
    at the [throw]), or it is still calling itself when the depth the model
    was given is used up. *)
Inductive Completion : Type :=
| Normal (w : Host)
| Throw (msg : string) (w : Host)
| CallStackExhausted.

(** [this.f = v]: one setter per field. *)
Section Setters.
Variable e : PlaybackEngine.

Definition set_events (v : list KakiatoEvent) : PlaybackEngine :=
  mkEngine v (currentIndex e) (isPlaying e) (speed e) (loop e) (timeoutId e)
    (startTime e) (pausedAt e) (onEventHandlers e).

Definition set_currentIndex (v : nat) : PlaybackEngine :=
  mkEngine (events e) v (isPlaying e) (speed e) (loop e) (timeoutId e)
    (startTime e) (pausedAt e) (onEventHandlers e).

Definition set_isPlaying (v : bool) : PlaybackEngine :=
  mkEngine (events e) (currentIndex e) v (speed e) (loop e) (timeoutId e)
    (startTime e) (pausedAt e) (onEventHandlers e).

Definition set_speed (v : Q) : PlaybackEngine :=
  mkEngine (events e) (currentIndex e) (isPlaying e) v (loop e) (timeoutId e)
    (startTime e) (pausedAt e) (onEventHandlers e).

Definition set_timeoutId (v : option nat) : PlaybackEngine :=
  mkEngine (events e) (currentIndex e) (isPlaying e) (speed e) (loop e) v
    (startTime e) (pausedAt e) (onEventHandlers e).

Definition set_startTime (v : Q) : PlaybackEngine :=
  mkEngine (events e) (currentIndex e) (isPlaying e) (speed e) (loop e)
    (timeoutId e) v (pausedAt e) (onEventHandlers e).

Definition set_pausedAt (v : Q) : PlaybackEngine :=
  mkEngine (events e) (currentIndex e) (isPlaying e) (speed e) (loop e)
    (timeoutId e) (startTime e) v (onEventHandlers e).

Definition set_onEventHandlers (v : list PlaybackEventHandler)
    : PlaybackEngine :=
  mkEngine (events e) (currentIndex e) (isPlaying e) (speed e) (loop e)
    (timeoutId e) (startTime e) (pausedAt e) v.

End Setters.

(** An assignment to a field of [this] inside a method running on host [w]. *)
Definition this (f : PlaybackEngine -> PlaybackEngine) (w : Host) : Host :=
  mkHost (f (engine w)) (pending w) (nextTimeoutId w) (trace w).

(** [new PlaybackEngine(options)] on a fresh host; timer ids start at 1,
    so that an id is always truthy. *)
Definition constructor (options_speed : option Q) (options_loop : option bool)
    : Host :=
  mkHost
    (mkEngine [] 0%nat false (JS.nullish options_speed 1) (JS.nullish options_loop false)
       None 0 0 [])
    [] 1%nat [].

(** [setTimeout(callback, delay)] at wall time [now]. *)
Definition setTimeout (event : option KakiatoEvent) (delay now : Q)
    (w : Host) : nat * Host :=
  let id := nextTimeoutId w in
  (id, mkHost (engine w) (pending w ++ [mkTimeout id (now + delay) event])
         (S id) (trace w)).

(** [clearTimeout(id)] *)
Definition clearTimeout (id : nat) (w : Host) : Host :=
  mkHost (engine w)
    (filter (fun t => negb (Nat.eqb (timeout_id t) id)) (pending w))
    (nextTimeoutId w) (trace w).

Definition record (d : Delivery) (w : Host) : Host :=
  mkHost (engine w) (pending w) (nextTimeoutId w) (trace w ++ [d]).

(** *** Methods *)

(** [loadEvents(events)] *)
Definition loadEvents (evs : list KakiatoEvent) (w : Host) : Host :=
  let w := this (fun e => set_events e evs) w in
  let w := this (fun e => set_currentIndex e 0%nat) w in
  this (fun e => set_pausedAt e 0) w.

(** [onEvent(handler)] *)
Definition onEvent (handler : PlaybackEventHandler) (w : Host) : Host :=
  this (fun e => set_onEventHandlers e (onEventHandlers e ++ [handler])) w.

(** [array.indexOf(handler)]; [None] is [-1]. *)
Fixpoint indexOf (handler : HandlerId) (l : list PlaybackEventHandler)
    : option nat :=
  match l with
  | [] => None
  | h :: rest =>
      if Nat.eqb (hid h) handler then Some 0%nat
      else option_map S (indexOf handler rest)
  end.

(** [array.splice(index, 1)] *)
Fixpoint splice1 {A : Type} (index : nat) (l : list A) : list A :=
  match l, index with
  | [], _ => []
  | _ :: rest, O => rest
  | x :: rest, S i => x :: splice1 i rest
  end.

(** [offEvent(handler)] *)
Definition offEvent (handler : HandlerId) (w : Host) : Host :=
  match indexOf handler (onEventHandlers (engine w)) with
  | Some index =>
      this (fun e => set_onEventHandlers e (splice1 index (onEventHandlers e))) w
  | None => w
  end.

Arguments offEvent handler%_nat w.

(** [pause()] at wall time [now] *)
Definition pause (now : Q) (w : Host) : Host :=
  if negb (isPlaying (engine w)) then w
  else
    let w := this (fun e => set_isPlaying e false) w in
    let w := this (fun e => set_pausedAt e ((now - startTime e) * speed e)) w in
    match timeoutId (engine w) with
    | Some id =>
        let w := clearTimeout id w in
        this (fun e => set_timeoutId e None) w
    | None => w
    end.

(** [stop()] *)
Definition stop (now : Q) (w : Host) : Host :=
  let w := pause now w in
  let w := this (fun e => set_currentIndex e 0%nat) w in
  this (fun e => set_pausedAt e 0) w.

(** [getSpeed()], [getCurrentTime()], [getDuration()], [getCurrentIndex()],
    [getIsPlaying()] *)
Definition getSpeed (w : Host) : Q := speed (engine w).

Definition getCurrentTime (now : Q) (w : Host) : Q :=
  if isPlaying (engine w)
  then (now - startTime (engine w)) * speed (engine w)
  else pausedAt (engine w).

Definition getDuration (w : Host) : Q :=
  match last (map Some (events (engine w))) None with
  | None => 0
  | Some event => event_time event
  end.

Definition getCurrentIndex (w : Host) : nat := currentIndex (engine w).
Definition getIsPlaying (w : Host) : bool := isPlaying (engine w).

(** [scheduleNextEvent()].  The method calls itself when it wraps around
    a looping sequence; [fuel] bounds the depth of that recursion. *)
Fixpoint scheduleNextEvent (fuel : nat) (now : Q) (w : Host) : Completion :=
  match fuel with
  | O => CallStackExhausted
  | S fuel =>
      if negb (isPlaying (engine w)) then Normal w
      else if (List.length (events (engine w)) <=? currentIndex (engine w))%nat then
        if loop (engine w) then
          let w := this (fun e => set_currentIndex e 0%nat) w in
          let w := this (fun e => set_startTime e now) w in
          let w := this (fun e => set_pausedAt e 0) w in
          scheduleNextEvent fuel now w
        else Normal (this (fun e => set_isPlaying e false) w)
      else
        match nth_error (events (engine w)) (currentIndex (engine w)) with
        | None => Throw "TypeError: event is undefined"%string w
        | Some event =>
            let elapsedRealTime := now - startTime (engine w) in
            let currentTime := elapsedRealTime * speed (engine w) in
            let timeUntilEvent := event_time event - currentTime in
            let delay := Qmax 0 (timeUntilEvent / speed (engine w)) in
            let '(id, w) := setTimeout (Some event) delay now w in
            Normal (this (fun e => set_timeoutId e (Some id)) w)
        end
  end.

(** [play()] *)
Definition play (fuel : nat) (now : Q) (w : Host) : Completion :=
  if isPlaying (engine w) then Normal w
  else if (List.length (events (engine w)) =? 0)%nat then Normal w
  else
    let w := this (fun e => set_isPlaying e true) w in
    let w := this (fun e => set_startTime e (now - pausedAt e / speed e)) w in
    scheduleNextEvent fuel now w.

Definition runCall (now : Q) (w : Host) (c : Call) : Host :=
  match c with
  | CallOffEvent target => offEvent target w
  | CallPause => pause now w
  end.

(** [handler(event, index)] *)
Definition invoke (handler : PlaybackEventHandler)
    (event : option KakiatoEvent) (index : nat) (now : Q) (w : Host) : Host :=
  let w := record (mkDelivery (hid handler) event index) w in
  fold_left (runCall now) (body handler) w.

(** [for (const handler of this.onEventHandlers) handler(event, index)].
    The array iterator keeps a position [i] into the live array and
    re-reads the array, and its length, at every step. *)
Fixpoint emitFrom (steps : nat) (i : nat) (event : option KakiatoEvent)
    (index : nat) (now : Q) (w : Host) : Host :=
  match steps with
  | O => w
  | S steps =>
      match nth_error (onEventHandlers (engine w)) i with
      | None => w
      | Some handler =>
          emitFrom steps (S i) event index now (invoke handler event index now w)
      end
  end.

(** [emitEvent(event, index)].  No call of a body lengthens the handler
    array, so the iteration ends within [length] steps
    (see [emitFrom_enough]). *)
Definition emitEvent (event : option KakiatoEvent) (index : nat) (now : Q)
    (w : Host) : Host :=
  emitFrom (List.length (onEventHandlers (engine w))) 0 event index now w.

(** The first loop of [seek]: [targetIndex] after scanning [evs], the
    part of the array from position [i] on. *)
Fixpoint seekTarget (evs : list KakiatoEvent) (i targetIndex : nat) (time : Q)
    : nat :=
  match evs with
  | [] => targetIndex
  | event :: rest =>
      if Qle_bool (event_time event) time then seekTarget rest (S i) i time
      else targetIndex
  end.

(** The second loop of [seek]: [for (i = from; i <= targetIndex; i++)],
    as [count] remaining iterations. *)
Fixpoint replay (count : nat) (i : nat) (now : Q) (w : Host) : Host :=
  match count with
  | O => w
  | S count =>
      replay count (S i) now
        (emitEvent (nth_error (events (engine w)) i) i now w)
  end.

(** [seek(time)] *)
Definition seek (fuel : nat) (time : Q) (now : Q) (w : Host) : Completion :=
  let wasPlaying := isPlaying (engine w) in
  let w := pause now w in
  let targetIndex := seekTarget (events (engine w)) 0 0 time in
  let w := this (fun e => set_currentIndex e targetIndex) w in
  let w := this (fun e => set_pausedAt e time) w in
  let w := replay (S targetIndex) 0 now w in
  if wasPlaying then play fuel now w else Normal w.

(** [setSpeed(speed)] *)
Definition setSpeed (fuel : nat) (s : Q) (now : Q) (w : Host) : Completion :=
  if Qle_bool s 0 then Throw "Speed must be positive"%string w
  else
    let wasPlaying := isPlaying (engine w) in
    let w := if wasPlaying then pause now w else w in
    let w := this (fun e => set_speed e s) w in
    if wasPlaying then play fuel now w else Normal w.

(** The callback given to [setTimeout] by [scheduleNextEvent], run by the
    host with the event it captured. *)
Definition onTimeout (fuel : nat) (event : option KakiatoEvent) (now : Q)
    (w : Host) : Completion :=
  let w := emitEvent event (currentIndex (engine w)) now w in
  let w := this (fun e => set_currentIndex e (S (currentIndex e))) w in
  scheduleNextEvent fuel now w.

(** The host runs the pending timeout [id] at wall time [now], once its
    delay has elapsed; a cleared or early timeout does nothing. *)
Definition fire (fuel : nat) (id : nat) (now : Q) (w : Host) : Completion :=
  match find (fun t => Nat.eqb (timeout_id t) id) (pending w) with
  | Some t =>
      if Qle_bool (due t) now
      then onTimeout fuel (captured t) now (clearTimeout id w)
      else Normal w
  | None => Normal w
  end.

End Engine.

(* ------------------------------------------------------------------ *)
(** ** Vocabulary of the properties: state reconstructor *)

Module StateSpec.

Import Types State.
Open Scope Z_scope.

(** Both ends of the selection lie inside the current text. *)
Definition selectionWithinText (s : TextState) : Prop :=
  (0 <= selectionStart s <= strlen (text s))
  /\ (0 <= selectionEnd s <= strlen (text s)).

(** An event of type [input] that carries a delta and no snapshot. *)
Definition deltaOnly (base : KakiatoEventBase) (inputType data : string)
    : KakiatoEvent :=
  KakiatoInputEvent base input inputType (Some data) None.

Definition isInsert (inputType : string) : Prop :=
  inputType = "insertText"%string
  \/ inputType = "insertCompositionText"%string.

End StateSpec.

(* ------------------------------------------------------------------ *)
(** ** Vocabulary of the properties: playback engine *)

Module EngineSpec.

Import Types Engine.
Open Scope Q_scope.

(** A focus event at time [t]: the simplest event there is. *)
Definition at_ (t : Q) : KakiatoEvent := KakiatoFocusEvent (mkBase t None) focus.

(** A consumer that only reads the events it is given. *)
Definition inert (h : PlaybackEventHandler) : Prop := body h = [].

Definition listener (id : HandlerId) : PlaybackEventHandler := mkHandler id [].
Arguments listener id%_nat.

(** What [handlers] receive, in order, when one event is delivered to each
    of them. *)
Definition deliveries (handlers : list PlaybackEventHandler)
    (event : option KakiatoEvent) (index : nat) : list Delivery :=
  map (fun h => mkDelivery (hid h) event index) handlers.

(** How many times handler [id] was invoked in a trace. *)
Definition invocations (id : HandlerId) (tr : list Delivery) : nat :=
  List.length (filter (fun d => Nat.eqb (to_handler d) id) tr).

Arguments invocations id%_nat tr.

(** The events a trace handed to handler [id], oldest first. *)
Definition received (id : HandlerId) (tr : list Delivery)
    : list (option KakiatoEvent) :=
  map delivered_event (filter (fun d => Nat.eqb (to_handler d) id) tr).

Arguments received id%_nat tr.

(** [host] with [extra] appended to its trace. *)
Definition traced (extra : list Delivery) (w : Host) : Host :=
  mkHost (engine w) (pending w) (nextTimeoutId w) (trace w ++ extra).

(** The handler array without its first entry of identity [id]. *)
Fixpoint withoutFirst (id : HandlerId) (l : list PlaybackEventHandler)
    : list PlaybackEventHandler :=
  match l with
  | [] => []
  | h :: rest => if Nat.eqb (hid h) id then rest else h :: withoutFirst id rest
  end.

(** The engine loops and has nothing left to deliver: the next scheduling
    decision wraps around to the start of the sequence. *)
Definition atEndOfLoop (w : Host) : bool :=
  loop (engine w)
  && (List.length (events (engine w)) <=? currentIndex (engine w))%nat.

(** Times do not decrease along the array. *)
Fixpoint timeAscending (evs : list KakiatoEvent) : Prop :=
  match evs with
  | [] => True
  | e :: rest =>
      Forall (fun e' => event_time e <= event_time e') rest
      /\ timeAscending rest
  end.

Definition notAfter (t : Q) (event : KakiatoEvent) : bool :=
  Qle_bool (event_time event) t.

(** The pairs (event, index) of an array, from index [i] on. *)
Fixpoint indexed (i : nat) (evs : list KakiatoEvent)
    : list (option KakiatoEvent * nat) :=
  match evs with
  | [] => []
  | e :: rest => (Some e, i) :: indexed (S i) rest
  end.

(** The longest prefix of the array whose events are all not after [t]:
    what the scan of [seek] walks over before it breaks. *)
Fixpoint leading (t : Q) (evs : list KakiatoEvent) : list KakiatoEvent :=
  match evs with
  | [] => []
  | e :: rest => if notAfter t e then e :: leading t rest else []
  end.

(** The array reads [(events[j], j)] for [j] from [i], [count] of them. *)
Definition reads (evs : list KakiatoEvent) (i count : nat)
    : list (option KakiatoEvent * nat) :=
  map (fun j => (nth_error evs j, j)) (seq i count).

(** Each pair delivered in turn to every handler. *)
Definition deliverAll (handlers : list PlaybackEventHandler)
    (pairs : list (option KakiatoEvent * nat)) : list Delivery :=
  flat_map (fun p => deliveries handlers (fst p) (snd p)) pairs.

(** The subscriber that [KakiatoPlayer] installs feeds every event it is
    given to its reconstructor; [applyEvent(undefined)] reads a property of
    [undefined] and throws, here [None]. *)
Fixpoint replayInto (state : State.TextState)
    (got : list (option KakiatoEvent)) : option State.TextState :=
  match got with
  | [] => Some state
  | Some event :: rest => replayInto (State.applyEvent event state) rest
  | None :: _ => None
  end.

(** *** Concrete hosts used by the examples *)

(** A looping engine whose only subscriber pauses it from inside the
    delivery; one event is loaded. *)
Definition pausingSubscriber : PlaybackEventHandler := mkHandler 1 [CallPause].

Definition loopingHost : Host :=
  loadEvents [at_ 0] (onEvent pausingSubscriber (constructor None (Some true))).

(** An engine with one plain listener and the events [evs]. *)
Definition listeningHost (evs : list KakiatoEvent) : Host :=
  loadEvents evs (onEvent (listener 7) (constructor None None)).

(** The host [w] once [play()] has been called on it at wall time [0]. *)
Definition started (w : Host) : Host :=
  match play 2 0 w with
  | Normal w' => w'
  | _ => w
  end.

(** The events of the repository's engine tests. *)
Definition mockEvents : list KakiatoEvent :=
  [ KakiatoFocusEvent (mkBase 0 None) focus;
    KakiatoKeyboardEvent (mkBase 100 None) keydown "h" "KeyH";
    KakiatoInputEvent (mkBase 200 None) input "insertText" (Some "h"%string) None;
    KakiatoKeyboardEvent (mkBase 300 None) keydown "i" "KeyI";
    KakiatoInputEvent (mkBase 400 None) input "insertText" (Some "i"%string) None ].

(** The host lets wall time pass: at each of the [times], in turn, it runs
    the timeout the engine is waiting for. *)
Fixpoint advance (fuel : nat) (times : list Q) (w : Host) : Completion :=
  match times with
  | [] => Normal w
  | now :: later =>
      match timeoutId (engine w) with
      | None => Normal w
      | Some id =>
          match fire fuel id now w with
          | Normal w' => advance fuel later w'
          | other => other
          end
      end
  end.

(** A handler that unsubscribes itself when called, registered before a
    plain listener. *)
Definition selfRemoving : PlaybackEventHandler := mkHandler 1 [CallOffEvent 1].

Definition twoHandlers : Host :=
  onEvent (listener 2) (onEvent selfRemoving (constructor None None)).

End EngineSpec.

(* ------------------------------------------------------------------ *)
(** ** The clock in double precision *)

Module Binary64.

Import PrimFloat.
Open Scope float_scope.

(** What [getCurrentTime()] reads right after [play()], both at wall time
    [now], on an engine paused at [pausedAt] with an event left to deliver:
    the assignment [startTime = Date.now() - pausedAt / speed] followed by
    [(Date.now() - startTime) * speed], in the arithmetic of the host. *)
Definition resumedReading (now pausedAt speed : float) : float :=
  let startTime := now - pausedAt / speed in
  (now - startTime) * speed.

End Binary64.


(* ------------------------------------------------------------------ *)
(** ** Vocabulary of the laws of the reconstructor *)

Module StateLawSpec.

Import Types State StateSpec.
Open Scope Z_scope.

(** An event of type [input]: the only kind [applyEvent] hands to
    [handleInputEvent]. *)
Definition isInput (event : KakiatoEvent) : bool :=
  match event with
  | KakiatoInputEvent _ input _ _ _ => true
  | _ => false
  end.

(** An [input] event that carries a delta and no snapshot: its effect
    depends on the buffer it finds. *)
Definition isDelta (event : KakiatoEvent) : bool :=
  match event with
  | KakiatoInputEvent _ input _ (Some _) None => true
  | _ => false
  end.

(** Keystrokes recorded without a position: one insert delta per key, each
    with the time it was typed at. *)
Definition typed (keys : list (Q * string)) : list KakiatoEvent :=
  map (fun k => deltaOnly (mkBase (fst k) None) "insertText" (snd k)) keys.

Definition joined (parts : list string) : string :=
  fold_right String.append EmptyString parts.

(** The latest composition boundary of a sequence: [Some true] when it is a
    [compositionstart], [Some false] when it is a [compositionend], [None]
    when the sequence has neither. *)
Fixpoint lastBoundary (evs : list KakiatoEvent) : option bool :=
  match evs with
  | [] => None
  | event :: rest =>
      match lastBoundary rest with
      | Some b => Some b
      | None =>
          match event with
          | KakiatoCompositionEvent _ compositionstart _ => Some true
          | KakiatoCompositionEvent _ compositionend _ => Some false
          | _ => None
          end
      end
  end.

End StateLawSpec.

(* ------------------------------------------------------------------ *)
(** ** Vocabulary of the laws of the engine *)

Module EngineLawSpec.

Import Types Engine EngineSpec.
Open Scope Q_scope.

(** The scheduling discipline: at most one timeout is pending, and when one
    is the engine is playing and [timeoutId] is its handle. *)
Definition scheduled (w : Host) : Prop :=
  match pending w with
  | [] => True
  | [t] =>
      isPlaying (engine w) = true
      /\ timeoutId (engine w) = Some (timeout_id t)
  | _ => False
  end.

(** What can happen to an engine: a call of one of its public methods, or
    the host running a timeout. *)
Inductive Action : Type :=
| DoLoadEvents (evs : list KakiatoEvent)
| DoOnEvent (handler : PlaybackEventHandler)
| DoOffEvent (handler : HandlerId)
| DoPlay
| DoPause
| DoStop
| DoSeek (time : Q)
| DoSetSpeed (s : Q)
| DoTimeout (id : nat).

Definition perform (fuel : nat) (now : Q) (a : Action) (w : Host)
    : Completion :=
  match a with
  | DoLoadEvents evs => Normal (loadEvents evs w)
  | DoOnEvent handler => Normal (onEvent handler w)
  | DoOffEvent handler => Normal (offEvent handler w)
  | DoPlay => play fuel now w
  | DoPause => Normal (pause now w)
  | DoStop => Normal (stop now w)
  | DoSeek time => seek fuel time now w
  | DoSetSpeed s => setSpeed fuel s now w
  | DoTimeout id => fire fuel id now w
  end.

(** The host a call leaves behind; a caller that catches what was thrown
    goes on with the host at the [throw]. *)
Definition hostAfter (c : Completion) : option Host :=
  match c with
  | Normal w => Some w
  | Throw _ w => Some w
  | CallStackExhausted => None
  end.

(** A script: actions with the wall time each happens at. *)
Fixpoint performAll (fuel : nat) (script : list (Q * Action)) (w : Host)
    : option Host :=
  match script with
  | [] => Some w
  | (now, a) :: rest =>
      match hostAfter (perform fuel now a w) with
      | Some w' => performAll fuel rest w'
      | None => None
      end
  end.

(** The host runs the pending timeout at the wall time it is due, [n] times
    over. *)
Fixpoint runDue (fuel : nat) (n : nat) (w : Host) : Completion :=
  match n with
  | O => Normal w
  | S n =>
      match pending w with
      | [] => Normal w
      | t :: _ =>
          match fire fuel (timeout_id t) (due t) w with
          | Normal w' => runDue fuel n w'
          | other => other
          end
      end
  end.

(** The engine is playing without looping, is at index [i] and waits for
    the one pending timeout, which has captured [events[i]]. *)
Definition awaiting (i : nat) (w : Host) : Prop :=
  isPlaying (engine w) = true
  /\ loop (engine w) = false
  /\ currentIndex (engine w) = i
  /\ exists t event,
       pending w = [t]
       /\ nth_error (events (engine w)) i = Some event
       /\ captured t = Some event.

End EngineLawSpec.

(* ------------------------------------------------------------------ *)
(** ** The player ([src/player/KakiatoPlayer.ts])

    A player owns one engine and one reconstructor and subscribes to its
    engine with a callback that feeds every event to the reconstructor.  The
    callback makes no call on the engine, so in the engine's terms it is a
    handler with an empty body; what it does to the reconstructor is read
    off the trace: after each call on the engine the deliveries made during
    that call are applied, in order, to the reconstructor.  The player is
    modelled without a container, that is without viewer ([viewer] is
    [null] and nothing is rendered); of a document only the fields the player
    reads are kept. *)

Module Player.

Import Types.

Record KakiatoDocument : Type := mkDocument {
  initial_text : string;
  events : list KakiatoEvent
}.

Record KakiatoPlayer : Type := mkPlayer {
  document : option KakiatoDocument;
  host : Engine.Host;
  stateReconstructor : State.TextState
}.

Record PlayerState : Type := mkPlayerState {
  isPlaying : bool;
  currentTime : Q;
  duration : Q;
  speed : Q;
  textState : State.TextState
}.

(** How a call on the player ends.  What the player looks like after a
    [throw] is not modelled. *)
Inductive Outcome : Type :=
| Returned (p : KakiatoPlayer)
| Threw (msg : string).

(** The callback the constructor passes to [engine.onEvent]. *)
Definition subscriber : Engine.PlaybackEventHandler := Engine.mkHandler 0 [].

(** The events handed to the callback between two hosts of the same
    engine. *)
Definition deliveredSince (before after : Engine.Host)
    : list (option KakiatoEvent) :=
  map Engine.delivered_event
    (skipn (List.length (Engine.trace before)) (Engine.trace after)).

(** A call on the engine as the player sees it: the events delivered during
    the call have gone through [stateReconstructor.applyEvent], which throws
    on [undefined]; what the engine throws passes through. *)
Definition settle (p : KakiatoPlayer) (c : Engine.Completion) : Outcome :=
  match c with
  | Engine.Normal w =>
      match EngineSpec.replayInto (stateReconstructor p)
              (deliveredSince (host p) w) with
      | Some state => Returned (mkPlayer (document p) w state)
      | None =>
          Threw "TypeError: Cannot read properties of undefined (reading 'type')"
      end
  | Engine.Throw msg _ => Threw msg
  | Engine.CallStackExhausted =>
      Threw "RangeError: Maximum call stack size exceeded"
  end.

(** [new KakiatoPlayer(options)], without container. *)
Definition constructor (options_speed : option Q) : KakiatoPlayer :=
  mkPlayer None
    (Engine.onEvent subscriber
       (Engine.constructor (Some (JS.nullish options_speed 1%Q)) None))
    (State.reset EmptyString).

(** [load(document)] *)
Definition load (doc : KakiatoDocument) (p : KakiatoPlayer) : KakiatoPlayer :=
  mkPlayer (Some doc)
    (Engine.loadEvents (events doc) (host p))
    (State.reset (initial_text doc)).

(** [play()] *)
Definition play (fuel : nat) (now : Q) (p : KakiatoPlayer) : Outcome :=
  match document p with
  | None => Threw "No document loaded"
  | Some _ => settle p (Engine.play fuel now (host p))
  end.

(** [pause()] *)
Definition pause (now : Q) (p : KakiatoPlayer) : KakiatoPlayer :=
  mkPlayer (document p) (Engine.pause now (host p)) (stateReconstructor p).

(** [stop()] *)
Definition stop (now : Q) (p : KakiatoPlayer) : KakiatoPlayer :=
  let w := Engine.stop now (host p) in
  match document p with
  | Some doc => mkPlayer (document p) w (State.reset (initial_text doc))
  | None => mkPlayer (document p) w (stateReconstructor p)
  end.

(** [seek(timeMs)] *)
Definition seek (fuel : nat) (timeMs now : Q) (p : KakiatoPlayer) : Outcome :=
  settle p (Engine.seek fuel timeMs now (host p)).

(** [setSpeed(speed)] *)
Definition setSpeed (fuel : nat) (s now : Q) (p : KakiatoPlayer) : Outcome :=
  settle p (Engine.setSpeed fuel s now (host p)).

(** [getState()] *)
Definition getState (now : Q) (p : KakiatoPlayer) : PlayerState :=
  mkPlayerState
    (Engine.getIsPlaying (host p))
    (Engine.getCurrentTime now (host p))
    (Engine.getDuration (host p))
    (Engine.getSpeed (host p))
    (stateReconstructor p).

(** [destroy()] *)
Definition destroy (now : Q) (p : KakiatoPlayer) : KakiatoPlayer :=
  mkPlayer (document p) (Engine.stop now (host p)) (stateReconstructor p).

(** The host runs the engine's pending timeout when it is due, [n] times
    over. *)
Fixpoint timeoutsRun (fuel : nat) (n : nat) (p : KakiatoPlayer) : Outcome :=
  match n with
  | O => Returned p
  | S n =>
      match Engine.pending (host p) with
      | [] => Returned p
      | t :: _ =>
          match settle p (Engine.fire fuel (Engine.timeout_id t)
                            (Engine.due t) (host p)) with
          | Returned p' => timeoutsRun fuel n p'
          | Threw msg => Threw msg
          end
      end
  end.

(** The player is as its constructor and methods leave it: its callback is
    the engine's only subscriber. *)
Definition subscribed (p : KakiatoPlayer) : Prop :=
  Engine.onEventHandlers (Engine.engine (host p)) = [subscriber].

End Player.

(* ------------------------------------------------------------------ *)
(** ** The recorder ([src/recorder/KakiatoRecorder.ts] and its handlers)

    The handlers translate what the browser tells them into events of the
    schema.  What they read from the browser is made explicit: the target of
    a DOM event, [document.activeElement], [window.getSelection()] and the
    clock.  An element is one of the kinds the handlers tell apart with
    [instanceof] and [isContentEditable]; a content-editable element is given
    by its text nodes in document order, which is what a tree walker over
    [SHOW_TEXT] yields and what [textContent] concatenates. *)

Module Recorder.

Import Types.
Open Scope Z_scope.

Inductive Element : Type :=
| HTMLInputElement (value : string) (selectionStart selectionEnd : option Z)
| HTMLTextAreaElement (value : string) (selectionStart selectionEnd : option Z)
| ContentEditable (textNodes : list (nat * string))
| OtherElement.

(** [window.getSelection()]: the offset of its first range, and its anchor
    and focus, each a text node (by identity) and an offset into it. *)
Record Selection : Type := mkSelection {
  rangeCount : nat;
  startOffset : Z;
  anchorNode : option nat;
  anchorOffset : Z;
  focusNode : option nat;
  focusOffset : Z
}.

Record Dom : Type := mkDom {
  getSelection : option Selection;
  activeElement : option Element
}.

Record ModifierKeys : Type := mkKeys {
  shiftKey : bool;
  ctrlKey : bool;
  altKey : bool;
  metaKey : bool
}.

(** The DOM events the recorder listens to, with the properties its
    handlers read. *)
Inductive DomEvent : Type :=
| DomKeyDown (key code : string) (keys : ModifierKeys) (target : option Element)
| DomKeyUp (key code : string) (keys : ModifierKeys) (target : option Element)
| DomBeforeInput (inputType : string) (data : option string)
    (keys : ModifierKeys) (target : option Element)
| DomInput (inputType : string) (data : option string)
    (keys : ModifierKeys) (target : option Element)
| DomCompositionStart (data : string) (target : option Element)
| DomCompositionUpdate (data : string) (target : option Element)
| DomCompositionEnd (data : string) (target : option Element)
| DomSelectionChange
| DomFocus (target : option Element)
| DomBlur (target : option Element).

(** [KakiatoModifiers]: the keys that were down. *)
Record KakiatoModifiers : Type := mkModifiers {
  shift : bool;
  ctrl : bool;
  alt : bool;
  meta : bool
}.

(** An event as the handlers build it: the event of the schema and the
    modifier set that goes with it. *)
Record Recorded : Type := mkRecorded {
  event : KakiatoEvent;
  modifiers : option KakiatoModifiers
}.

Definition textContent (textNodes : list (nat * string)) : string :=
  fold_right String.append EmptyString (map snd textNodes).

(** [extractModifiers(event)] *)
Definition extractModifiers (keys : ModifierKeys) : option KakiatoModifiers :=
  let hasModifiers := shiftKey keys || ctrlKey keys || altKey keys || metaKey keys in
  if hasModifiers
  then Some (mkModifiers (shiftKey keys) (ctrlKey keys) (altKey keys) (metaKey keys))
  else None.

(** [getCursorPosition(target)] *)
Definition getCursorPosition (dom : Dom) (target : option Element) : option Z :=
  match target with
  | None => None
  | Some (HTMLInputElement _ selectionStart _) => selectionStart
  | Some (HTMLTextAreaElement _ selectionStart _) => selectionStart
  | Some (ContentEditable _) =>
      match getSelection dom with
      | None => None
      | Some selection =>
          if Nat.eqb (rangeCount selection) 0 then None
          else Some (startOffset selection)
      end
  | Some OtherElement => None
  end.

(** The text the [input] handler reads off its target. *)
Definition currentText (target : option Element) : option string :=
  match target with
  | Some (HTMLInputElement value _ _) => Some value
  | Some (HTMLTextAreaElement value _ _) => Some value
  | Some (ContentEditable textNodes) => Some (textContent textNodes)
  | _ => None
  end.

(** [isEditableElement(target)] *)
Definition isEditableElement (target : option Element) : bool :=
  match target with
  | Some (HTMLInputElement _ _ _) => true
  | Some (HTMLTextAreaElement _ _ _) => true
  | Some (ContentEditable _) => true
  | _ => false
  end.

(** [...(event.data && { data: event.data })]: an empty string is falsy. *)
Definition truthy (data : string) : option string :=
  match data with
  | EmptyString => None
  | _ => Some data
  end.

(** [getTextOffset(root, node, offset)] over the text nodes of [root]. *)
Fixpoint walk (textNodes : list (nat * string)) (node : nat) (offset : Z)
    (textOffset : Z) : Z :=
  match textNodes with
  | [] => textOffset
  | (currentNode, content) :: rest =>
      if Nat.eqb currentNode node then textOffset + offset
      else walk rest node offset (textOffset + State.strlen content)
  end.

Definition getTextOffset (root : list (nat * string)) (node : option nat)
    (offset : Z) : Z :=
  match node with
  | None => 0
  | Some n => walk root n offset 0
  end.

(** [determineAffinity(anchorIndex, focusIndex)] *)
Definition determineAffinity (anchorIndex focusIndex : Z) : Affinity :=
  if anchorIndex =? focusIndex then none
  else if anchorIndex <? focusIndex then forward else backward.

(** The anchor and focus indices [handleSelectionChange] arrives at, when
    it does not return before. *)
Definition selectionIndices (dom : Dom) : option (Z * Z) :=
  match getSelection dom with
  | None => None
  | Some selection =>
      match activeElement dom with
      | None => None
      | Some (HTMLInputElement _ selectionStart selectionEnd) =>
          Some (JS.nullish selectionStart 0, JS.nullish selectionEnd 0)
      | Some (HTMLTextAreaElement _ selectionStart selectionEnd) =>
          Some (JS.nullish selectionStart 0, JS.nullish selectionEnd 0)
      | Some (ContentEditable textNodes) =>
          if Nat.eqb (rangeCount selection) 0 then None
          else
            Some (getTextOffset textNodes (anchorNode selection)
                    (anchorOffset selection),
                  getTextOffset textNodes (focusNode selection)
                    (focusOffset selection))
      | Some OtherElement => None
      end
  end.

Definition sameSelection (last : option (Z * Z)) (anchorIndex focusIndex : Z)
    : bool :=
  match last with
  | Some (a, f) => (a =? anchorIndex) && (f =? focusIndex)
  | None => false
  end.

(** *** The recorder object

    [attached] stands for the five handler objects, which exist and listen
    from [start()] to [stop()]; each was built with the [startTime] of that
    [start()].  [lastSelection] is the state of the selection handler.  The
    session metadata is what the browser provides when recording starts. *)
Record KakiatoSessionMeta : Type := mkSession {
  id : string;
  user_agent : string;
  lang : string;
  device : string
}.

Record KakiatoRecorder : Type := mkRecorder {
  events : list Recorded;
  sessionMetadata : option KakiatoSessionMeta;
  isRecording : bool;
  initialText : string;
  startTime : Q;
  attached : bool;
  lastSelection : option (Z * Z)
}.

Record KakiatoDocument : Type := mkDocument {
  version : string;
  session : KakiatoSessionMeta;
  initial_text : string;
  doc_events : list Recorded
}.

(** [new KakiatoRecorder()], without [autoStart]. *)
Definition constructor : KakiatoRecorder :=
  mkRecorder [] None false EmptyString 0%Q false None.

(** [getInitialText()] *)
Definition getInitialText (dom : Dom) : string :=
  match activeElement dom with
  | Some (HTMLInputElement value _ _) => value
  | Some (HTMLTextAreaElement value _ _) => value
  | Some (ContentEditable textNodes) => textContent textNodes
  | _ => EmptyString
  end.

(** [start()] at wall time [now] *)
Definition start (now : Q) (dom : Dom) (meta : KakiatoSessionMeta)
    (r : KakiatoRecorder) : KakiatoRecorder :=
  if isRecording r then r
  else mkRecorder [] (Some meta) true (getInitialText dom) now true None.

(** [stop()] *)
Definition stop (r : KakiatoRecorder) : KakiatoRecorder :=
  if negb (isRecording r) then r
  else
    mkRecorder (events r) (sessionMetadata r) false (initialText r)
      (startTime r) false None.

(** The [onEvent] closure handed to the handlers. *)
Definition onEvent (e : Recorded) (r : KakiatoRecorder) : KakiatoRecorder :=
  if isRecording r
  then mkRecorder (events r ++ [e]) (sessionMetadata r) (isRecording r)
         (initialText r) (startTime r) (attached r) (lastSelection r)
  else r.

(** What a handler builds for a DOM event other than [selectionchange];
    [None] when the handler returns without an event. *)
Definition translate (time : Q) (dom : Dom) (e : DomEvent) : option Recorded :=
  match e with
  | DomKeyDown key code keys target =>
      Some (mkRecorded
              (KakiatoKeyboardEvent (mkBase time (getCursorPosition dom target))
                 keydown key code)
              (extractModifiers keys))
  | DomKeyUp key code keys target =>
      Some (mkRecorded
              (KakiatoKeyboardEvent (mkBase time (getCursorPosition dom target))
                 keyup key code)
              (extractModifiers keys))
  | DomBeforeInput inputType data keys target =>
      Some (mkRecorded
              (KakiatoInputEvent (mkBase time (getCursorPosition dom target))
                 beforeinput inputType data None)
              (extractModifiers keys))
  | DomInput inputType data keys target =>
      Some (mkRecorded
              (KakiatoInputEvent (mkBase time (getCursorPosition dom target))
                 input inputType data (currentText target))
              (extractModifiers keys))
  | DomCompositionStart data target =>
      Some (mkRecorded
              (KakiatoCompositionEvent
                 (mkBase time (getCursorPosition dom target))
                 compositionstart (truthy data))
              None)
  | DomCompositionUpdate data target =>
      Some (mkRecorded
              (KakiatoCompositionEvent
                 (mkBase time (getCursorPosition dom target))
                 compositionupdate (truthy data))
              None)
  | DomCompositionEnd data target =>
      Some (mkRecorded
              (KakiatoCompositionEvent
                 (mkBase time (getCursorPosition dom target))
                 compositionend (truthy data))
              None)
  | DomSelectionChange => None
  | DomFocus target =>
      if isEditableElement target
      then Some (mkRecorded (KakiatoFocusEvent (mkBase time None) focus) None)
      else None
  | DomBlur target =>
      if isEditableElement target
      then Some (mkRecorded (KakiatoFocusEvent (mkBase time None) blur) None)
      else None
  end.

(** [handleSelectionChange()] at wall time [now] *)
Definition handleSelectionChange (now : Q) (dom : Dom) (r : KakiatoRecorder)
    : KakiatoRecorder :=
  match selectionIndices dom with
  | None => r
  | Some (anchorIndex, focusIndex) =>
      if sameSelection (lastSelection r) anchorIndex focusIndex then r
      else
        let r :=
          mkRecorder (events r) (sessionMetadata r) (isRecording r)
            (initialText r) (startTime r) (attached r)
            (Some (anchorIndex, focusIndex)) in
        let affinity := determineAffinity anchorIndex focusIndex in
        onEvent
          (mkRecorded
             (KakiatoSelectionChangeEvent
                (mkBase (now - startTime r)%Q None)
                (mkSel anchorIndex (Some affinity))
                (mkSel focusIndex (Some affinity)))
             None)
          r
  end.

(** The browser dispatches a DOM event at wall time [now]: it reaches the
    handlers while they are attached. *)
Definition dispatch (now : Q) (dom : Dom) (e : DomEvent) (r : KakiatoRecorder)
    : KakiatoRecorder :=
  if negb (attached r) then r
  else
    match e with
    | DomSelectionChange => handleSelectionChange now dom r
    | _ =>
        match translate (now - startTime r)%Q dom e with
        | Some recorded => onEvent recorded r
        | None => r
        end
    end.

(** [getDocument()]; [None] is the thrown
    [Error('No recording session available')]. *)
Definition getDocument (r : KakiatoRecorder) : option KakiatoDocument :=
  match sessionMetadata r with
  | None => None
  | Some meta => Some (mkDocument "0.1" meta (initialText r) (events r))
  end.

(** A stretch of browser activity: DOM events with the wall time and the
    state of the page each is dispatched in. *)
Definition dispatchAll (activity : list (Q * Dom * DomEvent))
    (r : KakiatoRecorder) : KakiatoRecorder :=
  fold_left (fun r a => dispatch (fst (fst a)) (snd (fst a)) (snd a) r)
    activity r.

(** The document as the player takes it. *)
Definition toPlayer (doc : KakiatoDocument) : Player.KakiatoDocument :=
  Player.mkDocument (initial_text doc) (map event (doc_events doc)).

End Recorder.

(* ------------------------------------------------------------------ *)
(** ** Vocabulary of the properties: recorder *)

Module RecorderSpec.

Import Types Recorder.
Open Scope Q_scope.

(** The wall clock does not run backwards: the dispatch times of an
    activity, from [t0] on, do not decrease. *)
Fixpoint clockMonotone (t0 : Q) (activity : list (Q * Dom * DomEvent)) : Prop :=
  match activity with
  | [] => True
  | a :: rest => t0 <= fst (fst a) /\ clockMonotone (fst (fst a)) rest
  end.



(** Node [n] is one of the text nodes, and [offset] points into it. *)
Definition pointsInto (textNodes : list (nat * string)) (n : nat) (offset : Z)
    : Prop :=
  exists content,
    In (n, content) textNodes /\ (0 <= offset <= State.strlen content)%Z.

End RecorderSpec.

(* ------------------------------------------------------------------ *)
(** ** The numbers of the host: binary64

    A JavaScript number is an IEEE 754 double.  A finite double is a
    rational, and every arithmetic operation of the language returns the
    exact result rounded to the nearest double, ties to the even
    significand.  [round] is that rounding on the rationals: 53 bits of
    significand, gradual underflow below [2^-1022].  Overflow is outside
    the model: a result of magnitude [2^1024] or more, which the host turns
    into an infinity, has no counterpart here, and the theorems about rounded
    arithmetic keep their operands far below it by hypothesis. *)

Module Double.

Open Scope Q_scope.

(** [floor (log2 |x|)] for [x <> 0]: the difference of the bit lengths of
    numerator and denominator, or one less. *)
Definition ilog2 (x : Q) : Z :=
  let k := (Z.log2 (Z.abs (Qnum x)) - Z.log2 (Zpos (Qden x)))%Z in
  if Qle_bool (2 ^ k) (Qabs x) then k else (k - 1)%Z.

(** The exponent of the smallest normal number. *)
Definition emin : Z := (-1022)%Z.

(** The exponent [x] is represented with: its own, or [emin] when [x] is
    subnormal. *)
Definition exponent (x : Q) : Z := Z.max (ilog2 x) emin.

(** The spacing of the doubles around [x]: one unit in the last of the 53
    places. *)
Definition ulp (x : Q) : Q := 2 ^ (exponent x - 52).

(** The integer nearest to [y], the even one of the two when [y] lies half
    way. *)
Definition nearestEven (y : Q) : Z :=
  let f := Qfloor y in
  match Qcompare (y - inject_Z f) (1 # 2) with
  | Lt => f
  | Gt => (f + 1)%Z
  | Eq => if Z.even f then f else (f + 1)%Z
  end.

(** The double nearest to [x]. *)
Definition round (x : Q) : Q :=
  Qred (inject_Z (nearestEven (x / ulp x)) * ulp x).

(** The unit roundoff [2^-53] and half the smallest subnormal, [2^-1075]:
    the relative and the absolute bound on what one rounding loses. *)
Definition unitRoundoff : Q := 1 # 9007199254740992.
Definition eta : Q := 2 ^ (-1075).

(** The magnitude from which on a result overflows. *)
Definition overflowThreshold : Q := 2 ^ 1024.

(** The value of a float of the proof assistant's own binary64 arithmetic;
    [None] for infinities and NaN. *)
Definition toQ (f : PrimFloat.float) : option Q :=
  match FloatOps.Prim2SF f with
  | SpecFloat.S754_zero _ => Some 0
  | SpecFloat.S754_finite s m e =>
      Some (Qred ((if s then -1 else 1) * inject_Z (Zpos m) * 2 ^ e))
  | _ => None
  end.

End Double.

(* ------------------------------------------------------------------ *)
(** ** The engine in the arithmetic of its host

    The methods of [PlaybackEngine] that compute with times, with the
    rounding [fl] of the host applied to the result of every subtraction,
    multiplication and division of the source.  With [Double.round] for [fl]
    this is the engine as it runs; with the identity it is [Engine], the
    engine in exact arithmetic.  Types, setters, the timer queue and the
    methods that do no arithmetic are those of [Engine].  The timers
    themselves belong to the host: a timeout is due [delay] after the call of
    [setTimeout], as in [Engine]. *)

Module Rounded.

Import Types Engine.
Open Scope Q_scope.

Section Arithmetic.

Variable fl : Q -> Q.

(** [pause()] at wall time [now] *)
Definition pause (now : Q) (w : Host) : Host :=
  if negb (isPlaying (engine w)) then w
  else
    let w := this (fun e => set_isPlaying e false) w in
    let w :=
      this (fun e => set_pausedAt e (fl (fl (now - startTime e) * speed e))) w in
    match timeoutId (engine w) with
    | Some id =>
        let w := clearTimeout id w in
        this (fun e => set_timeoutId e None) w
    | None => w
    end.

(** [stop()] *)
Definition stop (now : Q) (w : Host) : Host :=
  let w := pause now w in
  let w := this (fun e => set_currentIndex e 0%nat) w in
  this (fun e => set_pausedAt e 0) w.

(** [getCurrentTime()] *)
Definition getCurrentTime (now : Q) (w : Host) : Q :=
  if isPlaying (engine w)
  then fl (fl (now - startTime (engine w)) * speed (engine w))
  else pausedAt (engine w).

(** [scheduleNextEvent()] *)
Fixpoint scheduleNextEvent (fuel : nat) (now : Q) (w : Host) : Completion :=
  match fuel with
  | O => CallStackExhausted
  | S fuel =>
      if negb (isPlaying (engine w)) then Normal w
      else if (List.length (events (engine w)) <=? currentIndex (engine w))%nat then
        if loop (engine w) then
          let w := this (fun e => set_currentIndex e 0%nat) w in
          let w := this (fun e => set_startTime e now) w in
          let w := this (fun e => set_pausedAt e 0) w in
          scheduleNextEvent fuel now w
        else Normal (this (fun e => set_isPlaying e false) w)
      else
        match nth_error (events (engine w)) (currentIndex (engine w)) with
        | None => Throw "TypeError: event is undefined"%string w
        | Some event =>
            let elapsedRealTime := fl (now - startTime (engine w)) in
            let currentTime := fl (elapsedRealTime * speed (engine w)) in
            let timeUntilEvent := fl (event_time event - currentTime) in
            let delay := Qmax 0 (fl (timeUntilEvent / speed (engine w))) in
            let '(id, w) := setTimeout (Some event) delay now w in
            Normal (this (fun e => set_timeoutId e (Some id)) w)
        end
  end.

(** [play()] *)
Definition play (fuel : nat) (now : Q) (w : Host) : Completion :=
  if isPlaying (engine w) then Normal w
  else if (List.length (events (engine w)) =? 0)%nat then Normal w
  else
    let w := this (fun e => set_isPlaying e true) w in
    let w :=
      this (fun e => set_startTime e (fl (now - fl (pausedAt e / speed e)))) w in
    scheduleNextEvent fuel now w.

Definition runCall (now : Q) (w : Host) (c : Call) : Host :=
  match c with
  | CallOffEvent target => offEvent target w
  | CallPause => pause now w
  end.

(** [handler(event, index)] *)
Definition invoke (handler : PlaybackEventHandler)
    (event : option KakiatoEvent) (index : nat) (now : Q) (w : Host) : Host :=
  let w := record (mkDelivery (hid handler) event index) w in
  fold_left (runCall now) (body handler) w.

(** [for (const handler of this.onEventHandlers) handler(event, index)] *)
Fixpoint emitFrom (steps : nat) (i : nat) (event : option KakiatoEvent)
    (index : nat) (now : Q) (w : Host) : Host :=
  match steps with
  | O => w
  | S steps =>
      match nth_error (onEventHandlers (engine w)) i with
      | None => w
      | Some handler =>
          emitFrom steps (S i) event index now (invoke handler event index now w)
      end
  end.

(** [emitEvent(event, index)] *)
Definition emitEvent (event : option KakiatoEvent) (index : nat) (now : Q)
    (w : Host) : Host :=
  emitFrom (List.length (onEventHandlers (engine w))) 0 event index now w.

(** The second loop of [seek]. *)
Fixpoint replay (count : nat) (i : nat) (now : Q) (w : Host) : Host :=
  match count with
  | O => w
  | S count =>
      replay count (S i) now
        (emitEvent (nth_error (events (engine w)) i) i now w)
  end.

(** [seek(time)] *)
Definition seek (fuel : nat) (time : Q) (now : Q) (w : Host) : Completion :=
  let wasPlaying := isPlaying (engine w) in
  let w := pause now w in
  let targetIndex := seekTarget (events (engine w)) 0 0 time in
  let w := this (fun e => set_currentIndex e targetIndex) w in
  let w := this (fun e => set_pausedAt e time) w in
  let w := replay (S targetIndex) 0 now w in
  if wasPlaying then play fuel now w else Normal w.

(** [setSpeed(speed)] *)
Definition setSpeed (fuel : nat) (s : Q) (now : Q) (w : Host) : Completion :=
  if Qle_bool s 0 then Throw "Speed must be positive"%string w
  else
    let wasPlaying := isPlaying (engine w) in
    let w := if wasPlaying then pause now w else w in
    let w := this (fun e => set_speed e s) w in
    if wasPlaying then play fuel now w else Normal w.

(** The callback given to [setTimeout] by [scheduleNextEvent]. *)
Definition onTimeout (fuel : nat) (event : option KakiatoEvent) (now : Q)
    (w : Host) : Completion :=
  let w := emitEvent event (currentIndex (engine w)) now w in
  let w := this (fun e => set_currentIndex e (S (currentIndex e))) w in
  scheduleNextEvent fuel now w.

(** The host runs the pending timeout [id] at wall time [now]. *)
Definition fire (fuel : nat) (id : nat) (now : Q) (w : Host) : Completion :=
  match find (fun t => Nat.eqb (timeout_id t) id) (pending w) with
  | Some t =>
      if Qle_bool (due t) now
      then onTimeout fuel (captured t) now (clearTimeout id w)
      else Normal w
  | None => Normal w
  end.

End Arithmetic.

End Rounded.

(* ------------------------------------------------------------------ *)
(** ** Readings of the proof assistant's binary64 arithmetic *)

Module Hardware.

Import PrimFloat.
Open Scope float_scope.

(** The clock right after a resume at wall time [1.7e12], from a pause at
    [100] with speed [3]. *)
Definition resumedAt100 : float := Binary64.resumedReading 1700000000000 100 3.

(** The same for a pause at [2^1000] with speed [2^-1000]: the division
    overflows. *)
Definition resumedAtOverflow : float :=
  Binary64.resumedReading 1700000000000 0x1p1000 0x1p-1000.

(** The operations of the resume at [100], one by one. *)
Definition realTimeAt100 : float := 100 / 3.
Definition startTimeAt100 : float := 1700000000000 - realTimeAt100.
Definition elapsedAt100 : float := 1700000000000 - startTimeAt100.

(** A sum and a difference that are not exact. *)
Definition tenthPlusFifth : float := 1 / 10 + 2 / 10.
Definition thirdMinusOne : float := 1 / 3 - 1.

(** Halves of the smallest subnormal [2^-1074]: ties go to the even
    significand. *)
Definition threeHalvesOfLeast : float := 0x1p-1074 * 1.5.
Definition fiveHalvesOfLeast : float := 0x1p-1074 * 2.5.
Definition thirdOfLeast : float := 0x1p-1074 / 3.

End Hardware.

(* ------------------------------------------------------------------ *)
(** ** Vocabulary of the properties: rounded arithmetic *)

Module RoundedSpec.

Import Types Engine EngineSpec.
Open Scope Q_scope.

(** Exact arithmetic: nothing is rounded. *)
Definition unrounded (x : Q) : Q := x.

(** How far the clock can be from the virtual time [v] it is resumed at,
    with speed [s] at wall time [now]: a relative part, of the size of the
    last places of [v] and of [s * now], and what underflow can add. *)
Definition resumeError (v s now : Q) : Q :=
  (1 # 1125899906842624) * (Qabs v + s * Qabs now)
  + (4 * s + 1) * Double.eta.

(** Magnitudes at which no operation of a resume comes near the overflow
    threshold [2^1024]: wall time and speed up to [2^500], and a virtual time
    that corresponds to at most [2^500] of real time. *)
Definition bound : Q := 2 ^ 500.

Definition withinBounds (v s now : Q) : Prop :=
  Qabs now <= bound /\ s <= bound /\ Qabs v <= bound * s.

(** A host paused at virtual time [v] with speed [s]: one plain listener,
    the events [evs], [setSpeed(s)] and [seek(v)], all at wall time [0]. *)
Definition pausedAtTime (evs : list KakiatoEvent) (v s : Q) : Host :=
  match Rounded.setSpeed Double.round 1 s 0 (listeningHost evs) with
  | Normal w =>
      match Rounded.seek Double.round 1 v 0 w with
      | Normal w' => w'
      | _ => w
      end
  | _ => listeningHost evs
  end.

End RoundedSpec.
(* ------------------------------------------------------------------ *)
(** ** Properties of the state reconstructor *)

Module StateFacts.

Import Types State StateSpec.
Open Scope Z_scope.

(** *** Strings *)

Lemma append_empty_r (s : string) : (s ++ EmptyString)%string = s.
Proof. induction s as [|c s IH]; simpl; [reflexivity | now rewrite IH]. Qed.

Lemma substring_whole (s : string) :
  String.substring 0 (String.length s) s = s.
Proof. induction s as [|c s IH]; simpl; [reflexivity | now rewrite IH]. Qed.

Lemma substring_nothing (s : string) (n : nat) :
  String.substring n 0 s = EmptyString.
Proof.
  revert n; induction s as [|c s IH]; intros [|n]; simpl; auto.
Qed.

Lemma substring_to_past_end (s : string) (p : Z) :
  strlen s <= p -> JS.substring s 0 (Some p) = s.
Proof.
  unfold JS.substring, JS.nullish, strlen; intros Hp.
  set (len := Z.of_nat (String.length s)) in *.
  replace (Z.min (Z.min (Z.max 0 0) len) (Z.min (Z.max p 0) len)) with 0 by lia.
  replace (Z.max (Z.min (Z.max 0 0) len) (Z.min (Z.max p 0) len) - 0)
    with len by lia.
  subst len; rewrite Nat2Z.id; simpl Z.to_nat.
  apply substring_whole.
Qed.

Lemma substring_from_past_end (s : string) (p : Z) :
  strlen s <= p -> JS.substring s p None = EmptyString.
Proof.
  unfold JS.substring, JS.nullish, strlen; intros Hp.
  set (len := Z.of_nat (String.length s)) in *.
  replace (Z.max (Z.min (Z.max p 0) len) (Z.min (Z.max len 0) len)
           - Z.min (Z.min (Z.max p 0) len) (Z.min (Z.max len 0) len))
    with 0 by lia.
  apply substring_nothing.
Qed.

(** *** The setters commute with the projections *)

Lemma text_set_cursorPosition p s : text (set_cursorPosition p s) = text s.
Proof. reflexivity. Qed.

Lemma text_after_pos (base : KakiatoEventBase) (s : TextState) :
  text (match pos base with
        | Some p => set_cursorPosition p s
        | None => s
        end) = text s.
Proof. destruct (pos base); reflexivity. Qed.

(** *** The repository's own examples, run on the embedding *)

Example test_text_insertion :
  let state :=
    applyEvent
      (KakiatoInputEvent (mkBase 100 (Some 1)) input "insertText"
         (Some "h"%string) (Some "h"%string))
      (reset EmptyString) in
  text state = "h"%string /\ cursorPosition state = 1.
Proof. split; reflexivity. Qed.

Example test_full_replay :
  let state :=
    applyEvents
      [ KakiatoInputEvent (mkBase 0 (Some 1)) input "insertText"
          (Some "h"%string) (Some "h"%string);
        KakiatoInputEvent (mkBase 100 (Some 2)) input "insertText"
          (Some "i"%string) (Some "hi"%string) ]
      (reset EmptyString) in
  text state = "hi"%string /\ cursorPosition state = 2.
Proof. split; reflexivity. Qed.

Example test_composition :
  let s1 :=
    applyEvent (KakiatoCompositionEvent (mkBase 100 None) compositionstart
                  (Some "h"%string)) (reset EmptyString) in
  let s2 :=
    applyEvent (KakiatoCompositionEvent (mkBase 200 None) compositionupdate
                  (Some "he"%string)) s1 in
  let s3 :=
    applyEvent (KakiatoCompositionEvent (mkBase 300 None) compositionend
                  (Some "hello"%string)) s2 in
  (isComposing s1 = true /\ compositionText s1 = "h"%string)
  /\ (isComposing s2 = true /\ compositionText s2 = "he"%string)
  /\ (isComposing s3 = false /\ compositionText s3 = EmptyString)
  /\ text s3 = EmptyString.
Proof. repeat split. Qed.

Example test_backward_selection :
  let state :=
    applyEvent
      (KakiatoSelectionChangeEvent (mkBase 100 None)
         (mkSel 5 (Some backward)) (mkSel 0 (Some backward)))
      (reset "hello world") in
  selectionStart state = 0 /\ selectionEnd state = 5
  /\ cursorPosition state = 0.
Proof. repeat split. Qed.

Example test_keyboard_position :
  cursorPosition
    (applyEvent
       (KakiatoKeyboardEvent (mkBase 100 (Some 3)) keydown "ArrowRight"
          "ArrowRight")
       (reset "hello")) = 3.
Proof. reflexivity. Qed.

Example test_focus_blur :
  applyEvent (KakiatoFocusEvent (mkBase 200 None) blur)
    (applyEvent (KakiatoFocusEvent (mkBase 100 None) focus) (reset EmptyString))
  = reset EmptyString.
Proof. reflexivity. Qed.

(** Deltas inside the buffer: ["abc"] with ["X"] inserted at [1], one unit
    deleted before [2], one unit deleted after [1]. *)
Example delta_inside_buffer :
  text (applyEvent (deltaOnly (mkBase 0 (Some 1)) "insertText" "X")
          (reset "abc")) = "aXbc"%string
  /\ text (applyEvent (deltaOnly (mkBase 0 (Some 2)) "deleteContentBackward" EmptyString)
             (reset "abc")) = "ac"%string
  /\ text (applyEvent (deltaOnly (mkBase 0 (Some 1)) "deleteContentForward" EmptyString)
             (reset "abc")) = "ac"%string.
Proof. repeat split. Qed.

(** *** Input events *)

(** C7, as stated, fails.  Input events are of type [beforeinput] or
    [input]; a [beforeinput] event that carries the full-text payload ["xyz"]
    leaves the buffer ["abc"] as it is, where the same event of type [input]
    replaces it. *)
Lemma beforeinput_snapshot_is_ignored :
  text (applyEvent
          (KakiatoInputEvent (mkBase 0 None) beforeinput "insertText"
             (Some "x"%string) (Some "xyz"%string))
          (reset "abc"))
  = "abc"%string
  /\ text (applyEvent
             (KakiatoInputEvent (mkBase 0 None) beforeinput "insertText"
                (Some "x"%string) (Some "xyz"%string))
             (reset "abc"))
     <> "xyz"%string
  /\ text (applyEvent
             (KakiatoInputEvent (mkBase 0 None) input "insertText"
                (Some "x"%string) (Some "xyz"%string))
             (reset "abc"))
     = "xyz"%string.
Proof. repeat split; discriminate. Qed.

(** C7, amended.  An event of type [input] that carries a full-text
    payload replaces the buffer by that payload; the delta ([data],
    [inputType]) on the same event is not applied: the whole resulting state
    is the one the event yields without its delta, namely the old state with
    the new text and, when the event has a position, the new caret. *)
Theorem snapshot_takes_precedence
    (base : KakiatoEventBase) (inputType : string) (data : option string)
    (payload : string) (state : TextState) :
  let event := KakiatoInputEvent base input inputType data (Some payload) in
  text (applyEvent event state) = payload
  /\ applyEvent event state
     = applyEvent (KakiatoInputEvent base input inputType None (Some payload))
         state
  /\ applyEvent event state
     = match pos base with
       | Some p => set_cursorPosition p (set_text payload state)
       | None => set_text payload state
       end.
Proof.
  simpl; repeat split; destruct (pos base); reflexivity.
Qed.

(** C8.  A delta-only delete-backward whose effective position is [<= 0],
    and a delta-only delete-forward whose effective position is [>=] the
    length of the buffer, leave the buffer unchanged. *)
Theorem delete_at_boundary_keeps_buffer
    (base : KakiatoEventBase) (inputType data : string) (state : TextState) :
  (inputType = "deleteContentBackward"%string
     /\ effectivePos base state <= 0)
  \/ (inputType = "deleteContentForward"%string
     /\ strlen (text state) <= effectivePos base state) ->
  text (applyEvent (deltaOnly base inputType data) state) = text state.
Proof.
  unfold deltaOnly, effectivePos; simpl.
  intros [[-> Hpos] | [-> Hpos]]; rewrite text_after_pos;
    unfold applyDelta; simpl.
  - unfold deleteBackward.
    destruct (Z.leb_spec (JS.nullish (pos base) (cursorPosition state)) 0);
      [reflexivity | lia].
  - unfold deleteForward.
    destruct (Z.geb_spec (JS.nullish (pos base) (cursorPosition state))
                (strlen (text state))); [reflexivity | lia].
Qed.

Lemma delete_at_boundary_keeps_buffer_witness :
  (effectivePos (mkBase 10 (Some 0)) (reset "abc") <= 0
   /\ text (applyEvent
             (deltaOnly (mkBase 10 (Some 0)) "deleteContentBackward" "x")
             (reset "abc")) = "abc"%string)
  /\ (strlen (text (reset "abc"))
        <= effectivePos (mkBase 10 (Some 3)) (reset "abc")
      /\ text (applyEvent
                (deltaOnly (mkBase 10 (Some 3)) "deleteContentForward" "x")
                (reset "abc")) = "abc"%string).
Proof.
  split; split; try (vm_compute; discriminate).
  - apply (delete_at_boundary_keeps_buffer
             (mkBase 10 (Some 0)) "deleteContentBackward" "x" (reset "abc")).
    left; split; [reflexivity | vm_compute; discriminate].
  - apply (delete_at_boundary_keeps_buffer
             (mkBase 10 (Some 3)) "deleteContentForward" "x" (reset "abc")).
    right; split; [reflexivity | vm_compute; discriminate].
Defined.

(** C9.  An event of type [beforeinput] leaves the six fields of the state
    as they are, whatever delta or full-text payload it carries. *)
Theorem beforeinput_is_noop
    (base : KakiatoEventBase) (inputType : string)
    (data payload : option string) (state : TextState) :
  applyEvent (KakiatoInputEvent base beforeinput inputType data payload) state
  = state.
Proof. reflexivity. Qed.

(** C10.  A delta-only insertion whose effective position exceeds the
    length of the buffer appends the delta at the end of the buffer. *)
Theorem insert_past_end_appends
    (base : KakiatoEventBase) (inputType data : string) (state : TextState) :
  isInsert inputType ->
  strlen (text state) < effectivePos base state ->
  text (applyEvent (deltaOnly base inputType data) state)
  = (text state ++ data)%string.
Proof.
  unfold deltaOnly, effectivePos, isInsert; simpl.
  intros Hkind Hpos; rewrite text_after_pos.
  assert (Hins : applyDelta inputType
                   (JS.nullish (pos base) (cursorPosition state)) data state
                 = insertText (JS.nullish (pos base) (cursorPosition state))
                     data state)
    by (destruct Hkind as [-> | ->]; reflexivity).
  rewrite Hins; unfold insertText; simpl.
  rewrite substring_to_past_end, substring_from_past_end by lia.
  now rewrite append_empty_r.
Qed.

Lemma insert_past_end_appends_witness :
  isInsert "insertText"
  /\ strlen (text (reset "abc")) < effectivePos (mkBase 5 (Some 9)) (reset "abc")
  /\ text (applyEvent (deltaOnly (mkBase 5 (Some 9)) "insertText" "de")
             (reset "abc")) = "abcde"%string.
Proof.
  split; [left; reflexivity |].
  split; [vm_compute; reflexivity |].
  apply (insert_past_end_appends (mkBase 5 (Some 9)) "insertText" "de"
           (reset "abc")).
  - left; reflexivity.
  - vm_compute; reflexivity.
Defined.

(** *** Selection *)

(** C4, as stated, fails: an anchor of [-3] and a focus of [100] on the
    text ["abc"] are stored as they come. *)
Lemma selection_not_clamped :
  ~ selectionWithinText
      (applyEvent
         (KakiatoSelectionChangeEvent (mkBase 0 None)
            (mkSel (-3) None) (mkSel 100 None))
         (reset "abc")).
Proof.
  unfold selectionWithinText; vm_compute.
  intros [[H _] _]; apply H; reflexivity.
Qed.

(** C4, amended.  After a [selectionchange], [selectionStart] and
    [selectionEnd] are the minimum and the maximum of the anchor and focus
    indices, unclamped, and the text is untouched; so both lie within
    [0, length of the text] exactly when both indices of the event do. *)
Theorem selection_is_min_max_of_event
    (base : KakiatoEventBase) (a f : KakiatoSelectionPosition)
    (state : TextState) :
  let state' := applyEvent (KakiatoSelectionChangeEvent base a f) state in
  selectionStart state' = Z.min (index a) (index f)
  /\ selectionEnd state' = Z.max (index a) (index f)
  /\ text state' = text state
  /\ (selectionWithinText state' <->
      (0 <= index a <= strlen (text state))
      /\ (0 <= index f <= strlen (text state))).
Proof.
  simpl; repeat split; unfold selectionWithinText in *; simpl in *; lia.
Qed.

End StateFacts.

(* ------------------------------------------------------------------ *)
(** ** Properties of the playback engine *)

Module EngineFacts.

Import Types Engine EngineSpec.
Open Scope Q_scope.

(** *** The repository's own tests, run on the embedding *)

Example test_initialization :
  getSpeed (constructor (Some 1) None) == 1
  /\ getIsPlaying (constructor (Some 1) None) = false
  /\ getCurrentIndex (constructor (Some 1) None) = 0%nat
  /\ getSpeed (constructor (Some 2) None) == 2.
Proof. repeat split. Qed.

Example test_duration :
  getDuration (constructor None None) == 0
  /\ getDuration (listeningHost mockEvents) == 400.
Proof. split; reflexivity. Qed.

Example test_play_pause :
  getIsPlaying (started (listeningHost mockEvents)) = true
  /\ getIsPlaying (pause 0 (started (listeningHost mockEvents))) = false
  /\ play 2 0 (constructor None None) = Normal (constructor None None).
Proof. repeat split. Qed.

(** Played from wall time [0] with the host running every timeout when it is
    due, the listener receives the five events in order and the engine
    finishes. *)
Example test_event_emission :
  exists w,
    advance 2 [0; 100; 200; 300; 400; 1000] (started (listeningHost mockEvents))
    = Normal w
    /\ received 7 (trace w) = map Some mockEvents
    /\ getIsPlaying w = false
    /\ getCurrentIndex w = 5%nat.
Proof. eexists; split; [vm_compute; reflexivity | repeat split]. Qed.

Example test_stop :
  exists w,
    advance 2 [0; 100; 200] (started (listeningHost mockEvents)) = Normal w
    /\ getCurrentIndex w = 3%nat
    /\ getIsPlaying (stop 200 w) = false
    /\ getCurrentIndex (stop 200 w) = 0%nat.
Proof. eexists; split; [vm_compute; reflexivity | repeat split]. Qed.

Example test_seek_while_playing :
  exists w w',
    advance 2 [0; 100] (started (listeningHost mockEvents)) = Normal w
    /\ seek 2 200 100 w = Normal w'
    /\ getIsPlaying w' = true
    /\ getCurrentTime 100 w' == 200.
Proof.
  do 2 eexists; split; [vm_compute; reflexivity |].
  split; [vm_compute; reflexivity |].
  split; vm_compute; reflexivity.
Qed.

Example test_paused_time :
  exists w,
    advance 2 [0; 100] (started (listeningHost mockEvents)) = Normal w
    /\ getCurrentTime 100 (pause 100 w) == 100
    /\ getCurrentTime 200 (pause 100 w) == 100.
Proof.
  eexists; split; [vm_compute; reflexivity |].
  split; vm_compute; reflexivity.
Qed.

Example test_remove_handler :
  exists w,
    advance 2 [0; 100; 200; 300; 400]
      (started (offEvent 7 (listeningHost mockEvents))) = Normal w
    /\ trace w = [].
Proof. eexists; split; [vm_compute; reflexivity | reflexivity]. Qed.

(** *** Speed *)

(** C6.  [setSpeed(s)] with [s <= 0] throws, and the host it throws from
    is the host it was called on: the engine (speed, index, virtual time,
    playing flag, timer handle), the pending timeouts and the trace are
    all untouched. *)
Theorem setSpeed_rejects_nonpositive
    (fuel : nat) (s now : Q) (w : Host) :
  s <= 0 ->
  setSpeed fuel s now w = Throw "Speed must be positive" w.
Proof.
  intros Hs; unfold setSpeed.
  now rewrite (proj2 (Qle_bool_iff s 0) Hs).
Qed.

Lemma setSpeed_rejects_nonpositive_witness :
  -(1) <= 0
  /\ getIsPlaying (started (listeningHost [at_ 0; at_ 100])) = true
  /\ setSpeed 2 (-(1)) 30 (started (listeningHost [at_ 0; at_ 100]))
     = Throw "Speed must be positive" (started (listeningHost [at_ 0; at_ 100])).
Proof.
  split; [vm_compute; discriminate |].
  split; [reflexivity |].
  apply (setSpeed_rejects_nonpositive 2 (-(1)) 30
           (started (listeningHost [at_ 0; at_ 100]))).
  vm_compute; discriminate.
Defined.

(** *** Scheduling *)

(** [scheduleNextEvent] returns, and normally, as soon as an event is
    loaded: it calls itself at most once, to wrap around. *)
Lemma scheduleNextEvent_returns (fuel : nat) (now : Q) (w : Host) :
  events (engine w) <> [] ->
  (2 <= fuel)%nat ->
  exists w', scheduleNextEvent fuel now w = Normal w'.
Proof.
  intros Hevs Hfuel.
  destruct fuel as [|[|fuel]]; try lia.
  destruct w as [[evs i playing s l tid st pa hs] p n tr]; simpl in *.
  destruct playing; simpl; [| eexists; reflexivity].
  destruct (Nat.leb_spec (List.length evs) i) as [Hi | Hi].
  - destruct l; [| eexists; reflexivity].
    destruct evs as [|e evs]; [contradiction |]; simpl.
    eexists; reflexivity.
  - destruct (nth_error evs i) eqn:Hnth; [eexists; reflexivity |].
    apply nth_error_None in Hnth; lia.
Qed.

(** On a looping engine that is playing with no event loaded the method
    never stops calling itself. *)
Lemma scheduleNextEvent_unbounded (fuel : nat) (now : Q) (w : Host) :
  events (engine w) = [] ->
  loop (engine w) = true ->
  isPlaying (engine w) = true ->
  scheduleNextEvent fuel now w = CallStackExhausted.
Proof.
  revert w; induction fuel as [|fuel IH]; intros w Hevs Hloop Hplaying;
    [reflexivity |].
  simpl; rewrite Hplaying, Hevs, Hloop; simpl.
  apply IH; simpl; assumption.
Qed.

(** [play()] always returns: it does not schedule anything when no event
    is loaded. *)
Lemma play_returns (fuel : nat) (now : Q) (w : Host) :
  (2 <= fuel)%nat -> exists w', play fuel now w = Normal w'.
Proof.
  intros Hfuel; unfold play.
  destruct (isPlaying (engine w)); [eexists; reflexivity |].
  destruct (Nat.eqb_spec (List.length (events (engine w))) 0) as [Hlen | Hlen];
    [eexists; reflexivity |].
  apply scheduleNextEvent_returns; [| exact Hfuel].
  simpl; intros Hnil; rewrite Hnil in Hlen; simpl in Hlen; lia.
Qed.

(** *** Pause and resume *)

Lemma pause_not_playing (now : Q) (w : Host) :
  isPlaying (engine (pause now w)) = false.
Proof.
  unfold pause; destruct w as [[evs i playing s l tid st pa hs] p n tr];
    simpl; destruct playing; simpl; [destruct tid |]; reflexivity.
Qed.

Lemma pause_frame (now : Q) (w : Host) :
  events (engine (pause now w)) = events (engine w)
  /\ currentIndex (engine (pause now w)) = currentIndex (engine w)
  /\ loop (engine (pause now w)) = loop (engine w)
  /\ speed (engine (pause now w)) = speed (engine w)
  /\ onEventHandlers (engine (pause now w)) = onEventHandlers (engine w)
  /\ trace (pause now w) = trace w.
Proof.
  unfold pause; destruct w as [[evs i playing s l tid st pa hs] p n tr];
    simpl; destruct playing; simpl; [destruct tid |]; simpl; repeat split.
Qed.

(** Pausing freezes the virtual time the engine had reached. *)
Lemma pause_freezes_time (now : Q) (w : Host) :
  getCurrentTime now (pause now w) == getCurrentTime now w.
Proof.
  unfold getCurrentTime, pause;
    destruct w as [[evs i playing s l tid st pa hs] p n tr];
    simpl; destruct playing; simpl; [destruct tid |]; simpl; reflexivity.
Qed.

Lemma atEndOfLoop_pause (now : Q) (w : Host) :
  atEndOfLoop (pause now w) = atEndOfLoop w.
Proof.
  unfold atEndOfLoop.
  destruct (pause_frame now w) as (-> & -> & -> & _); reflexivity.
Qed.

Lemma resume_offset (t P S : Q) : 0 < S -> (t - (t - P / S)) * S == P.
Proof.
  intros HS; field.
  intros H0; rewrite H0 in HS; now apply (Qlt_irrefl 0).
Qed.

(** [play()] on a paused engine, away from the wrap-around of a loop:
    it returns, and the clock reads the frozen virtual time. *)
Lemma play_from_paused (fuel : nat) (t : Q) (w : Host) :
  (1 <= fuel)%nat ->
  isPlaying (engine w) = false ->
  0 < speed (engine w) ->
  atEndOfLoop w = false ->
  exists w', play fuel t w = Normal w'
             /\ getCurrentTime t w' == pausedAt (engine w).
Proof.
  intros Hfuel Hpaused Hspeed Hend.
  destruct fuel as [|fuel]; [lia |].
  unfold play, atEndOfLoop in *; rewrite Hpaused.
  destruct w as [[evs i playing s l tid st pa hs] p n tr]; simpl in *.
  destruct (Nat.eqb_spec (List.length evs) 0) as [Hlen | Hlen].
  - eexists; split; [reflexivity |].
    unfold getCurrentTime; simpl; rewrite Hpaused; reflexivity.
  - destruct (Nat.leb_spec (List.length evs) i) as [Hi | Hi].
    + rewrite andb_true_r in Hend; subst l.
      eexists; split; [reflexivity |].
      unfold getCurrentTime; simpl; reflexivity.
    + destruct (nth_error evs i) as [event |] eqn:Hnth.
      * eexists; split; [reflexivity |].
        unfold getCurrentTime; simpl. now apply resume_offset.
      * apply nth_error_None in Hnth; lia.
Qed.

(** [play()] on a paused looping engine that has delivered its whole
    sequence: the loop restarts, index and virtual time are back at the
    start. *)
Lemma play_at_end_of_loop (fuel : nat) (t : Q) (w : Host) :
  (2 <= fuel)%nat ->
  isPlaying (engine w) = false ->
  events (engine w) <> [] ->
  atEndOfLoop w = true ->
  exists w', play fuel t w = Normal w'
             /\ getCurrentTime t w' == 0
             /\ getCurrentIndex w' = 0%nat
             /\ getIsPlaying w' = true.
Proof.
  intros Hfuel Hpaused Hevs Hend.
  destruct fuel as [|[|fuel]]; try lia.
  unfold play, atEndOfLoop in *; rewrite Hpaused.
  destruct w as [[evs i playing s l tid st pa hs] p n tr]; simpl in *.
  apply andb_true_iff in Hend as [-> Hi].
  destruct evs as [|e evs]; [contradiction |]; simpl in *.
  rewrite Hi; simpl.
  eexists; split; [reflexivity |].
  unfold getCurrentTime, getCurrentIndex, getIsPlaying; simpl.
  repeat split; ring.
Qed.

(** The wrap-around of a loop.  A looping engine with one event and a
    subscriber that pauses it during the delivery: started at wall time
    [0], the event is delivered at wall time [50] and the engine is left
    paused at virtual time [50] with nothing more to deliver; [play()] at
    wall time [60] wraps around and the clock reads [0], not [50]. *)
Lemma resume_at_end_of_loop_restarts :
  exists w1 w2 w3,
    play 2 0 loopingHost = Normal w1
    /\ fire 2 1 50 w1 = Normal w2
    /\ getIsPlaying w2 = false
    /\ getCurrentTime 50 w2 == 50
    /\ 0 < getSpeed w2
    /\ play 2 60 w2 = Normal w3
    /\ ~ getCurrentTime 60 w3 == getCurrentTime 50 w2
    /\ getCurrentTime 60 w3 == 0.
Proof.
  do 3 eexists.
  split; [reflexivity |].
  split; [vm_compute; reflexivity |].
  repeat split; vm_compute; congruence.
Qed.

(** In exact arithmetic the round trip is exact.  Pause at any wall time,
    wait [d], resume: unless the engine loops and has delivered its whole
    sequence, [play()] returns and the clock then reads exactly the virtual
    time at which the engine was paused, for every positive speed.  What
    the rounding of the host makes of this is
    [pause_resume_restores_time_up_to_rounding]. *)
Theorem pause_resume_restores_time
    (fuel : nat) (now d : Q) (w : Host) :
  (1 <= fuel)%nat ->
  0 < getSpeed w ->
  0 < d ->
  atEndOfLoop w = false ->
  exists w',
    play fuel (now + d) (pause now w) = Normal w'
    /\ getCurrentTime (now + d) w' == getCurrentTime now (pause now w).
Proof.
  intros Hfuel Hspeed _ Hend.
  destruct (play_from_paused fuel (now + d) (pause now w)) as (w' & Hplay & Ht).
  - exact Hfuel.
  - apply pause_not_playing.
  - destruct (pause_frame now w) as (_ & _ & _ & -> & _); exact Hspeed.
  - now rewrite atEndOfLoop_pause.
  - exists w'; split; [exact Hplay |].
    rewrite Ht; unfold getCurrentTime.
    rewrite pause_not_playing; reflexivity.
Qed.

Lemma pause_resume_restores_time_witness :
  (1 <= 2)%nat
  /\ 0 < getSpeed (started (listeningHost [at_ 0; at_ 100]))
  /\ 0 < 10
  /\ atEndOfLoop (started (listeningHost [at_ 0; at_ 100])) = false
  /\ exists w',
       play 2 (30 + 10) (pause 30 (started (listeningHost [at_ 0; at_ 100])))
       = Normal w'
       /\ getCurrentTime (30 + 10) w'
          == getCurrentTime 30
               (pause 30 (started (listeningHost [at_ 0; at_ 100]))).
Proof.
  split; [lia |].
  split; [reflexivity |].
  split; [reflexivity |].
  split; [reflexivity |].
  apply (pause_resume_restores_time 2 30 10
           (started (listeningHost [at_ 0; at_ 100]))).
  - lia.
  - reflexivity.
  - reflexivity.
  - reflexivity.
Defined.

(** *** Loading *)

(** What [loadEvents] does on every host: the index and the frozen
    virtual time are reset, the playing flag and the pending timeouts are
    left as they are.  On an engine that is not playing this is the idle
    state. *)
Lemma loadEvents_resets (evs : list KakiatoEvent) (now : Q) (w : Host) :
  events (engine (loadEvents evs w)) = evs
  /\ getCurrentIndex (loadEvents evs w) = 0%nat
  /\ pausedAt (engine (loadEvents evs w)) = 0
  /\ getIsPlaying (loadEvents evs w) = getIsPlaying w
  /\ pending (loadEvents evs w) = pending w
  /\ (getIsPlaying w = false -> getCurrentTime now (loadEvents evs w) = 0).
Proof.
  unfold loadEvents, getCurrentIndex, getIsPlaying, getCurrentTime; simpl.
  repeat split. intros ->; reflexivity.
Qed.

(** The sibling [stop()] pauses before it resets: it always ends idle. *)
Lemma stop_resets (now later : Q) (w : Host) :
  getIsPlaying (stop now w) = false
  /\ getCurrentIndex (stop now w) = 0%nat
  /\ getCurrentTime later (stop now w) = 0.
Proof.
  unfold stop, getIsPlaying, getCurrentIndex, getCurrentTime; simpl.
  rewrite pause_not_playing; repeat split.
Qed.

(** C2 at a failing input.  The engine plays [at_ 0; at_ 100] from wall time
    [0]; [loadEvents([at_ 7])] is called at wall time [10], before the
    host has run the first timeout.  The engine is still playing, its clock
    reads [10], the timeout is still pending, and when the host runs it the
    listener receives [at_ 0], an event of the sequence that was replaced. *)
Theorem loadEvents_while_playing_stays_playing :
  let before := started (listeningHost [at_ 0; at_ 100]) in
  let after := loadEvents [at_ 7] before in
  getIsPlaying after = true
  /\ getCurrentIndex after = 0%nat
  /\ getCurrentTime 10 after == 10
  /\ pending after = [mkTimeout 1 0 (Some (at_ 0))]
  /\ trace after = []
  /\ exists final,
       fire 2 1 10 after = Normal final
       /\ trace final = [mkDelivery 7 (Some (at_ 0)) 0].
Proof.
  repeat split; try reflexivity.
  eexists; split; vm_compute; reflexivity.
Qed.

(** *** Delivery to the subscribers *)

Lemma indexOf_splice1 (id : HandlerId) (l : list PlaybackEventHandler) :
  match indexOf id l with
  | Some index => splice1 index l
  | None => l
  end = withoutFirst id l.
Proof.
  induction l as [|h l IH]; simpl; [reflexivity |].
  destruct (Nat.eqb (hid h) id); simpl; [reflexivity |].
  destruct (indexOf id l); simpl in *; f_equal; exact IH.
Qed.

(** [offEvent] takes the first entry with that identity out of the array
    and touches nothing else. *)
Lemma offEvent_eq (id : HandlerId) (w : Host) :
  offEvent id w
  = this (fun e => set_onEventHandlers e (withoutFirst id (onEventHandlers e))) w.
Proof.
  unfold offEvent, this.
  pose proof (indexOf_splice1 id (onEventHandlers (engine w))) as H.
  destruct (indexOf id (onEventHandlers (engine w))); simpl in *;
    rewrite <- H; [reflexivity |].
  destruct w as [[evs i playing s l tid st pa hs] p n tr]; reflexivity.
Qed.

Lemma withoutFirst_length (id : HandlerId) (l : list PlaybackEventHandler) :
  (List.length (withoutFirst id l) <= List.length l)%nat.
Proof.
  induction l as [|h l IH]; simpl; [lia |].
  destruct (Nat.eqb (hid h) id); simpl; lia.
Qed.

Lemma withoutFirst_absent (id : HandlerId) (l : list PlaybackEventHandler) :
  ~ In id (map hid l) -> withoutFirst id l = l.
Proof.
  induction l as [|h l IH]; simpl; intros Hin; [reflexivity |].
  destruct (Nat.eqb_spec (hid h) id) as [Heq | Hne]; [tauto |].
  rewrite IH; tauto.
Qed.

Lemma withoutFirst_later (id : HandlerId) (pre l : list PlaybackEventHandler) :
  ~ In id (map hid pre) -> withoutFirst id (pre ++ l) = pre ++ withoutFirst id l.
Proof.
  induction pre as [|h pre IH]; simpl; intros Hin; [reflexivity |].
  destruct (Nat.eqb_spec (hid h) id) as [Heq | Hne]; [tauto |].
  rewrite IH; tauto.
Qed.

Lemma withoutFirst_earlier (id : HandlerId) (pre l : list PlaybackEventHandler) :
  In id (map hid pre) ->
  withoutFirst id (pre ++ l) = withoutFirst id pre ++ l
  /\ S (List.length (withoutFirst id pre)) = List.length pre.
Proof.
  induction pre as [|h pre IH]; simpl; intros Hin; [contradiction |].
  destruct (Nat.eqb_spec (hid h) id) as [Heq | Hne]; [split; reflexivity |].
  destruct IH as [IH1 IH2]; [tauto |].
  simpl; rewrite IH1, IH2; split; reflexivity.
Qed.

Lemma pause_handlers (now : Q) (w : Host) :
  onEventHandlers (engine (pause now w)) = onEventHandlers (engine w).
Proof. apply (pause_frame now w). Qed.

Lemma runCall_handlers_length (now : Q) (w : Host) (c : Call) :
  (List.length (onEventHandlers (engine (runCall now w c)))
   <= List.length (onEventHandlers (engine w)))%nat.
Proof.
  destruct c as [target |]; simpl.
  - rewrite offEvent_eq; simpl; apply withoutFirst_length.
  - rewrite pause_handlers; lia.
Qed.

Lemma invoke_handlers_length handler event index now w :
  (List.length (onEventHandlers (engine (invoke handler event index now w)))
   <= List.length (onEventHandlers (engine w)))%nat.
Proof.
  unfold invoke.
  change (onEventHandlers (engine w))
    with (onEventHandlers (engine (record (mkDelivery (hid handler) event index) w))).
  generalize (record (mkDelivery (hid handler) event index) w) as w0.
  induction (body handler) as [|c cs IH]; intros w0; simpl; [lia |].
  etransitivity; [apply IH | apply runCall_handlers_length].
Qed.

(** The iteration of [emitEvent] ends: once the position has run past the
    end of the array the number of steps allowed no longer matters, and no
    callback lengthens the array. *)
Lemma emitFrom_enough (steps steps' i : nat) event index now (w : Host) :
  (List.length (onEventHandlers (engine w)) - i <= steps)%nat ->
  (List.length (onEventHandlers (engine w)) - i <= steps')%nat ->
  emitFrom steps i event index now w = emitFrom steps' i event index now w.
Proof.
  revert steps' i w; induction steps as [|steps IH]; intros steps' i w H H'.
  - assert (Hnone : nth_error (onEventHandlers (engine w)) i = None)
      by (apply nth_error_None; lia).
    destruct steps'; simpl; [reflexivity | now rewrite Hnone].
  - simpl. destruct (nth_error (onEventHandlers (engine w)) i) as [h |] eqn:Hnth.
    + assert (Hlt : (i < List.length (onEventHandlers (engine w)))%nat)
        by (apply nth_error_Some; congruence).
      destruct steps' as [|steps']; [lia |]; simpl; rewrite Hnth.
      pose proof (invoke_handlers_length h event index now w).
      apply IH; lia.
    + destruct steps'; simpl; [reflexivity | now rewrite Hnth].
Qed.

Lemma emitEvent_enough (steps : nat) event index now (w : Host) :
  (List.length (onEventHandlers (engine w)) <= steps)%nat ->
  emitEvent event index now w = emitFrom steps 0 event index now w.
Proof. intros H; unfold emitEvent; apply emitFrom_enough; lia. Qed.

Lemma traced_nil (w : Host) : traced [] w = w.
Proof. destruct w; unfold traced; simpl; now rewrite app_nil_r. Qed.

Lemma traced_traced (a b : list Delivery) (w : Host) :
  traced b (traced a w) = traced (a ++ b) w.
Proof. unfold traced; simpl; now rewrite app_assoc. Qed.

(** Walking over a stretch [mid] of inert handlers delivers to each of
    them and moves the position to the end of the stretch. *)
Lemma emitFrom_walk (mid : list PlaybackEventHandler) :
  forall (done rest : list PlaybackEventHandler) (steps : nat)
         event index now (w : Host),
    onEventHandlers (engine w) = done ++ mid ++ rest ->
    Forall inert mid ->
    emitFrom (List.length mid + steps) (List.length done) event index now w
    = emitFrom steps (List.length done + List.length mid) event index now
        (traced (deliveries mid event index) w).
Proof.
  induction mid as [|h mid IH]; intros done rest steps event index now w Hhs Hinert.
  - simpl; now rewrite traced_nil, Nat.add_0_r.
  - inversion Hinert as [|? ? Hh Hmid]; subst.
    simpl. rewrite Hhs, nth_error_app2, Nat.sub_diag by lia; simpl.
    unfold invoke; rewrite Hh; simpl.
    change (record (mkDelivery (hid h) event index) w)
      with (traced [mkDelivery (hid h) event index] w).
    replace (S (List.length done)) with (List.length (done ++ [h]))
      by (rewrite length_app; simpl; lia).
    rewrite (IH (done ++ [h]) rest); auto.
    + rewrite traced_traced, length_app; simpl.
      now replace (List.length done + 1 + List.length mid)%nat
        with (List.length done + S (List.length mid))%nat by lia.
    + simpl; rewrite Hhs, <- app_assoc; reflexivity.
Qed.

(** With plain consumers only, [emitEvent] hands the event to every
    handler, once, in registration order, and changes nothing else. *)
Lemma emitEvent_inert event index now (w : Host) :
  Forall inert (onEventHandlers (engine w)) ->
  emitEvent event index now w
  = traced (deliveries (onEventHandlers (engine w)) event index) w.
Proof.
  intros Hinert; unfold emitEvent.
  pose proof (emitFrom_walk (onEventHandlers (engine w)) [] [] 0
                event index now w) as H.
  simpl in H; rewrite Nat.add_0_r in H; rewrite H; auto.
  now rewrite app_nil_r.
Qed.

Lemma emitFrom_step (steps i : nat) handler event index now (w : Host) :
  nth_error (onEventHandlers (engine w)) i = Some handler ->
  emitFrom (S steps) i event index now w
  = emitFrom steps (S i) event index now (invoke handler event index now w).
Proof. intros H; simpl; now rewrite H. Qed.

Lemma emitFrom_done (steps i : nat) event index now (w : Host) :
  (List.length (onEventHandlers (engine w)) <= i)%nat ->
  emitFrom steps i event index now w = w.
Proof.
  intros H; apply nth_error_None in H.
  destruct steps; simpl; [reflexivity | now rewrite H].
Qed.

(** A callback whose body is the single call [offEvent(target)]. *)
Lemma invoke_offEvent handler target event index now (w : Host) :
  body handler = [CallOffEvent target] ->
  invoke handler event index now w
  = this (fun e => set_onEventHandlers e (withoutFirst target (onEventHandlers e)))
      (traced [mkDelivery (hid handler) event index] w).
Proof.
  intros Hbody; unfold invoke; rewrite Hbody; simpl.
  now rewrite offEvent_eq.
Qed.

Lemma deliveries_app (l l' : list PlaybackEventHandler) event index :
  deliveries (l ++ l') event index
  = deliveries l event index ++ deliveries l' event index.
Proof. apply map_app. Qed.

(** A handler that removes one registered after it: the removed handler is
    not reached, every other one is called in order. *)
Lemma emitEvent_remove_later
    (pre p1 p2 : list PlaybackEventHandler) (a b : PlaybackEventHandler)
    event index now (w : Host) :
  onEventHandlers (engine w) = pre ++ a :: p1 ++ b :: p2 ->
  body a = [CallOffEvent (hid b)] ->
  Forall inert pre -> Forall inert p1 -> Forall inert p2 ->
  ~ In (hid b) (map hid (pre ++ a :: p1)) ->
  emitEvent event index now w
  = this (fun e => set_onEventHandlers e (pre ++ a :: p1 ++ p2))
      (traced (deliveries (pre ++ a :: p1 ++ p2) event index) w).
Proof.
  intros Hhs Hbody Hpre Hp1 Hp2 Hfresh.
  rewrite (emitEvent_enough
             (List.length pre + S (List.length (p1 ++ p2) + 1))).
  2:{ rewrite Hhs; repeat (rewrite length_app; simpl); lia. }
  pose proof (emitFrom_walk pre [] (a :: p1 ++ b :: p2)
                (S (List.length (p1 ++ p2) + 1)) event index now w Hhs Hpre)
    as Hwalk.
  cbn [List.length Nat.add app] in Hwalk; rewrite Hwalk; clear Hwalk.
  rewrite (emitFrom_step _ _ a).
  2:{ simpl; rewrite Hhs, nth_error_app2, Nat.sub_diag by lia; reflexivity. }
  rewrite (invoke_offEvent a (hid b)) by exact Hbody.
  remember (this _ _) as w2 eqn:Hw2.
  assert (Hhs2 : onEventHandlers (engine w2) = (pre ++ [a]) ++ (p1 ++ p2) ++ []).
  { rewrite Hw2; simpl; rewrite Hhs.
    replace (pre ++ a :: p1 ++ b :: p2) with ((pre ++ a :: p1) ++ b :: p2)
      by (rewrite <- app_assoc; reflexivity).
    rewrite withoutFirst_later by exact Hfresh.
    simpl; rewrite Nat.eqb_refl, app_nil_r, <- !app_assoc; reflexivity. }
  replace (S (List.length pre)) with (List.length (pre ++ [a]))
    by (rewrite length_app; simpl; lia).
  rewrite (emitFrom_walk (p1 ++ p2) (pre ++ [a]) [] 1 event index now w2 Hhs2)
    by (apply Forall_app; split; assumption).
  rewrite emitFrom_done.
  2:{ simpl; rewrite Hhs2, app_nil_r, !length_app; simpl; lia. }
  subst w2; destruct w as [e p n tr]; unfold this, traced; simpl in *.
  rewrite Hhs.
  replace (pre ++ a :: p1 ++ b :: p2) with ((pre ++ a :: p1) ++ b :: p2)
    by (rewrite <- app_assoc; reflexivity).
  rewrite withoutFirst_later by exact Hfresh.
  simpl; rewrite Nat.eqb_refl.
  f_equal.
  - f_equal; rewrite <- app_assoc; reflexivity.
  - rewrite <- !app_assoc; f_equal.
    replace (pre ++ a :: p1 ++ p2) with (pre ++ [a] ++ p1 ++ p2) by reflexivity.
    rewrite !deliveries_app; reflexivity.
Qed.

(** A handler that removes itself, or one registered before it: every
    later entry moves one place down while the iterator moves one place up,
    so the handler [x] that followed the caller is passed over, whether or not it is
    still registered. *)
Lemma emitEvent_remove_earlier
    (pre post : list PlaybackEventHandler) (a x : PlaybackEventHandler)
    (target : HandlerId) event index now (w : Host) :
  onEventHandlers (engine w) = pre ++ a :: x :: post ->
  body a = [CallOffEvent target] ->
  Forall inert pre -> Forall inert post ->
  In target (map hid (pre ++ [a])) ->
  emitEvent event index now w
  = this (fun e => set_onEventHandlers e
                     (withoutFirst target (pre ++ [a]) ++ x :: post))
      (traced (deliveries (pre ++ a :: post) event index) w).
Proof.
  intros Hhs Hbody Hpre Hpost Hin.
  rewrite (emitEvent_enough (List.length pre + S (List.length post + 1))).
  2:{ rewrite Hhs; repeat (rewrite length_app; simpl); lia. }
  pose proof (emitFrom_walk pre [] (a :: x :: post)
                (S (List.length post + 1)) event index now w Hhs Hpre)
    as Hwalk.
  cbn [List.length Nat.add app] in Hwalk; rewrite Hwalk; clear Hwalk.
  rewrite (emitFrom_step _ _ a).
  2:{ simpl; rewrite Hhs, nth_error_app2, Nat.sub_diag by lia; reflexivity. }
  rewrite (invoke_offEvent a target) by exact Hbody.
  remember (this _ _) as w2 eqn:Hw2.
  destruct (withoutFirst_earlier target (pre ++ [a]) (x :: post) Hin)
    as [Hsplit Hlen].
  rewrite length_app in Hlen; simpl in Hlen.
  assert (Hhs2 : onEventHandlers (engine w2)
                 = (withoutFirst target (pre ++ [a]) ++ [x]) ++ post ++ []).
  { rewrite Hw2; simpl; rewrite Hhs.
    replace (pre ++ a :: x :: post) with ((pre ++ [a]) ++ x :: post)
      by (rewrite <- app_assoc; reflexivity).
    rewrite Hsplit, app_nil_r, <- app_assoc; reflexivity. }
  replace (S (List.length pre))
    with (List.length (withoutFirst target (pre ++ [a]) ++ [x]))
    by (rewrite length_app; simpl; lia).
  rewrite (emitFrom_walk post _ [] 1 event index now w2 Hhs2) by assumption.
  rewrite emitFrom_done.
  2:{ simpl; rewrite Hhs2, app_nil_r, !length_app; simpl; lia. }
  subst w2; destruct w as [e p n tr]; unfold this, traced; simpl in *.
  rewrite Hhs.
  replace (pre ++ a :: x :: post) with ((pre ++ [a]) ++ x :: post)
    by (rewrite <- app_assoc; reflexivity).
  rewrite Hsplit.
  f_equal.
  rewrite <- !app_assoc; f_equal.
  replace (pre ++ a :: post) with (pre ++ [a] ++ post) by reflexivity.
  rewrite !deliveries_app; reflexivity.
Qed.

Lemma invocations_app (id : HandlerId) (a b : list Delivery) :
  invocations id (a ++ b) = (invocations id a + invocations id b)%nat.
Proof. unfold invocations; now rewrite filter_app, length_app. Qed.

Lemma invocations_absent (id : HandlerId) (l : list PlaybackEventHandler)
    event index :
  ~ In id (map hid l) -> invocations id (deliveries l event index) = 0%nat.
Proof.
  unfold invocations, deliveries.
  induction l as [|h l IH]; simpl; intros Hin; [reflexivity |].
  destruct (Nat.eqb_spec (hid h) id) as [Heq | Hne]; [tauto |].
  apply IH; tauto.
Qed.

Lemma invocations_once (h : PlaybackEventHandler)
    (l : list PlaybackEventHandler) event index :
  NoDup (map hid l) -> In h l ->
  invocations (hid h) (deliveries l event index) = 1%nat.
Proof.
  induction l as [|h0 l IH]; intros Hnd Hin; [contradiction |].
  simpl in Hnd, Hin.
  inversion Hnd as [|? ? Hfresh Hnd']; subst.
  change (deliveries (h0 :: l) event index)
    with ([mkDelivery (hid h0) event index] ++ deliveries l event index).
  rewrite invocations_app.
  destruct Hin as [-> | Hin].
  - rewrite (invocations_absent (hid h) l) by exact Hfresh.
    unfold invocations; simpl; now rewrite Nat.eqb_refl.
  - rewrite IH by assumption.
    unfold invocations; simpl.
    destruct (Nat.eqb_spec (hid h0) (hid h)) as [Heq | Hne]; [| reflexivity].
    exfalso; apply Hfresh; rewrite Heq; now apply in_map.
Qed.

(** When the handler that is removed during a delivery comes after the
    one that removes it, every other handler registered when the delivery
    began is invoked exactly once, and the removed one not at all. *)
Lemma removing_later_handler_keeps_delivery
    (pre p1 p2 : list PlaybackEventHandler) (a b : PlaybackEventHandler)
    event index now (w : Host) :
  onEventHandlers (engine w) = pre ++ a :: p1 ++ b :: p2 ->
  NoDup (map hid (onEventHandlers (engine w))) ->
  body a = [CallOffEvent (hid b)] ->
  Forall inert pre -> Forall inert p1 -> Forall inert p2 ->
  exists extra,
    trace (emitEvent event index now w) = trace w ++ extra
    /\ (forall h, In h (onEventHandlers (engine w)) -> hid h <> hid b ->
                  invocations (hid h) extra = 1%nat)
    /\ invocations (hid b) extra = 0%nat.
Proof.
  intros Hhs Hnd Hbody Hpre Hp1 Hp2.
  rewrite Hhs in Hnd.
  replace (pre ++ a :: p1 ++ b :: p2) with ((pre ++ a :: p1) ++ b :: p2) in Hnd
    by (rewrite <- app_assoc; reflexivity).
  rewrite map_app in Hnd; simpl in Hnd.
  pose proof (NoDup_remove_1 _ _ _ Hnd) as Hnd'.
  pose proof (NoDup_remove_2 _ _ _ Hnd) as Hfresh.
  rewrite <- map_app, <- app_assoc in Hnd', Hfresh; simpl in Hnd', Hfresh.
  exists (deliveries (pre ++ a :: p1 ++ p2) event index).
  rewrite (emitEvent_remove_later pre p1 p2 a b); auto.
  2:{ intros Hin; apply Hfresh; rewrite map_app in *; simpl in *.
      rewrite map_app; apply in_app_iff in Hin as [Hin | [Hin | Hin]];
        apply in_app_iff; simpl; rewrite in_app_iff; tauto. }
  split; [reflexivity |]; split.
  - intros h Hin Hne; apply invocations_once; [exact Hnd' |].
    rewrite Hhs in Hin.
    apply in_app_iff in Hin as [Hin | [<- | Hin]];
      [apply in_app_iff; tauto | apply in_app_iff; simpl; tauto |].
    apply in_app_iff in Hin as [Hin | [<- | Hin]];
      [| congruence |]; apply in_app_iff; simpl; rewrite in_app_iff; tauto.
  - now apply invocations_absent.
Qed.

(** C3 at a failing input.  Two handlers are registered, [selfRemoving]
    and then the plain listener [2].  While the event is delivered the
    first one calls [offEvent] on itself: nothing is thrown, but the
    delivery ends there.  The listener, registered before, during and after
    the delivery, is not invoked. *)
Theorem emitEvent_skips_after_self_removal :
  let after := emitEvent (Some (at_ 0)) 0 0 twoHandlers in
  onEventHandlers (engine twoHandlers) = [selfRemoving; listener 2]
  /\ trace after = [mkDelivery 1 (Some (at_ 0)) 0]
  /\ invocations 2 (trace after) = 0%nat
  /\ onEventHandlers (engine after) = [listener 2].
Proof. repeat split. Qed.

(** *** Seeking *)

(** The scan of [seek] stops at the last event of the leading run; when
    the run is empty it leaves [targetIndex] where it was. *)
Lemma seekTarget_leading (t : Q) (evs : list KakiatoEvent) :
  forall i target,
    seekTarget evs i target t
    = match List.length (leading t evs) with
      | O => target
      | S k => (i + k)%nat
      end.
Proof.
  induction evs as [|e evs IH]; intros i target; simpl; [reflexivity |].
  unfold notAfter.
  destruct (Qle_bool (event_time e) t); simpl; [| reflexivity].
  rewrite IH.
  destruct (List.length (leading t evs)); [now rewrite Nat.add_0_r | lia].
Qed.

Lemma leading_prefix (t : Q) (evs : list KakiatoEvent) :
  exists rest, evs = leading t evs ++ rest.
Proof.
  induction evs as [|e evs [rest IH]]; simpl; [now exists [] |].
  destruct (notAfter t e); [| now exists (e :: evs)].
  exists rest; simpl; now rewrite <- IH.
Qed.

(** On an array whose times ascend, the leading run holds all the events
    that are not after [t]. *)
Lemma leading_ascending (t : Q) (evs : list KakiatoEvent) :
  timeAscending evs -> leading t evs = filter (notAfter t) evs.
Proof.
  induction evs as [|e evs IH]; simpl; intros Hasc; [reflexivity |].
  destruct Hasc as [Hle Hasc].
  destruct (notAfter t e) eqn:He; [now rewrite IH |].
  symmetry; clear IH Hasc.
  induction evs as [|e' evs IH]; simpl; [reflexivity |].
  inversion Hle as [|? ? Hee' Hrest]; subst.
  destruct (notAfter t e') eqn:He'; [| now apply IH].
  unfold notAfter in *.
  apply Qle_bool_iff in He'.
  assert (Ht : Qle_bool (event_time e) t = true)
    by (apply Qle_bool_iff; now apply Qle_trans with (event_time e')).
  congruence.
Qed.

Lemma reads_prefix (p pre rest : list KakiatoEvent) :
  reads (pre ++ p ++ rest) (List.length pre) (List.length p)
  = indexed (List.length pre) p.
Proof.
  revert pre; induction p as [|e p IH]; intros pre; [reflexivity |].
  unfold reads in *; simpl.
  rewrite nth_error_app2, Nat.sub_diag by lia; simpl; f_equal.
  specialize (IH (pre ++ [e])).
  rewrite length_app, Nat.add_1_r, <- app_assoc in IH; exact IH.
Qed.

Lemma pause_idle (now : Q) (w : Host) :
  isPlaying (engine w) = false -> pause now w = w.
Proof. intros H; unfold pause; now rewrite H. Qed.

(** With plain consumers only, the second loop of [seek] delivers the
    array reads one after the other and changes nothing but the trace. *)
Lemma replay_inert (count : nat) :
  forall (i : nat) (now : Q) (w : Host),
    Forall inert (onEventHandlers (engine w)) ->
    replay count i now w
    = traced (deliverAll (onEventHandlers (engine w))
                (reads (events (engine w)) i count)) w.
Proof.
  induction count as [|count IH]; intros i now w Hinert; simpl.
  - now rewrite traced_nil.
  - rewrite emitEvent_inert by exact Hinert.
    rewrite IH by exact Hinert.
    now rewrite traced_traced.
Qed.

(** [seek(t)] on an engine that is not playing, with plain consumers. *)
Lemma seek_paused (fuel : nat) (t now : Q) (w : Host) :
  isPlaying (engine w) = false ->
  Forall inert (onEventHandlers (engine w)) ->
  let target := seekTarget (events (engine w)) 0 0 t in
  seek fuel t now w
  = Normal
      (traced (deliverAll (onEventHandlers (engine w))
                 (reads (events (engine w)) 0 (S target)))
         (this (fun e => set_pausedAt e t)
            (this (fun e => set_currentIndex e target) w))).
Proof.
  intros Hpaused Hinert target; unfold seek.
  rewrite pause_idle by exact Hpaused; rewrite Hpaused.
  fold target. now rewrite replay_inert.
Qed.

Lemma seek_reads_leading (t : Q) (evs : list KakiatoEvent) :
  leading t evs <> [] ->
  S (seekTarget evs 0 0 t) = List.length (leading t evs)
  /\ reads evs 0 (S (seekTarget evs 0 0 t)) = indexed 0 (leading t evs).
Proof.
  intros Hne; rewrite seekTarget_leading.
  destruct (leading_prefix t evs) as [rest Hevs].
  destruct (leading t evs) as [|e l] eqn:Hl; [contradiction |].
  simpl List.length; split; [reflexivity |].
  rewrite Hevs at 1.
  apply (reads_prefix (e :: l) [] rest).
Qed.

(** What holds of [seek]: when the times ascend and the first event is not
    after [t], a paused engine delivers to its consumers exactly the events
    that are not after [t], with their indices, in array order; the
    virtual time is then exactly [t], and [currentIndex] is the index of the
    last of them. *)
Lemma seek_delivers_events_not_after
    (fuel : nat) (t now : Q) (w : Host) (first : KakiatoEvent)
    (others : list KakiatoEvent) :
  isPlaying (engine w) = false ->
  Forall inert (onEventHandlers (engine w)) ->
  events (engine w) = first :: others ->
  timeAscending (events (engine w)) ->
  event_time first <= t ->
  exists w',
    seek fuel t now w = Normal w'
    /\ trace w'
       = trace w
         ++ deliverAll (onEventHandlers (engine w))
              (indexed 0 (filter (notAfter t) (events (engine w))))
    /\ getCurrentTime now w' = t
    /\ S (getCurrentIndex w')
       = List.length (filter (notAfter t) (events (engine w))).
Proof.
  intros Hpaused Hinert Hevs Hasc Hfirst.
  assert (Hne : leading t (events (engine w)) <> []).
  { rewrite Hevs; simpl; unfold notAfter.
    rewrite (proj2 (Qle_bool_iff _ _) Hfirst); discriminate. }
  destruct (seek_reads_leading t _ Hne) as [Hlen Hreads].
  rewrite (leading_ascending t _ Hasc) in Hlen, Hreads.
  eexists; split; [apply seek_paused; assumption |].
  rewrite Hreads.
  unfold getCurrentTime, getCurrentIndex; simpl.
  rewrite Hpaused; repeat split; exact Hlen.
Qed.

Lemma seekTarget_in_range (t : Q) (evs : list KakiatoEvent) :
  evs <> [] -> (seekTarget evs 0 0 t < List.length evs)%nat.
Proof.
  intros Hne; rewrite seekTarget_leading.
  destruct (leading_prefix t evs) as [rest Hevs].
  destruct (leading t evs) as [|e l] eqn:Hl.
  - destruct evs; [contradiction | simpl; lia].
  - rewrite Hevs, length_app; simpl; lia.
Qed.

(** Whether or not the engine was playing, with plain consumers [seek(t)]
    returns and the clock then reads exactly [t]. *)
Lemma seek_sets_time (fuel : nat) (t now : Q) (w : Host) :
  (1 <= fuel)%nat ->
  0 < getSpeed w ->
  Forall inert (onEventHandlers (engine w)) ->
  exists w', seek fuel t now w = Normal w' /\ getCurrentTime now w' == t.
Proof.
  intros Hfuel Hspeed Hinert; unfold seek.
  destruct (pause_frame now w) as (Hevs & Hidx & Hloop & Hsp & Hhs & Htr).
  rewrite replay_inert by (simpl; rewrite Hhs; exact Hinert).
  set (w2 := traced _ _).
  assert (Hpaused : isPlaying (engine w2) = false)
    by (subst w2; simpl; apply pause_not_playing).
  assert (Ht : pausedAt (engine w2) = t) by reflexivity.
  destruct (isPlaying (engine w)).
  - destruct (events (engine w)) as [|e evs] eqn:Hw.
    + exists w2; split.
      * unfold play; rewrite Hpaused.
        replace (events (engine w2)) with (@nil KakiatoEvent)
          by (subst w2; simpl; now rewrite Hevs).
        reflexivity.
      * unfold getCurrentTime; rewrite Hpaused, Ht; reflexivity.
    + destruct (play_from_paused fuel now w2) as (w' & Hplay & Hread); auto.
      * subst w2; simpl; rewrite Hsp; exact Hspeed.
      * subst w2; unfold atEndOfLoop; simpl.
        rewrite Hevs.
        pose proof (seekTarget_in_range t (e :: evs)) as Hin.
        destruct (Nat.leb_spec (List.length (e :: evs))
                    (seekTarget (e :: evs) 0 0 t)) as [Hle | Hlt];
          [assert (e :: evs <> []) by discriminate; intuition lia
          | apply andb_false_r].
      * exists w'; split; [exact Hplay | now rewrite Hread, Ht].
  - exists w2; split; [reflexivity |].
    unfold getCurrentTime; rewrite Hpaused, Ht; reflexivity.
Qed.

Lemma received_single (id : HandlerId)
    (pairs : list (option KakiatoEvent * nat)) :
  received id (deliverAll [listener id] pairs) = map fst pairs.
Proof.
  unfold received, deliverAll.
  induction pairs as [|p pairs IH]; [reflexivity |].
  cbn [flat_map]; rewrite filter_app, map_app, IH.
  simpl; now rewrite Nat.eqb_refl.
Qed.

Lemma replayInto_indexed (evs : list KakiatoEvent) :
  forall (i : nat) (state : State.TextState),
    replayInto state (map fst (indexed i evs))
    = Some (State.applyEvents evs state).
Proof.
  induction evs as [|e evs IH]; intros i state; simpl; [reflexivity |].
  apply IH.
Qed.

(** ... and a reconstructor fed by the only subscriber, starting from the
    initial snapshot, ends in the state obtained by applying every event
    with [time <= t] in order. *)
Lemma seek_reconstructs_state
    (fuel : nat) (t now : Q) (first : KakiatoEvent)
    (others : list KakiatoEvent) (initialText : string) :
  timeAscending (first :: others) ->
  event_time first <= t ->
  exists w',
    seek fuel t now (listeningHost (first :: others)) = Normal w'
    /\ replayInto (State.reset initialText) (received 7 (trace w'))
       = Some (State.applyEvents (filter (notAfter t) (first :: others))
                 (State.reset initialText)).
Proof.
  intros Hasc Hfirst.
  destruct (seek_delivers_events_not_after fuel t now
              (listeningHost (first :: others)) first others)
    as (w' & Hseek & Htrace & _); auto.
  - repeat constructor.
  - exists w'; split; [exact Hseek |].
    rewrite Htrace; simpl app.
    change (onEventHandlers (engine (listeningHost (first :: others))))
      with [listener 7].
    change (events (engine (listeningHost (first :: others))))
      with (first :: others).
    now rewrite received_single, replayInto_indexed.
Qed.

(** C1 at failing inputs, on a paused engine with one plain listener.

    - The only event is at time [100] and [seek(50)] is called: the event
      is delivered although its time is after [50].
    - Events at times [0] and [100], [seek(50)]: the event at [0] is
      delivered and [currentIndex] is [0], the index that was found, not
      the one after it; on [play()] the host's next timeout delivers the
      event at [0] a second time.
    - No event is loaded: the listener is called with [undefined]. *)
Theorem seek_at_failing_inputs :
  (~ event_time (at_ 100) <= 50
   /\ exists w',
        seek 2 50 0 (listeningHost [at_ 100]) = Normal w'
        /\ trace w' = [mkDelivery 7 (Some (at_ 100)) 0])
  /\ (exists w1 w2 w3,
        seek 2 50 0 (listeningHost [at_ 0; at_ 100]) = Normal w1
        /\ trace w1 = [mkDelivery 7 (Some (at_ 0)) 0]
        /\ getCurrentIndex w1 = 0%nat
        /\ play 2 1000 w1 = Normal w2
        /\ fire 2 1 1000 w2 = Normal w3
        /\ trace w3 = [mkDelivery 7 (Some (at_ 0)) 0;
                       mkDelivery 7 (Some (at_ 0)) 0])
  /\ (exists w',
        seek 2 50 0 (listeningHost []) = Normal w'
        /\ trace w' = [mkDelivery 7 None 0]).
Proof.
  split; [split; [vm_compute; congruence | eexists; split; reflexivity] |].
  split.
  - do 3 eexists.
    split; [reflexivity |].
    split; [reflexivity |].
    split; [reflexivity |].
    split; [vm_compute; reflexivity |].
    split; vm_compute; reflexivity.
  - eexists; split; reflexivity.
Qed.

End EngineFacts.

(* ------------------------------------------------------------------ *)
(** ** The clock in double precision *)

Module Binary64Facts.

Import PrimFloat.
Open Scope float_scope.

(** In double precision the round trip of [resume_offset] is exact only up
    to rounding: paused at [100] with speed [3] and resumed at a wall time
    of the size [Date.now()] returns, the clock reads [100 - 2^-12]. *)
Remark resumed_reading_rounds :
  Binary64.resumedReading 1700000000000 100 3 = 99.999755859375.
Proof. reflexivity. Qed.

(** At speed [1] and whole milliseconds nothing is rounded. *)
Remark resumed_reading_exact :
  Binary64.resumedReading 1700000000000 100 1 = 100.
Proof. reflexivity. Qed.

End Binary64Facts.

(* ------------------------------------------------------------------ *)
(** ** Laws of the state reconstructor *)

Module StateLaws.

Import Types State StateSpec StateLawSpec StateFacts.
Open Scope Z_scope.

(** *** Splitting a string at a position *)

Lemma length_append (a b : string) :
  String.length (a ++ b) = (String.length a + String.length b)%nat.
Proof. induction a as [|c a IH]; simpl; [reflexivity | now rewrite IH]. Qed.

Lemma append_assoc (a b c : string) : ((a ++ b) ++ c = a ++ (b ++ c))%string.
Proof. induction a as [|x a IH]; simpl; [reflexivity | now rewrite IH]. Qed.

Lemma substring_prefix (a b : string) :
  String.substring 0 (String.length a) (a ++ b) = a.
Proof. induction a as [|c a IH]; simpl; [apply substring_nothing | now rewrite IH]. Qed.

Lemma substring_suffix (a b : string) :
  String.substring (String.length a) (String.length b) (a ++ b) = b.
Proof. induction a as [|c a IH]; simpl; [apply substring_whole | exact IH]. Qed.

Lemma strlen_append (a b : string) : strlen (a ++ b) = strlen a + strlen b.
Proof. unfold strlen; rewrite length_append; lia. Qed.

Lemma strlen_nonneg (a : string) : 0 <= strlen a.
Proof. unfold strlen; lia. Qed.

(** [s.substring(0, p)] and [s.substring(p)] cut [s] at [p]. *)
Lemma substring_before (before after : string) :
  JS.substring (before ++ after) 0 (Some (strlen before)) = before.
Proof.
  unfold JS.substring, JS.nullish; fold (strlen (before ++ after)).
  rewrite strlen_append.
  pose proof (strlen_nonneg before); pose proof (strlen_nonneg after).
  replace (Z.min (Z.min (Z.max 0 0) (strlen before + strlen after))
             (Z.min (Z.max (strlen before) 0) (strlen before + strlen after)))
    with 0 by lia.
  replace (Z.max (Z.min (Z.max 0 0) (strlen before + strlen after))
             (Z.min (Z.max (strlen before) 0) (strlen before + strlen after)) - 0)
    with (strlen before) by lia.
  unfold strlen; rewrite Nat2Z.id; apply substring_prefix.
Qed.

Lemma substring_after (before after : string) :
  JS.substring (before ++ after) (strlen before) None = after.
Proof.
  unfold JS.substring, JS.nullish; fold (strlen (before ++ after)).
  rewrite strlen_append.
  pose proof (strlen_nonneg before); pose proof (strlen_nonneg after).
  set (lb := strlen before) in *; set (la := strlen after) in *.
  replace (Z.min (Z.min (Z.max lb 0) (lb + la)) (Z.min (Z.max (lb + la) 0) (lb + la)))
    with lb by lia.
  replace (Z.max (Z.min (Z.max lb 0) (lb + la)) (Z.min (Z.max (lb + la) 0) (lb + la)) - lb)
    with la by lia.
  subst lb la; unfold strlen; rewrite !Nat2Z.id; apply substring_suffix.
Qed.

Lemma substring_to_before_start (s : string) (p : Z) :
  p <= 0 -> JS.substring s 0 (Some p) = EmptyString.
Proof.
  unfold JS.substring, JS.nullish; fold (strlen s); intros Hp.
  pose proof (strlen_nonneg s).
  replace (Z.max (Z.min (Z.max 0 0) (strlen s)) (Z.min (Z.max p 0) (strlen s))
           - Z.min (Z.min (Z.max 0 0) (strlen s)) (Z.min (Z.max p 0) (strlen s)))
    with 0 by lia.
  apply substring_nothing.
Qed.

Lemma substring_from_before_start (s : string) (p : Z) :
  p <= 0 -> JS.substring s p None = s.
Proof.
  unfold JS.substring, JS.nullish; fold (strlen s); intros Hp.
  pose proof (strlen_nonneg s).
  replace (Z.min (Z.min (Z.max p 0) (strlen s)) (Z.min (Z.max (strlen s) 0) (strlen s)))
    with 0 by lia.
  replace (Z.max (Z.min (Z.max p 0) (strlen s)) (Z.min (Z.max (strlen s) 0) (strlen s)) - 0)
    with (strlen s) by lia.
  unfold strlen; rewrite Nat2Z.id; apply substring_whole.
Qed.

(** *** Deltas inside the buffer *)

Lemma applyDelta_insert (inputType : string) (p : Z) (data : string)
    (state : TextState) :
  isInsert inputType ->
  applyDelta inputType p data state = insertText p data state.
Proof. intros [-> | ->]; reflexivity. Qed.

Lemma insertion_inside
    (base : KakiatoEventBase) (inputType data before after : string)
    (state : TextState) :
  isInsert inputType ->
  text state = (before ++ after)%string ->
  effectivePos base state = strlen before ->
  let state' := applyEvent (deltaOnly base inputType data) state in
  text state' = (before ++ data ++ after)%string
  /\ cursorPosition state'
     = match pos base with
       | Some p => p
       | None => strlen before + strlen data
       end.
Proof.
  unfold deltaOnly, effectivePos; simpl; intros Hkind Htext Hpos.
  rewrite applyDelta_insert by exact Hkind.
  unfold insertText; rewrite Hpos, Htext, substring_before, substring_after.
  destruct (pos base); simpl; split; reflexivity.
Qed.

(** X1.  A delta-only insertion at a position inside the buffer splices the
    delta in at that position: the part of the buffer before the position,
    the delta, the part after it.  The caret ends on the position the event
    carries, and, when it carries none, behind the inserted text. *)
Theorem insert_splices
    (base : KakiatoEventBase) (inputType data before after : string)
    (state : TextState) :
  isInsert inputType ->
  text state = (before ++ after)%string ->
  effectivePos base state = strlen before ->
  let state' := applyEvent (deltaOnly base inputType data) state in
  text state' = (before ++ data ++ after)%string
  /\ cursorPosition state'
     = match pos base with
       | Some p => p
       | None => strlen before + strlen data
       end.
Proof. apply insertion_inside. Qed.

Lemma insert_splices_witness :
  isInsert "insertText"
  /\ text (reset "held") = ("he" ++ "ld")%string
  /\ effectivePos (mkBase 0 (Some 2)) (reset "held") = strlen "he"
  /\ text (applyEvent (deltaOnly (mkBase 0 (Some 2)) "insertText" "llo wor")
             (reset "held")) = "hello world"%string.
Proof.
  split; [left; reflexivity |].
  split; [reflexivity |].
  split; [reflexivity |].
  apply (insert_splices (mkBase 0 (Some 2)) "insertText" "llo wor" "he" "ld"
           (reset "held")).
  - left; reflexivity.
  - reflexivity.
  - reflexivity.
Defined.

Lemma deletion_inside
    (base : KakiatoEventBase) (inputType data before after : string)
    (c : ascii) (state : TextState) :
  text state = (before ++ String c after)%string ->
  (inputType = "deleteContentBackward"%string
     /\ effectivePos base state = strlen before + 1)
  \/ (inputType = "deleteContentForward"%string
      /\ effectivePos base state = strlen before) ->
  text (applyEvent (deltaOnly base inputType data) state)
  = (before ++ after)%string.
Proof.
  unfold deltaOnly, effectivePos; simpl; intros Htext Hcase.
  rewrite text_after_pos.
  pose proof (strlen_nonneg before) as Hb.
  pose proof (strlen_nonneg after) as Ha.
  assert (Hafter : JS.substring (before ++ String c after)
                     (strlen before + 1) None = after).
  { replace (before ++ String c after)%string
      with ((before ++ String c EmptyString) ++ after)%string
      by (rewrite append_assoc; reflexivity).
    replace (strlen before + 1) with (strlen (before ++ String c EmptyString))
      by (rewrite strlen_append; reflexivity).
    apply substring_after. }
  destruct Hcase as [[-> Hpos] | [-> Hpos]]; unfold applyDelta; simpl;
    rewrite Hpos.
  - unfold deleteBackward.
    destruct (Z.leb_spec (strlen before + 1) 0) as [Hle | _]; [lia |]; simpl.
    rewrite Htext, Hafter.
    replace (strlen before + 1 - 1) with (strlen before) by lia.
    now rewrite substring_before.
  - unfold deleteForward.
    destruct (Z.geb_spec (strlen before) (strlen (text state))) as [Hge | _].
    + rewrite Htext, strlen_append in Hge.
      change (strlen (String c after)) with (Z.of_nat (S (String.length after)))
        in Hge; lia.
    + simpl; rewrite Htext, Hafter; now rewrite substring_before.
Qed.

Lemma input_without_payload_keeps_text
    (base : KakiatoEventBase) (inputType : string) (state : TextState) :
  text (applyEvent (KakiatoInputEvent base input inputType None None) state)
  = text state.
Proof. unfold applyEvent; simpl; destruct (pos base); reflexivity. Qed.

(** X2.  A deletion inside the buffer by an [input] event that carries a
    data string and no snapshot removes exactly one unit, the one before
    the position for delete-backward and the one after it for
    delete-forward, whatever the data string is.  The data string has to be
    there: the same event without one deletes nothing. *)
Theorem delete_removes_one_unit
    (base : KakiatoEventBase) (inputType data before after : string)
    (c : ascii) (state : TextState) :
  text state = (before ++ String c after)%string ->
  (inputType = "deleteContentBackward"%string
     /\ effectivePos base state = strlen before + 1)
  \/ (inputType = "deleteContentForward"%string
      /\ effectivePos base state = strlen before) ->
  text (applyEvent (deltaOnly base inputType data) state)
  = (before ++ after)%string
  /\ text (applyEvent (KakiatoInputEvent base input inputType None None) state)
     = text state.
Proof.
  intros Htext Hcase; split.
  - now apply (deletion_inside base inputType data before after c).
  - apply input_without_payload_keeps_text.
Qed.

Lemma delete_removes_one_unit_witness :
  text (reset "abc") = ("a" ++ String "b" "c")%string
  /\ effectivePos (mkBase 0 (Some 2)) (reset "abc") = strlen "a" + 1
  /\ text (applyEvent
             (deltaOnly (mkBase 0 (Some 2)) "deleteContentBackward" EmptyString)
             (reset "abc")) = "ac"%string
  /\ text (applyEvent
             (KakiatoInputEvent (mkBase 0 (Some 2)) input
                "deleteContentBackward" None None)
             (reset "abc")) = text (reset "abc").
Proof.
  split; [reflexivity |].
  split; [reflexivity |].
  apply (delete_removes_one_unit (mkBase 0 (Some 2)) "deleteContentBackward"
           EmptyString "a" "c" "b" (reset "abc")).
  - reflexivity.
  - left; split; reflexivity.
Defined.

(** X3.  Typing one unit and deleting it again restores the buffer: an
    insertion of a single unit at a position inside the buffer followed by
    a delete-backward right behind it, both [input] events that carry a data
    string and no snapshot (the data string of the deletion is arbitrary). *)
Theorem insert_then_delete_restores
    (t1 t2 : Q) (c : ascii) (data before after : string) (state : TextState) :
  text state = (before ++ after)%string ->
  text (applyEvents
          [ deltaOnly (mkBase t1 (Some (strlen before))) "insertText"
              (String c EmptyString);
            deltaOnly (mkBase t2 (Some (strlen before + 1)))
              "deleteContentBackward" data ]
          state)
  = text state.
Proof.
  intros Htext; unfold applyEvents; cbn [fold_left].
  rewrite Htext.
  apply (deletion_inside _ _ _ before after c).
  - apply (insertion_inside (mkBase t1 (Some (strlen before))) "insertText"
             (String c EmptyString) before after state);
      [left; reflexivity | exact Htext | reflexivity].
  - left; split; reflexivity.
Qed.

Lemma insert_then_delete_restores_witness :
  text (reset "ac") = ("a" ++ "c")%string
  /\ text (applyEvents
             [ deltaOnly (mkBase 10 (Some (strlen "a"))) "insertText" "b";
               deltaOnly (mkBase 20 (Some (strlen "a" + 1)))
                 "deleteContentBackward" EmptyString ]
             (reset "ac")) = text (reset "ac").
Proof.
  split; [reflexivity |].
  apply (insert_then_delete_restores 10 20 "b" EmptyString "a" "c" (reset "ac")).
  reflexivity.
Defined.

(** *** Deltas outside the buffer *)

(** X4.  A delete-backward beyond the end of the buffer and a delete-forward
    before its start delete nothing: the bounds are clamped, not the
    position. *)
Theorem delete_outside_buffer_keeps_text
    (base : KakiatoEventBase) (inputType data : string) (state : TextState) :
  (inputType = "deleteContentBackward"%string
     /\ strlen (text state) < effectivePos base state)
  \/ (inputType = "deleteContentForward"%string
      /\ effectivePos base state < 0) ->
  text (applyEvent (deltaOnly base inputType data) state) = text state.
Proof.
  unfold deltaOnly, effectivePos; simpl; intros Hcase.
  rewrite text_after_pos.
  pose proof (strlen_nonneg (text state)) as Hlen.
  destruct Hcase as [[-> Hpos] | [-> Hpos]]; unfold applyDelta; simpl.
  - unfold deleteBackward.
    destruct (Z.leb_spec (JS.nullish (pos base) (cursorPosition state)) 0);
      [reflexivity |]; simpl.
    rewrite substring_to_past_end, substring_from_past_end by lia.
    apply append_empty_r.
  - unfold deleteForward.
    destruct (Z.geb_spec (JS.nullish (pos base) (cursorPosition state))
                (strlen (text state))); [reflexivity |]; simpl.
    rewrite substring_to_before_start, substring_from_before_start by lia.
    reflexivity.
Qed.

Lemma delete_outside_buffer_keeps_text_witness :
  strlen (text (reset "abc")) < effectivePos (mkBase 0 (Some 9)) (reset "abc")
  /\ text (applyEvent
             (deltaOnly (mkBase 0 (Some 9)) "deleteContentBackward" EmptyString)
             (reset "abc")) = text (reset "abc").
Proof.
  split; [reflexivity |].
  apply (delete_outside_buffer_keeps_text (mkBase 0 (Some 9))
           "deleteContentBackward" EmptyString (reset "abc")).
  left; split; reflexivity.
Defined.

(** X5.  A delta-only insertion at a position at or before the start of the
    buffer puts the delta in front of the buffer. *)
Theorem insert_before_start_prepends
    (base : KakiatoEventBase) (inputType data : string) (state : TextState) :
  isInsert inputType ->
  effectivePos base state <= 0 ->
  text (applyEvent (deltaOnly base inputType data) state)
  = (data ++ text state)%string.
Proof.
  unfold deltaOnly, effectivePos; simpl; intros Hkind Hpos.
  rewrite text_after_pos, applyDelta_insert by exact Hkind.
  unfold insertText; simpl.
  now rewrite substring_to_before_start, substring_from_before_start by lia.
Qed.

Lemma insert_before_start_prepends_witness :
  isInsert "insertText"
  /\ effectivePos (mkBase 0 (Some (-4))) (reset "bc") <= 0
  /\ text (applyEvent (deltaOnly (mkBase 0 (Some (-4))) "insertText" "a")
             (reset "bc")) = "abc"%string.
Proof.
  split; [left; reflexivity |].
  split; [vm_compute; discriminate |].
  apply (insert_before_start_prepends (mkBase 0 (Some (-4))) "insertText" "a"
           (reset "bc")).
  - left; reflexivity.
  - vm_compute; discriminate.
Defined.

(** *** What the other events leave alone *)

Lemma non_input_event_keeps_text (event : KakiatoEvent) (state : TextState) :
  isInput event = false -> text (applyEvent event state) = text state.
Proof.
  destruct event as [b k ? ? | b [|] ? ? ? | b [| |] ? | b a f | b k | b l];
    simpl; intros H; try discriminate; try reflexivity.
  destruct (pos b); reflexivity.
Qed.

(** X6.  Only events of type [input] touch the committed buffer: a sequence of
    keyboard, beforeinput, composition, selection, focus and custom events
    leaves the text as it was, whatever they carry. *)
Theorem only_input_events_change_text
    (evs : list KakiatoEvent) (state : TextState) :
  forallb (fun e => negb (isInput e)) evs = true ->
  text (applyEvents evs state) = text state.
Proof.
  unfold applyEvents; revert state.
  induction evs as [|e evs IH]; intros state Hall; simpl in *; [reflexivity |].
  apply andb_true_iff in Hall as [He Hall].
  rewrite IH by exact Hall.
  apply non_input_event_keeps_text.
  now apply negb_true_iff.
Qed.

Lemma only_input_events_change_text_witness :
  text (applyEvents
          [ KakiatoCompositionEvent (mkBase 0 None) compositionstart
              (Some "k"%string);
            KakiatoInputEvent (mkBase 5 (Some 1)) beforeinput "insertText"
              (Some "k"%string) (Some "k"%string);
            KakiatoSelectionChangeEvent (mkBase 9 None) (mkSel 4 None)
              (mkSel 0 None) ]
          (reset "abc")) = text (reset "abc").
Proof.
  apply (only_input_events_change_text
           [ KakiatoCompositionEvent (mkBase 0 None) compositionstart
               (Some "k"%string);
             KakiatoInputEvent (mkBase 5 (Some 1)) beforeinput "insertText"
               (Some "k"%string) (Some "k"%string);
             KakiatoSelectionChangeEvent (mkBase 9 None) (mkSel 4 None)
               (mkSel 0 None) ]
           (reset "abc")).
  reflexivity.
Defined.

(** X7.  Every event but a delta-only [input] is idempotent: applying it a
    second time changes nothing. *)
Theorem non_delta_event_is_idempotent
    (event : KakiatoEvent) (state : TextState) :
  isDelta event = false ->
  applyEvent event (applyEvent event state) = applyEvent event state.
Proof.
  destruct event as [b k ? ? | b [|] ? [d|] [tx|] | b [| |] ? | b a f | b k | b l];
    simpl; intros H; try discriminate; try reflexivity;
    destruct (pos b); reflexivity.
Qed.

Lemma non_delta_event_is_idempotent_witness :
  let snapshot :=
    KakiatoInputEvent (mkBase 0 (Some 2)) input "insertText" (Some "i"%string)
      (Some "hi"%string) in
  isDelta snapshot = false
  /\ applyEvent snapshot (applyEvent snapshot (reset "h"))
     = applyEvent snapshot (reset "h").
Proof.
  split; [reflexivity |].
  apply (non_delta_event_is_idempotent
           (KakiatoInputEvent (mkBase 0 (Some 2)) input "insertText"
              (Some "i"%string) (Some "hi"%string))
           (reset "h")).
  reflexivity.
Defined.

(** *** Typing *)

(** X8.  Keys typed without positions extend the buffer at the caret: starting
    with the caret at the end of the buffer, the text becomes the old text
    followed by the typed strings in order, and the caret stays at the end. *)
Theorem typing_appends (keys : list (Q * string)) (state : TextState) :
  cursorPosition state = strlen (text state) ->
  let state' := applyEvents (typed keys) state in
  text state' = (text state ++ joined (map snd keys))%string
  /\ cursorPosition state' = strlen (text state').
Proof.
  unfold applyEvents; revert state.
  induction keys as [|[t d] keys IH]; intros state Hcaret.
  - simpl; now rewrite append_empty_r.
  - change (typed ((t, d) :: keys))
      with (deltaOnly (mkBase t None) "insertText" d :: typed keys).
    change (joined (map snd ((t, d) :: keys)))
      with (d ++ joined (map snd keys))%string.
    cbn [fold_left].
    set (state1 := applyEvent (deltaOnly (mkBase t None) "insertText" d) state).
    assert (H1 : text state1 = (text state ++ d)%string
                 /\ cursorPosition state1 = strlen (text state1)).
    { subst state1; unfold deltaOnly; simpl.
      unfold applyDelta; simpl; unfold insertText; simpl.
      rewrite Hcaret, substring_to_past_end, substring_from_past_end by lia.
      rewrite append_empty_r, strlen_append; split; reflexivity. }
    destruct H1 as [Htext Hc].
    destruct (IH state1 Hc) as [IHt IHc].
    split; [| exact IHc].
    rewrite IHt, Htext; apply append_assoc.
Qed.

Lemma typing_appends_witness :
  cursorPosition (reset EmptyString) = strlen (text (reset EmptyString))
  /\ text (applyEvents (typed [(0%Q, "h"%string); (100%Q, "i"%string)])
             (reset EmptyString)) = "hi"%string.
Proof.
  split; [reflexivity |].
  apply (typing_appends [(0%Q, "h"%string); (100%Q, "i"%string)] (reset EmptyString)).
  reflexivity.
Defined.

(** *** Composition *)

Lemma applyDelta_keeps_composition (inputType : string) (p : Z)
    (data : string) (state : TextState) :
  isComposing (applyDelta inputType p data state) = isComposing state
  /\ compositionText (applyDelta inputType p data state)
     = compositionText state.
Proof.
  unfold applyDelta, insertText, deleteBackward, deleteForward.
  repeat match goal with
         | |- context [if ?c then _ else _] => destruct c
         end; split; reflexivity.
Qed.

Lemma isComposing_applyEvent (event : KakiatoEvent) (state : TextState) :
  isComposing (applyEvent event state)
  = match lastBoundary [event] with
    | Some b => b
    | None => isComposing state
    end.
Proof.
  destruct event as [b k ? ? | b [|] it [d|] [tx|] | b [| |] ? | b a f | b k | b l];
    simpl; try reflexivity; destruct (pos b); simpl; try reflexivity;
    apply applyDelta_keeps_composition.
Qed.

(** X9.  After any sequence of events the reconstructor is composing exactly when
    the latest composition boundary of the sequence is a [compositionstart];
    a [compositionupdate] on its own does not enter composition, and without
    any boundary the flag is the one the sequence started from. *)
Theorem composing_follows_last_boundary
    (evs : list KakiatoEvent) (state : TextState) :
  isComposing (applyEvents evs state)
  = match lastBoundary evs with
    | Some b => b
    | None => isComposing state
    end.
Proof.
  unfold applyEvents; revert state.
  induction evs as [|e evs IH]; intros state; [reflexivity |].
  cbn [fold_left lastBoundary]; rewrite IH.
  destruct (lastBoundary evs); [reflexivity |].
  apply isComposing_applyEvent.
Qed.

End StateLaws.

(* ------------------------------------------------------------------ *)
(** ** Laws of the playback engine *)

Module EngineLaws.

Import Types Engine EngineSpec EngineLawSpec EngineFacts.
Open Scope Q_scope.

(** *** The scheduling discipline *)

Lemma scheduled_quiet (w : Host) : pending w = [] -> scheduled w.
Proof. unfold scheduled; now intros ->. Qed.

Lemma scheduled_paused (w : Host) :
  scheduled w -> isPlaying (engine w) = false -> pending w = [].
Proof.
  unfold scheduled; destruct (pending w) as [|t [|t' l]]; intros H Hp;
    [reflexivity | destruct H; congruence | contradiction].
Qed.

(** Under the discipline [pause()] leaves no timeout pending. *)
Lemma pause_quiet (now : Q) (w : Host) :
  scheduled w -> pending (pause now w) = [].
Proof.
  intros Hs; unfold pause.
  destruct (isPlaying (engine w)) eqn:Hp; simpl.
  - unfold scheduled in Hs.
    destruct w as [[evs i playing s l tid st pa hs] p n tr]; simpl in *.
    destruct p as [|t [|t' p]]; [destruct tid; reflexivity | | contradiction].
    destruct Hs as [_ ->]; simpl; now rewrite Nat.eqb_refl.
  - now apply scheduled_paused.
Qed.

Lemma pause_keeps_quiet (now : Q) (w : Host) :
  pending w = [] -> pending (pause now w) = [].
Proof. intros H; apply pause_quiet, scheduled_quiet, H. Qed.

Lemma runCall_keeps_quiet (now : Q) (w : Host) (c : Call) :
  pending w = [] -> pending (runCall now w c) = [].
Proof.
  destruct c as [target |]; simpl; intros H.
  - rewrite offEvent_eq; exact H.
  - now apply pause_keeps_quiet.
Qed.

Lemma invoke_keeps_quiet handler event index now (w : Host) :
  pending w = [] -> pending (invoke handler event index now w) = [].
Proof.
  unfold invoke; intros H.
  assert (H0 : pending (record (mkDelivery (hid handler) event index) w) = [])
    by exact H.
  revert H0; generalize (record (mkDelivery (hid handler) event index) w) as w0.
  induction (body handler) as [|c cs IH]; intros w0 H0; simpl; [exact H0 |].
  apply IH, runCall_keeps_quiet, H0.
Qed.

Lemma emitFrom_keeps_quiet (steps : nat) :
  forall i event index now (w : Host),
    pending w = [] -> pending (emitFrom steps i event index now w) = [].
Proof.
  induction steps as [|steps IH]; intros i event index now w H; simpl;
    [exact H |].
  destruct (nth_error (onEventHandlers (engine w)) i); [| exact H].
  apply IH, invoke_keeps_quiet, H.
Qed.

Lemma emitEvent_keeps_quiet event index now (w : Host) :
  pending w = [] -> pending (emitEvent event index now w) = [].
Proof. apply emitFrom_keeps_quiet. Qed.

Lemma replay_keeps_quiet (count : nat) :
  forall i now (w : Host), pending w = [] -> pending (replay count i now w) = [].
Proof.
  induction count as [|count IH]; intros i now w H; simpl; [exact H |].
  apply IH, emitEvent_keeps_quiet, H.
Qed.

(** From a host without pending timeout [scheduleNextEvent] schedules at
    most one. *)
Lemma scheduleNextEvent_scheduled (fuel : nat) (now : Q) :
  forall (w : Host),
    pending w = [] ->
    forall w', hostAfter (scheduleNextEvent fuel now w) = Some w' ->
               scheduled w'.
Proof.
  induction fuel as [|fuel IH]; intros w Hq w' Hrun; simpl in Hrun;
    [discriminate |].
  destruct (isPlaying (engine w)) eqn:Hp; simpl in Hrun.
  - destruct (List.length (events (engine w)) <=? currentIndex (engine w))%nat.
    + destruct (loop (engine w)).
      * eapply IH; [| exact Hrun]; exact Hq.
      * injection Hrun as <-; apply scheduled_quiet; exact Hq.
    + destruct (nth_error (events (engine w)) (currentIndex (engine w))).
      * injection Hrun as <-; unfold scheduled; simpl; rewrite Hq; simpl.
        split; [exact Hp | reflexivity].
      * injection Hrun as <-; apply scheduled_quiet; exact Hq.
  - injection Hrun as <-; apply scheduled_quiet; exact Hq.
Qed.

Lemma play_scheduled (fuel : nat) (now : Q) (w w' : Host) :
  scheduled w -> hostAfter (play fuel now w) = Some w' -> scheduled w'.
Proof.
  intros Hs; unfold play.
  destruct (isPlaying (engine w)) eqn:Hp; [intros [= <-]; exact Hs |].
  destruct (List.length (events (engine w)) =? 0)%nat; [intros [= <-]; exact Hs |].
  apply scheduleNextEvent_scheduled; simpl.
  now apply scheduled_paused.
Qed.

Lemma fire_scheduled (fuel id : nat) (now : Q) (w w' : Host) :
  scheduled w -> hostAfter (fire fuel id now w) = Some w' -> scheduled w'.
Proof.
  intros Hs; unfold fire.
  destruct (find _ (pending w)) as [t |] eqn:Hfind; [| intros [= <-]; exact Hs].
  destruct (Qle_bool (due t) now); [| intros [= <-]; exact Hs].
  unfold onTimeout.
  apply scheduleNextEvent_scheduled; simpl.
  apply emitEvent_keeps_quiet; simpl.
  unfold scheduled in Hs.
  destruct (pending w) as [|t0 [|t1 p]]; [discriminate | | contradiction].
  simpl in Hfind |- *.
  destruct (Nat.eqb (timeout_id t0) id); [reflexivity | discriminate].
Qed.

Lemma seek_scheduled (fuel : nat) (time now : Q) (w w' : Host) :
  scheduled w -> hostAfter (seek fuel time now w) = Some w' -> scheduled w'.
Proof.
  intros Hs; unfold seek.
  set (w2 := replay _ _ _ _).
  assert (Hq : pending w2 = [])
    by (subst w2; apply replay_keeps_quiet; simpl; now apply pause_quiet).
  destruct (isPlaying (engine w)).
  - apply play_scheduled, scheduled_quiet, Hq.
  - intros [= <-]; apply scheduled_quiet, Hq.
Qed.

Lemma setSpeed_scheduled (fuel : nat) (s now : Q) (w w' : Host) :
  scheduled w -> hostAfter (setSpeed fuel s now w) = Some w' -> scheduled w'.
Proof.
  intros Hs; unfold setSpeed.
  destruct (Qle_bool s 0); [intros [= <-]; exact Hs |].
  destruct (isPlaying (engine w)) eqn:Hp.
  - apply play_scheduled, scheduled_quiet; simpl; now apply pause_quiet.
  - intros [= <-]; apply scheduled_quiet; simpl.
    now apply scheduled_paused.
Qed.

Lemma perform_scheduled (fuel : nat) (now : Q) (a : Action) (w w' : Host) :
  scheduled w -> hostAfter (perform fuel now a w) = Some w' -> scheduled w'.
Proof.
  intros Hs; destruct a; simpl.
  - intros [= <-]; exact Hs.
  - intros [= <-]; exact Hs.
  - intros [= <-]; rewrite offEvent_eq; exact Hs.
  - now apply play_scheduled.
  - intros [= <-]; apply scheduled_quiet; now apply pause_quiet.
  - intros [= <-]; apply scheduled_quiet; simpl; now apply pause_quiet.
  - now apply seek_scheduled.
  - now apply setSpeed_scheduled.
  - now apply fire_scheduled.
Qed.

(** X10.  Whatever is done to a new engine, in whatever order and at whatever
    wall times (method calls, timeouts run by the host, calls that throw
    and are caught), at most one timeout is ever pending, and one is pending
    only while the engine is playing and holds its handle. *)
Theorem at_most_one_timeout_pending
    (fuel : nat) (script : list (Q * Action))
    (options_speed : option Q) (options_loop : option bool) (w : Host) :
  performAll fuel script (constructor options_speed options_loop) = Some w ->
  scheduled w.
Proof.
  assert (Hstart : scheduled (constructor options_speed options_loop))
    by exact I.
  revert Hstart; generalize (constructor options_speed options_loop) as w0.
  induction script as [|[now a] script IH]; intros w0 Hs Hrun; simpl in Hrun.
  - injection Hrun as <-; exact Hs.
  - destruct (hostAfter (perform fuel now a w0)) as [w1 |] eqn:Hstep;
      [| discriminate].
    eapply IH; [| exact Hrun].
    eapply perform_scheduled; eassumption.
Qed.

Lemma at_most_one_timeout_pending_witness :
  exists w,
    performAll 2
      [ (0, DoOnEvent (listener 7)); (0, DoLoadEvents mockEvents);
        (0, DoPlay); (0, DoTimeout 1); (40, DoSetSpeed 2); (40, DoSetSpeed 0);
        (60, DoSeek 300); (70, DoPlay); (200, DoTimeout 4) ]
      (constructor None None) = Some w
    /\ scheduled w.
Proof.
  eexists; split; [vm_compute; reflexivity |].
  apply (at_most_one_timeout_pending 2
           [ (0, DoOnEvent (listener 7)); (0, DoLoadEvents mockEvents);
             (0, DoPlay); (0, DoTimeout 1); (40, DoSetSpeed 2);
             (40, DoSetSpeed 0); (60, DoSeek 300); (70, DoPlay);
             (200, DoTimeout 4) ]
           None None).
  vm_compute; reflexivity.
Defined.

Lemma fire_quiet (fuel id : nat) (now : Q) (w : Host) :
  pending w = [] -> fire fuel id now w = Normal w.
Proof. intros H; unfold fire; now rewrite H. Qed.

(** X11.  Nothing is delivered after [pause()] or [stop()] has returned: under
    the scheduling discipline, whichever timeouts the host still runs, at
    whatever times, leave the host, and so the trace, exactly as the call
    left it. *)
Theorem no_delivery_after_pause_or_stop
    (fuel : nat) (now : Q) (timeouts : list (Q * nat)) (w : Host) :
  scheduled w ->
  let later := map (fun t => (fst t, DoTimeout (snd t))) timeouts in
  performAll fuel later (pause now w) = Some (pause now w)
  /\ performAll fuel later (stop now w) = Some (stop now w).
Proof.
  intros Hs later; subst later.
  assert (Hall : forall w0, pending w0 = [] ->
            performAll fuel (map (fun t => (fst t, DoTimeout (snd t))) timeouts) w0
            = Some w0).
  { intros w0 Hq; induction timeouts as [|[t id] timeouts IH]; simpl;
      [reflexivity |].
    rewrite fire_quiet by exact Hq; simpl; exact IH. }
  split; apply Hall; simpl; now apply pause_quiet.
Qed.

Lemma no_delivery_after_pause_or_stop_witness :
  scheduled (started (listeningHost mockEvents))
  /\ performAll 2 [(0, DoTimeout 1); (100, DoTimeout 2)]
       (stop 0 (started (listeningHost mockEvents)))
     = Some (stop 0 (started (listeningHost mockEvents))).
Proof.
  split; [vm_compute; split; reflexivity |].
  apply (no_delivery_after_pause_or_stop 2 0 [(0, 1%nat); (100, 2%nat)]
           (started (listeningHost mockEvents))).
  vm_compute; split; reflexivity.
Defined.

(** *** Playing a sequence through *)

Lemma runDue_quiet (fuel n : nat) (w : Host) :
  pending w = [] -> runDue fuel n w = Normal w.
Proof. intros H; destruct n; simpl; [reflexivity | now rewrite H]. Qed.

Lemma skipn_nth_error {A : Type} (l : list A) (i : nat) (x : A) :
  nth_error l i = Some x -> skipn i l = x :: skipn (S i) l.
Proof.
  revert i; induction l as [|y l IH]; intros [|i] H; simpl in *;
    try discriminate.
  - now injection H as ->.
  - now apply IH.
Qed.

(** The two ways [scheduleNextEvent] ends on a playing engine that does
    not loop. *)
Lemma scheduleNextEvent_finishes (fuel : nat) (now : Q) (w : Host) :
  isPlaying (engine w) = true ->
  loop (engine w) = false ->
  (List.length (events (engine w)) <= currentIndex (engine w))%nat ->
  scheduleNextEvent (S fuel) now w
  = Normal (this (fun e => set_isPlaying e false) w).
Proof.
  intros Hp Hl Hend; cbn [scheduleNextEvent]; rewrite Hp, Hl; cbn [negb].
  now rewrite (proj2 (Nat.leb_le _ _) Hend).
Qed.

Lemma scheduleNextEvent_schedules (fuel : nat) (now : Q) (w : Host)
    (event : KakiatoEvent) :
  isPlaying (engine w) = true ->
  nth_error (events (engine w)) (currentIndex (engine w)) = Some event ->
  scheduleNextEvent (S fuel) now w
  = Normal
      (this (fun e => set_timeoutId e (Some (nextTimeoutId w)))
         (mkHost (engine w)
            (pending w
             ++ [mkTimeout (nextTimeoutId w)
                   (now + Qmax 0 ((event_time event
                                   - (now - startTime (engine w))
                                     * speed (engine w))
                                  / speed (engine w)))
                   (Some event)])
            (S (nextTimeoutId w)) (trace w))).
Proof.
  intros Hp Hnth; cbn [scheduleNextEvent]; rewrite Hp; cbn [negb].
  assert (Hlt : (currentIndex (engine w) < List.length (events (engine w)))%nat)
    by (apply nth_error_Some; congruence).
  rewrite (proj2 (Nat.leb_gt _ _) Hlt), Hnth; reflexivity.
Qed.

(** One timeout of a playing engine: the event it captured goes to every
    consumer, the index moves on, and either the next event is waited for or
    the sequence is finished. *)
Lemma fire_awaiting (fuel : nat) (i : nat) (w : Host) :
  (1 <= fuel)%nat ->
  awaiting i w ->
  Forall inert (onEventHandlers (engine w)) ->
  exists w',
    runDue fuel 1 w = Normal w'
    /\ trace w'
       = trace w
         ++ deliveries (onEventHandlers (engine w))
              (nth_error (events (engine w)) i) i
    /\ events (engine w') = events (engine w)
    /\ onEventHandlers (engine w') = onEventHandlers (engine w)
    /\ ((S i < List.length (events (engine w)))%nat /\ awaiting (S i) w'
        \/ (List.length (events (engine w)) <= S i)%nat
           /\ isPlaying (engine w') = false
           /\ pending w' = []).
Proof.
  intros Hfuel (Hp & Hl & Hi & t & event & Hpend & Hnth & Hcap) Hinert.
  destruct fuel as [|fuel]; [lia |].
  unfold runDue, fire; rewrite Hpend; simpl find.
  rewrite Nat.eqb_refl.
  rewrite (proj2 (Qle_bool_iff (due t) (due t)) (Qle_refl _)).
  unfold onTimeout.
  assert (Hclear : clearTimeout (timeout_id t) w
                   = mkHost (engine w) [] (nextTimeoutId w) (trace w))
    by (unfold clearTimeout; rewrite Hpend; simpl; now rewrite Nat.eqb_refl).
  rewrite Hclear; clear Hclear.
  rewrite emitEvent_inert by exact Hinert.
  cbn [engine traced this trace pending nextTimeoutId].
  rewrite Hcap, Hi, <- Hnth.
  set (w3 := this _ (traced _ _)).
  assert (H3 : isPlaying (engine w3) = true
               /\ loop (engine w3) = false
               /\ events (engine w3) = events (engine w)
               /\ currentIndex (engine w3) = S i
               /\ onEventHandlers (engine w3) = onEventHandlers (engine w)
               /\ pending w3 = []
               /\ trace w3 = trace w
                             ++ deliveries (onEventHandlers (engine w))
                                  (nth_error (events (engine w)) i) i)
    by (subst w3; cbn; rewrite ?Hi; repeat split; assumption).
  destruct H3 as (Hp3 & Hl3 & He3 & Hi3 & Hh3 & Hq3 & Ht3).
  destruct (Nat.leb_spec (List.length (events (engine w))) (S i)) as [Hend | Hmore].
  - rewrite scheduleNextEvent_finishes by (rewrite ?He3, ?Hi3; assumption).
    eexists; split; [reflexivity |]; cbn [trace engine this pending].
    repeat split; try assumption.
    right; repeat split; assumption.
  - destruct (nth_error (events (engine w)) (S i)) as [next |] eqn:Hnext;
      [| apply nth_error_None in Hnext; lia].
    rewrite (scheduleNextEvent_schedules _ _ _ next)
      by (rewrite ?He3, ?Hi3; assumption).
    eexists; split; [reflexivity |]; cbn [trace engine this pending].
    repeat split; try assumption.
    left; split; [exact Hmore |].
    unfold awaiting; cbn [engine this pending]; rewrite Hq3.
    repeat split; try assumption.
    eexists; exists next; repeat split.
    cbn [events set_timeoutId]; rewrite He3; exact Hnext.
Qed.

Lemma runDue_step (fuel n : nat) (w w' : Host) :
  runDue fuel 1 w = Normal w' -> runDue fuel (S n) w = runDue fuel n w'.
Proof.
  simpl; destruct (pending w) as [|t p] eqn:Hq.
  - intros [= <-]; symmetry; now apply runDue_quiet.
  - destruct (fire fuel (timeout_id t) (due t) w); intros H;
      try discriminate; now injection H as ->.
Qed.

Lemma runDue_awaiting (fuel : nat) (n : nat) :
  forall (i : nat) (w : Host),
    (1 <= fuel)%nat ->
    awaiting i w ->
    Forall inert (onEventHandlers (engine w)) ->
    (List.length (events (engine w)) - i <= n)%nat ->
    exists w',
      runDue fuel n w = Normal w'
      /\ trace w'
         = trace w
           ++ deliverAll (onEventHandlers (engine w))
                (indexed i (skipn i (events (engine w))))
      /\ isPlaying (engine w') = false
      /\ pending w' = [].
Proof.
  induction n as [|n IH]; intros i w Hfuel Haw Hinert Hn.
  - destruct Haw as (_ & _ & _ & t & event & _ & Hnth & _).
    assert (i < List.length (events (engine w)))%nat
      by (apply nth_error_Some; congruence).
    lia.
  - destruct (fire_awaiting fuel i w Hfuel Haw Hinert)
      as (w1 & Hrun & Htr & Hevs & Hhs & Hnext).
    rewrite (runDue_step _ _ _ _ Hrun).
    destruct Haw as (_ & _ & _ & t & event & _ & Hnth & _).
    rewrite (skipn_nth_error _ _ _ Hnth); cbn [indexed deliverAll flat_map fst snd].
    destruct Hnext as [[Hmore Haw1] | (Hend & Hp1 & Hq1)].
    + destruct (IH (S i) w1 Hfuel Haw1) as (w' & Hrun' & Htr' & Hp' & Hq').
      * now rewrite Hhs.
      * rewrite Hevs; lia.
      * exists w'; split; [exact Hrun' |].
        rewrite Htr', Htr, Hevs, Hhs, Hnth, <- app_assoc.
        repeat split; assumption.
    + exists w1; split; [now apply runDue_quiet |].
      rewrite skipn_all2 by exact Hend; simpl; rewrite app_nil_r.
      rewrite Htr, Hnth; repeat split; assumption.
Qed.

(** X12.  Playing through.  A paused engine that does not loop, with plain
    consumers, is started and the host runs each timeout when it is due: every
    event from [currentIndex] on is delivered to every consumer, once, in
    array order and with its index, and the engine ends up finished with no
    timeout pending. *)
Theorem play_delivers_remaining_events (fuel : nat) (now : Q) (w : Host) :
  (1 <= fuel)%nat ->
  isPlaying (engine w) = false ->
  pending w = [] ->
  loop (engine w) = false ->
  Forall inert (onEventHandlers (engine w)) ->
  exists w1 w2,
    play fuel now w = Normal w1
    /\ runDue fuel (List.length (events (engine w))) w1 = Normal w2
    /\ trace w2
       = trace w
         ++ deliverAll (onEventHandlers (engine w))
              (indexed (currentIndex (engine w))
                 (skipn (currentIndex (engine w)) (events (engine w))))
    /\ getIsPlaying w2 = false
    /\ pending w2 = [].
Proof.
  intros Hfuel Hp Hq Hl Hinert.
  destruct fuel as [|fuel]; [lia |].
  unfold play; rewrite Hp.
  destruct (Nat.eqb_spec (List.length (events (engine w))) 0) as [Hnone | Hsome].
  - exists w, w; split; [reflexivity |].
    split; [rewrite Hnone; reflexivity |].
    rewrite skipn_all2 by lia; simpl; rewrite app_nil_r.
    repeat split; assumption.
  - set (w1 := this _ (this _ w)).
    assert (H1 : isPlaying (engine w1) = true
                 /\ loop (engine w1) = false
                 /\ events (engine w1) = events (engine w)
                 /\ currentIndex (engine w1) = currentIndex (engine w)
                 /\ onEventHandlers (engine w1) = onEventHandlers (engine w)
                 /\ pending w1 = []
                 /\ trace w1 = trace w)
      by (subst w1; cbn; repeat split; assumption).
    destruct H1 as (Hp1 & Hl1 & He1 & Hi1 & Hh1 & Hq1 & Ht1).
    destruct (Nat.leb_spec (List.length (events (engine w)))
                (currentIndex (engine w))) as [Hend | Hmore].
    + rewrite scheduleNextEvent_finishes by (rewrite ?He1, ?Hi1; assumption).
      do 2 eexists; split; [reflexivity |].
      split; [apply runDue_quiet; exact Hq1 |].
      rewrite skipn_all2 by exact Hend; simpl; rewrite app_nil_r.
      repeat split; assumption.
    + destruct (nth_error (events (engine w)) (currentIndex (engine w)))
        as [event |] eqn:Hnth; [| apply nth_error_None in Hnth; lia].
      rewrite (scheduleNextEvent_schedules _ _ _ event)
        by (rewrite ?He1, ?Hi1; assumption).
      set (w2 := this _ _).
      destruct (runDue_awaiting (S fuel) (List.length (events (engine w)))
                  (currentIndex (engine w)) w2)
        as (w3 & Hrun & Htr & Hdone & Hquiet).
      * lia.
      * unfold awaiting; subst w2; cbn [engine this pending isPlaying loop
          currentIndex events set_timeoutId]; rewrite Hq1.
        repeat split; try assumption.
        eexists; exists event; repeat split.
        rewrite He1; exact Hnth.
      * subst w2; cbn [engine this onEventHandlers set_timeoutId].
        rewrite Hh1; exact Hinert.
      * subst w2; cbn [engine this events set_timeoutId]; rewrite He1; lia.
      * exists w2, w3; split; [reflexivity |].
        split; [exact Hrun |].
        subst w2; cbn [engine this trace onEventHandlers events set_timeoutId]
          in Htr.
        rewrite Hh1, He1, Ht1 in Htr.
        repeat split; assumption.
Qed.

Lemma play_delivers_remaining_events_witness :
  (1 <= 2)%nat
  /\ isPlaying (engine (listeningHost mockEvents)) = false
  /\ pending (listeningHost mockEvents) = []
  /\ loop (engine (listeningHost mockEvents)) = false
  /\ Forall inert (onEventHandlers (engine (listeningHost mockEvents)))
  /\ exists w1 w2,
       play 2 0 (listeningHost mockEvents) = Normal w1
       /\ runDue 2 (List.length (events (engine (listeningHost mockEvents)))) w1
          = Normal w2
       /\ trace w2
          = trace (listeningHost mockEvents)
            ++ deliverAll (onEventHandlers (engine (listeningHost mockEvents)))
                 (indexed (currentIndex (engine (listeningHost mockEvents)))
                    (skipn (currentIndex (engine (listeningHost mockEvents)))
                       (events (engine (listeningHost mockEvents)))))
       /\ getIsPlaying w2 = false
       /\ pending w2 = [].
Proof.
  split; [lia |].
  split; [reflexivity |].
  split; [reflexivity |].
  split; [reflexivity |].
  split; [repeat constructor |].
  apply (play_delivers_remaining_events 2 0 (listeningHost mockEvents)).
  - lia.
  - reflexivity.
  - reflexivity.
  - reflexivity.
  - repeat constructor.
Defined.

(** *** Timing *)

Lemma scale_nonpos (x s : Q) : 0 < s -> x <= 0 -> x / s <= 0.
Proof.
  intros Hs Hx; unfold Qdiv.
  setoid_replace 0 with (0 * / s) by ring.
  apply Qmult_le_compat_r; [exact Hx |].
  apply Qinv_le_0_compat; lra.
Qed.

Lemma scale_nonneg (x s : Q) : 0 < s -> 0 <= x -> 0 <= x / s.
Proof.
  intros Hs Hx; unfold Qdiv.
  apply Qmult_le_0_compat; [exact Hx |].
  apply Qinv_le_0_compat; lra.
Qed.

Lemma due_reading (now st s te : Q) :
  0 < s ->
  (now + Qmax 0 ((te - (now - st) * s) / s) - st) * s
  == Qmax ((now - st) * s) te.
Proof.
  intros Hs.
  destruct (Qlt_le_dec ((now - st) * s) te) as [Hearly | Hlate].
  - rewrite (Q.max_r ((now - st) * s) te) by lra.
    rewrite (Q.max_r 0 ((te - (now - st) * s) / s))
      by (apply scale_nonneg; lra).
    field; lra.
  - rewrite (Q.max_l ((now - st) * s) te) by exact Hlate.
    rewrite (Q.max_l 0 ((te - (now - st) * s) / s))
      by (apply scale_nonpos; lra).
    ring.
Qed.

(** Timing in exact arithmetic.  On a playing engine with a positive speed
    and an event left to deliver, [scheduleNextEvent] adds one timeout that
    has captured that event and is due, never before now, at the wall time
    at which the engine's clock reads the event's time; when the event is
    already overdue it is due at once. *)
Theorem timeout_due_when_clock_reaches_event
    (fuel : nat) (now : Q) (w : Host) (event : KakiatoEvent) :
  isPlaying (engine w) = true ->
  0 < speed (engine w) ->
  nth_error (events (engine w)) (currentIndex (engine w)) = Some event ->
  exists w' t,
    scheduleNextEvent (S fuel) now w = Normal w'
    /\ pending w' = pending w ++ [t]
    /\ captured t = Some event
    /\ now <= due t
    /\ getCurrentTime (due t) w'
       == Qmax (getCurrentTime now w) (event_time event).
Proof.
  intros Hp Hs Hnth.
  rewrite (scheduleNextEvent_schedules fuel now w event Hp Hnth).
  do 2 eexists; split; [reflexivity |].
  cbn [pending this]; split; [reflexivity |].
  cbn [captured due]; split; [reflexivity |].
  split.
  - pose proof (Q.le_max_l 0
                  ((event_time event - (now - startTime (engine w)) * speed (engine w))
                   / speed (engine w))).
    lra.
  - unfold getCurrentTime; cbn [engine this isPlaying set_timeoutId startTime speed].
    rewrite Hp; now apply due_reading.
Qed.

Lemma timeout_due_when_clock_reaches_event_witness :
  let w := loadEvents [at_ 0; at_ 300] (constructor (Some 2) None) in
  let playing := this (fun e => set_currentIndex e 1%nat)
                   (this (fun e => set_isPlaying e true) w) in
  0 < speed (engine playing)
  /\ exists w' t,
       scheduleNextEvent 1 0 playing = Normal w'
       /\ pending w' = pending playing ++ [t]
       /\ captured t = Some (at_ 300)
       /\ 0 <= due t
       /\ getCurrentTime (due t) w'
          == Qmax (getCurrentTime 0 playing) (event_time (at_ 300)).
Proof.
  intros w playing.
  split; [reflexivity |].
  apply (timeout_due_when_clock_reaches_event 0 0 playing (at_ 300)).
  - reflexivity.
  - reflexivity.
  - reflexivity.
Defined.

(** *** Changing the speed *)

Lemma scheduleNextEvent_keeps_speed (fuel : nat) (now : Q) :
  forall (w w' : Host),
    scheduleNextEvent fuel now w = Normal w' ->
    speed (engine w') = speed (engine w).
Proof.
  induction fuel as [|fuel IH]; intros w w' Hrun; simpl in Hrun;
    [discriminate |].
  destruct (isPlaying (engine w)); simpl in Hrun.
  - destruct (List.length (events (engine w)) <=? currentIndex (engine w))%nat.
    + destruct (loop (engine w)).
      * apply IH in Hrun; exact Hrun.
      * now injection Hrun as <-.
    + destruct (nth_error (events (engine w)) (currentIndex (engine w)));
        [now injection Hrun as <- | discriminate].
  - now injection Hrun as <-.
Qed.

Lemma play_keeps_speed (fuel : nat) (now : Q) (w w' : Host) :
  play fuel now w = Normal w' -> speed (engine w') = speed (engine w).
Proof.
  unfold play.
  destruct (isPlaying (engine w)); [now intros [= <-] |].
  destruct (List.length (events (engine w)) =? 0)%nat; [now intros [= <-] |].
  intros H; apply scheduleNextEvent_keeps_speed in H; exact H.
Qed.

(** No jump, in exact arithmetic.  [setSpeed(s)] with a positive [s]
    returns with the new speed in place and the clock reading what it read
    before the call, whether the engine was playing or not, unless it loops
    and has delivered its whole sequence.  With the rounding of the host:
    [setSpeed_keeps_time_up_to_rounding]. *)
Theorem setSpeed_keeps_current_time (fuel : nat) (s now : Q) (w : Host) :
  (1 <= fuel)%nat ->
  0 < s ->
  atEndOfLoop w = false ->
  exists w',
    setSpeed fuel s now w = Normal w'
    /\ getSpeed w' = s
    /\ getCurrentTime now w' == getCurrentTime now w.
Proof.
  intros Hfuel Hs Hend; unfold setSpeed.
  destruct (Qle_bool s 0) eqn:Hle;
    [apply Qle_bool_iff in Hle; lra |].
  destruct (isPlaying (engine w)) eqn:Hp.
  - set (w2 := this _ (pause now w)).
    destruct (play_from_paused fuel now w2) as (w' & Hplay & Hread).
    + exact Hfuel.
    + subst w2; cbn; apply pause_not_playing.
    + subst w2; cbn; exact Hs.
    + subst w2; unfold atEndOfLoop in *; cbn.
      destruct (pause_frame now w) as (-> & -> & -> & _); exact Hend.
    + exists w'; split; [exact Hplay |]; split.
      * unfold getSpeed; rewrite (play_keeps_speed _ _ _ _ Hplay); reflexivity.
      * rewrite Hread, <- (pause_freezes_time now w).
        unfold getCurrentTime at 1; rewrite pause_not_playing; reflexivity.
  - eexists; split; [reflexivity |]; split; [reflexivity |].
    unfold getCurrentTime; cbn; rewrite Hp; reflexivity.
Qed.

Lemma setSpeed_keeps_current_time_witness :
  (1 <= 2)%nat
  /\ 0 < 3
  /\ atEndOfLoop (started (listeningHost mockEvents)) = false
  /\ exists w',
       setSpeed 2 3 50 (started (listeningHost mockEvents)) = Normal w'
       /\ getSpeed w' = 3
       /\ getCurrentTime 50 w'
          == getCurrentTime 50 (started (listeningHost mockEvents)).
Proof.
  split; [lia |].
  split; [reflexivity |].
  split; [reflexivity |].
  apply (setSpeed_keeps_current_time 2 3 50 (started (listeningHost mockEvents))).
  - lia.
  - reflexivity.
  - reflexivity.
Defined.

(** *** Subscribing and unsubscribing *)

(** X15.  [offEvent] undoes [onEvent]: registering a handler that is not yet
    registered and removing it again gives back the very same host. *)
Theorem offEvent_undoes_onEvent (handler : PlaybackEventHandler) (w : Host) :
  ~ In (hid handler) (map hid (onEventHandlers (engine w))) ->
  offEvent (hid handler) (onEvent handler w) = w.
Proof.
  intros Hfresh; rewrite offEvent_eq; unfold onEvent, this; simpl.
  rewrite withoutFirst_later by exact Hfresh; simpl.
  rewrite Nat.eqb_refl, app_nil_r.
  destruct w as [[evs i playing s l tid st pa hs] p n tr]; reflexivity.
Qed.

Lemma offEvent_undoes_onEvent_witness :
  ~ In (hid (listener 9))
      (map hid (onEventHandlers (engine (listeningHost mockEvents))))
  /\ offEvent (hid (listener 9)) (onEvent (listener 9) (listeningHost mockEvents))
     = listeningHost mockEvents.
Proof.
  split; [simpl; intros [H | []]; discriminate |].
  apply (offEvent_undoes_onEvent (listener 9) (listeningHost mockEvents)).
  simpl; intros [H | []]; discriminate.
Defined.

(** [offEvent] with a handler that is not registered changes nothing. *)
Lemma offEvent_absent (id : HandlerId) (w : Host) :
  ~ In id (map hid (onEventHandlers (engine w))) -> offEvent id w = w.
Proof.
  intros Hfresh; rewrite offEvent_eq; unfold this.
  rewrite withoutFirst_absent by exact Hfresh.
  destruct w as [[evs i playing s l tid st pa hs] p n tr]; reflexivity.
Qed.

(** *** Duration *)

Lemma last_ascending (evs : list KakiatoEvent) (e : KakiatoEvent) :
  timeAscending evs -> In e evs ->
  match last (map Some evs) None with
  | Some final => event_time e <= event_time final
  | None => False
  end.
Proof.
  revert e; induction evs as [|e0 evs IH]; intros e Hasc Hin; [contradiction |].
  destruct Hasc as [Hle Hasc].
  destruct evs as [|e1 evs].
  - destruct Hin as [<- | []]; simpl; apply Qle_refl.
  - change (last (map Some (e0 :: e1 :: evs)) None)
      with (last (map Some (e1 :: evs)) None).
    destruct Hin as [<- | Hin]; [| now apply IH].
    specialize (IH e1 Hasc (or_introl eq_refl)).
    destruct (last (map Some (e1 :: evs)) None) as [final |]; [| contradiction].
    inversion Hle as [|? ? H01 _]; subst.
    now apply Qle_trans with (event_time e1).
Qed.

(** X16.  On an array whose times ascend [getDuration()] bounds the time of every
    loaded event. *)
Theorem getDuration_bounds_every_event (w : Host) (event : KakiatoEvent) :
  timeAscending (events (engine w)) ->
  In event (events (engine w)) ->
  event_time event <= getDuration w.
Proof.
  intros Hasc Hin; unfold getDuration.
  pose proof (last_ascending _ _ Hasc Hin) as H.
  destruct (last (map Some (events (engine w))) None); [exact H | contradiction].
Qed.

Lemma getDuration_bounds_every_event_witness :
  timeAscending (events (engine (listeningHost [at_ 0; at_ 100; at_ 100])))
  /\ In (at_ 100) (events (engine (listeningHost [at_ 0; at_ 100; at_ 100])))
  /\ event_time (at_ 100) <= getDuration (listeningHost [at_ 0; at_ 100; at_ 100]).
Proof.
  assert (Hasc : timeAscending [at_ 0; at_ 100; at_ 100]).
  { simpl; repeat split; repeat constructor; vm_compute; discriminate. }
  split; [exact Hasc |].
  split; [simpl; tauto |].
  apply (getDuration_bounds_every_event (listeningHost [at_ 0; at_ 100; at_ 100])
           (at_ 100)).
  - exact Hasc.
  - simpl; tauto.
Defined.

(** *** Loops *)

(** X17.  A looping engine left without events.  When [loadEvents([])] is called
    on a looping engine while it is playing, the timeout that is still
    pending ends in [scheduleNextEvent] wrapping around an empty sequence:
    the method calls itself again and again, for every depth the model is
    given. *)
Theorem empty_reload_on_looping_engine_never_returns
    (fuel : nat) (w : Host) (t : Timeout) :
  loop (engine w) = true ->
  isPlaying (engine w) = true ->
  pending w = [t] ->
  Forall inert (onEventHandlers (engine w)) ->
  fire fuel (timeout_id t) (due t) (loadEvents [] w) = CallStackExhausted.
Proof.
  intros Hl Hp Hpend Hinert.
  unfold fire; cbn [loadEvents this pending]; rewrite Hpend; simpl find.
  rewrite Nat.eqb_refl.
  rewrite (proj2 (Qle_bool_iff (due t) (due t)) (Qle_refl _)).
  unfold onTimeout.
  rewrite emitEvent_inert by exact Hinert.
  apply scheduleNextEvent_unbounded; cbn; first [reflexivity | assumption].
Qed.

Lemma empty_reload_on_looping_engine_never_returns_witness :
  let w := started (loadEvents [at_ 0]
                      (onEvent (listener 7) (constructor None (Some true)))) in
  loop (engine w) = true
  /\ isPlaying (engine w) = true
  /\ pending w = [mkTimeout 1 0 (Some (at_ 0))]
  /\ fire 5 1 0 (loadEvents [] w) = CallStackExhausted.
Proof.
  intros w.
  split; [reflexivity |].
  split; [reflexivity |].
  split; [reflexivity |].
  apply (empty_reload_on_looping_engine_never_returns 5 w
           (mkTimeout 1 0 (Some (at_ 0)))).
  - reflexivity.
  - reflexivity.
  - reflexivity.
  - repeat constructor.
Defined.

(** *** Starting *)

(** [play()] on a paused engine that does not loop delivers nothing by
    itself: it leaves the engine waiting for the event at [currentIndex], or
    not playing when there is none. *)
Lemma play_starts (fuel : nat) (now : Q) (w : Host) :
  (1 <= fuel)%nat ->
  isPlaying (engine w) = false ->
  pending w = [] ->
  loop (engine w) = false ->
  exists w1,
    play fuel now w = Normal w1
    /\ trace w1 = trace w
    /\ events (engine w1) = events (engine w)
    /\ onEventHandlers (engine w1) = onEventHandlers (engine w)
    /\ (awaiting (currentIndex (engine w)) w1
        \/ (List.length (events (engine w)) <= currentIndex (engine w))%nat
           /\ isPlaying (engine w1) = false
           /\ pending w1 = []).
Proof.
  intros Hfuel Hp Hq Hl.
  destruct fuel as [|fuel]; [lia |].
  unfold play; rewrite Hp.
  destruct (Nat.eqb_spec (List.length (events (engine w))) 0) as [Hnone | Hsome].
  - exists w; repeat split; right; repeat split; try assumption; lia.
  - set (w1 := this _ (this _ w)).
    assert (H1 : isPlaying (engine w1) = true
                 /\ loop (engine w1) = false
                 /\ events (engine w1) = events (engine w)
                 /\ currentIndex (engine w1) = currentIndex (engine w)
                 /\ onEventHandlers (engine w1) = onEventHandlers (engine w)
                 /\ pending w1 = []
                 /\ trace w1 = trace w)
      by (subst w1; cbn; repeat split; assumption).
    destruct H1 as (Hp1 & Hl1 & He1 & Hi1 & Hh1 & Hq1 & Ht1).
    destruct (Nat.leb_spec (List.length (events (engine w)))
                (currentIndex (engine w))) as [Hend | Hmore].
    + rewrite scheduleNextEvent_finishes by (rewrite ?He1, ?Hi1; assumption).
      eexists; split; [reflexivity |]; cbn [trace engine this pending].
      repeat split; try assumption.
      right; repeat split; assumption.
    + destruct (nth_error (events (engine w)) (currentIndex (engine w)))
        as [event |] eqn:Hnth; [| apply nth_error_None in Hnth; lia].
      rewrite (scheduleNextEvent_schedules _ _ _ event)
        by (rewrite ?He1, ?Hi1; assumption).
      eexists; split; [reflexivity |]; cbn [trace engine this pending].
      repeat split; try assumption.
      left; unfold awaiting; cbn [engine this pending isPlaying loop
        currentIndex events set_timeoutId]; rewrite Hq1.
      repeat split; try assumption.
      eexists; exists event; repeat split.
      rewrite He1; exact Hnth.
Qed.

(** The timeout a waiting engine has pending, run when it is due. *)
Lemma fire_due_awaiting (fuel : nat) (i : nat) (w : Host) :
  (1 <= fuel)%nat ->
  awaiting i w ->
  Forall inert (onEventHandlers (engine w)) ->
  exists t event w',
    pending w = [t]
    /\ nth_error (events (engine w)) i = Some event
    /\ fire fuel (timeout_id t) (due t) w = Normal w'
    /\ trace w' = trace w ++ deliveries (onEventHandlers (engine w)) (Some event) i
    /\ events (engine w') = events (engine w)
    /\ onEventHandlers (engine w') = onEventHandlers (engine w)
    /\ ((S i < List.length (events (engine w)))%nat /\ awaiting (S i) w'
        \/ (List.length (events (engine w)) <= S i)%nat
           /\ isPlaying (engine w') = false
           /\ pending w' = []).
Proof.
  intros Hfuel Haw Hinert.
  destruct (fire_awaiting fuel i w Hfuel Haw Hinert)
    as (w' & Hrun & Htr & Hevs & Hhs & Hnext).
  destruct Haw as (_ & _ & _ & t & event & Hpend & Hnth & _).
  exists t, event, w'; split; [exact Hpend |]; split; [exact Hnth |].
  simpl in Hrun; rewrite Hpend in Hrun.
  destruct (fire fuel (timeout_id t) (due t) w) as [w0 | |]; try discriminate.
  injection Hrun as ->.
  rewrite Hnth in Htr; repeat split; assumption.
Qed.

(** *** Delivery and seeking, in general *)

(** X18.  With plain consumers only, delivering an event calls every registered
    handler once, in registration order, with the event and its index, and
    changes nothing else of the engine or the host. *)
Theorem delivery_reaches_every_consumer event index now (w : Host) :
  Forall inert (onEventHandlers (engine w)) ->
  emitEvent event index now w
  = traced (deliveries (onEventHandlers (engine w)) event index) w.
Proof. apply emitEvent_inert. Qed.

Lemma delivery_reaches_every_consumer_witness :
  let w := onEvent (listener 3) (onEvent (listener 2) (constructor None None)) in
  Forall inert (onEventHandlers (engine w))
  /\ trace (emitEvent (Some (at_ 5)) 4 0 w)
     = [mkDelivery 2 (Some (at_ 5)) 4; mkDelivery 3 (Some (at_ 5)) 4].
Proof.
  intros w.
  split; [repeat constructor |].
  rewrite (delivery_reaches_every_consumer (Some (at_ 5)) 4%nat 0 w);
    [reflexivity | repeat constructor].
Defined.

(** X19.  A handler that removes, during a delivery, a handler registered after
    itself does not disturb the delivery: every other handler that was
    registered when the delivery began is called exactly once, the removed
    one is not called. *)
Theorem removing_a_later_handler_is_safe
    (pre p1 p2 : list PlaybackEventHandler) (a b : PlaybackEventHandler)
    event index now (w : Host) :
  onEventHandlers (engine w) = pre ++ a :: p1 ++ b :: p2 ->
  NoDup (map hid (onEventHandlers (engine w))) ->
  body a = [CallOffEvent (hid b)] ->
  Forall inert pre -> Forall inert p1 -> Forall inert p2 ->
  exists extra,
    trace (emitEvent event index now w) = trace w ++ extra
    /\ (forall h, In h (onEventHandlers (engine w)) -> hid h <> hid b ->
                  invocations (hid h) extra = 1%nat)
    /\ invocations (hid b) extra = 0%nat.
Proof. apply removing_later_handler_keeps_delivery. Qed.

Lemma removing_a_later_handler_is_safe_witness :
  let remover := mkHandler 1 [CallOffEvent 3] in
  let w := onEvent (listener 4)
             (onEvent (listener 3)
                (onEvent (listener 2)
                   (onEvent remover (constructor None None)))) in
  onEventHandlers (engine w) = [] ++ remover :: [listener 2] ++ listener 3 :: [listener 4]
  /\ NoDup (map hid (onEventHandlers (engine w)))
  /\ exists extra,
       trace (emitEvent (Some (at_ 0)) 0 0 w) = trace w ++ extra
       /\ (forall h, In h (onEventHandlers (engine w)) -> hid h <> hid (listener 3) ->
                     invocations (hid h) extra = 1%nat)
       /\ invocations (hid (listener 3)) extra = 0%nat.
Proof.
  intros remover w.
  assert (Hnd : NoDup (map hid (onEventHandlers (engine w))))
    by (repeat constructor; simpl; intuition discriminate).
  split; [reflexivity |].
  split; [exact Hnd |].
  apply (removing_a_later_handler_is_safe [] [listener 2] [listener 4]
           remover (listener 3) (Some (at_ 0)) 0%nat 0 w).
  - reflexivity.
  - exact Hnd.
  - reflexivity.
  - constructor.
  - repeat constructor.
  - repeat constructor.
Defined.

(** X20.  [seek(t)] on a paused engine with plain consumers, when the times
    ascend and the first event is not after [t]: exactly the events with
    [time <= t] are delivered, to every consumer, in array order and with
    their indices; the clock then reads exactly [t], and [currentIndex] is the
    index of the last event delivered. *)
Theorem seek_replays_events_up_to
    (fuel : nat) (t now : Q) (w : Host) (first : KakiatoEvent)
    (others : list KakiatoEvent) :
  isPlaying (engine w) = false ->
  Forall inert (onEventHandlers (engine w)) ->
  events (engine w) = first :: others ->
  timeAscending (events (engine w)) ->
  event_time first <= t ->
  exists w',
    seek fuel t now w = Normal w'
    /\ trace w'
       = trace w
         ++ deliverAll (onEventHandlers (engine w))
              (indexed 0 (filter (notAfter t) (events (engine w))))
    /\ getCurrentTime now w' = t
    /\ S (getCurrentIndex w')
       = List.length (filter (notAfter t) (events (engine w))).
Proof. apply seek_delivers_events_not_after. Qed.

Lemma seek_replays_events_up_to_witness :
  let w := listeningHost [at_ 0; at_ 100; at_ 200] in
  timeAscending (events (engine w))
  /\ event_time (at_ 0) <= 150
  /\ exists w',
       seek 2 150 0 w = Normal w'
       /\ trace w'
          = trace w
            ++ deliverAll (onEventHandlers (engine w))
                 (indexed 0 (filter (notAfter 150) (events (engine w))))
       /\ getCurrentTime 0 w' = 150
       /\ S (getCurrentIndex w')
          = List.length (filter (notAfter 150) (events (engine w))).
Proof.
  intros w.
  assert (Hasc : timeAscending (events (engine w)))
    by (simpl; repeat split; repeat constructor; vm_compute; discriminate).
  split; [exact Hasc |].
  split; [vm_compute; discriminate |].
  apply (seek_replays_events_up_to 2 150 0 w (at_ 0) [at_ 100; at_ 200]).
  - reflexivity.
  - repeat constructor.
  - reflexivity.
  - exact Hasc.
  - vm_compute; discriminate.
Defined.

End EngineLaws.

(* ------------------------------------------------------------------ *)
(** ** Properties of the player *)

Module PlayerFacts.

Import Types EngineSpec EngineLawSpec.
Open Scope Q_scope.

Lemma skipn_length_app {A : Type} (l r : list A) :
  skipn (List.length l) (l ++ r) = r.
Proof. induction l as [|x l IH]; simpl; [reflexivity | exact IH]. Qed.

Lemma deliveredSince_extra (before after : Engine.Host)
    (extra : list Engine.Delivery) :
  Engine.trace after = Engine.trace before ++ extra ->
  Player.deliveredSince before after = map Engine.delivered_event extra.
Proof.
  intros H; unfold Player.deliveredSince; now rewrite H, skipn_length_app.
Qed.

Lemma delivered_to_subscriber (pairs : list (option KakiatoEvent * nat)) :
  map Engine.delivered_event (deliverAll [Player.subscriber] pairs)
  = map fst pairs.
Proof.
  unfold deliverAll.
  induction pairs as [|p pairs IH]; [reflexivity |].
  cbn [flat_map]; rewrite map_app, IH; reflexivity.
Qed.

Lemma subscriber_inert : Forall inert [Player.subscriber].
Proof. repeat constructor. Qed.


(** *** Seeking *)

(** X22.  [seek] on a player whose engine has no events throws: the engine
    delivers [events[0]], which is [undefined], and the player's callback
    hands it to [applyEvent].  This is the case before any document is
    loaded and after an empty document is loaded. *)
Theorem seek_without_events_throws
    (fuel : nat) (timeMs now : Q) (p : Player.KakiatoPlayer) :
  Player.subscribed p ->
  Engine.events (Engine.engine (Player.host p)) = [] ->
  Player.seek fuel timeMs now p
  = Player.Threw
      "TypeError: Cannot read properties of undefined (reading 'type')".
Proof.
  unfold Player.subscribed, Player.seek, Engine.seek; intros Hsub Hevs.
  destruct (EngineFacts.pause_frame now (Player.host p))
    as (He & Hi & Hl & Hs & Hh & Ht).
  rewrite EngineFacts.replay_inert
    by (cbn; rewrite Hh, Hsub; exact subscriber_inert).
  cbn [Engine.engine Engine.this Engine.events Engine.set_pausedAt
       Engine.set_currentIndex Engine.onEventHandlers].
  rewrite He, Hevs, Hh, Hsub; cbn [Engine.seekTarget].
  set (w3 := traced _ _).
  assert (Htrace : Engine.trace w3
                   = Engine.trace (Player.host p)
                     ++ [Engine.mkDelivery 0 None 0])
    by (subst w3; cbn; now rewrite Ht).
  assert (Hplay : Engine.play fuel now w3 = Engine.Normal w3).
  { unfold Engine.play.
    replace (Engine.isPlaying (Engine.engine w3)) with false
      by (subst w3; cbn; symmetry; apply EngineFacts.pause_not_playing).
    replace (Engine.events (Engine.engine w3)) with (@nil KakiatoEvent)
      by (subst w3; cbn; now rewrite He, Hevs).
    reflexivity. }
  assert (Hend : (if Engine.isPlaying (Engine.engine (Player.host p))
                  then Engine.play fuel now w3 else Engine.Normal w3)
                 = Engine.Normal w3)
    by (destruct (Engine.isPlaying _); [exact Hplay | reflexivity]).
  rewrite Hend; unfold Player.settle.
  now rewrite (deliveredSince_extra _ _ _ Htrace).
Qed.

Lemma seek_without_events_throws_witness :
  Player.subscribed (Player.constructor None)
  /\ Engine.events (Engine.engine (Player.host (Player.constructor None))) = []
  /\ Player.seek 2 0 0 (Player.constructor None)
     = Player.Threw
         "TypeError: Cannot read properties of undefined (reading 'type')".
Proof.
  split; [reflexivity |].
  split; [reflexivity |].
  apply (seek_without_events_throws 2 0 0 (Player.constructor None));
    reflexivity.
Defined.

Lemma seek_paused_player
    (fuel : nat) (timeMs now : Q) (p : Player.KakiatoPlayer)
    (first : KakiatoEvent) (others : list KakiatoEvent) :
  Player.subscribed p ->
  Engine.isPlaying (Engine.engine (Player.host p)) = false ->
  Engine.events (Engine.engine (Player.host p)) = first :: others ->
  timeAscending (first :: others) ->
  event_time first <= timeMs ->
  exists p',
    Player.seek fuel timeMs now p = Player.Returned p'
    /\ Player.stateReconstructor p'
       = State.applyEvents (filter (notAfter timeMs) (first :: others))
           (Player.stateReconstructor p)
    /\ Engine.getCurrentTime now (Player.host p') = timeMs.
Proof.
  unfold Player.subscribed, Player.seek; intros Hsub Hp Hevs Hasc Hfirst.
  destruct (EngineFacts.seek_delivers_events_not_after fuel timeMs now
              (Player.host p) first others)
    as (w' & Hseek & Htrace & Htime & _); auto.
  - rewrite Hsub; exact subscriber_inert.
  - now rewrite Hevs.
  - rewrite Hseek; unfold Player.settle.
    rewrite (deliveredSince_extra _ _ _ Htrace), Hsub, delivered_to_subscriber.
    rewrite EngineFacts.replayInto_indexed, Hevs.
    eexists; split; [reflexivity |]; split; [reflexivity | exact Htime].
Qed.

(** X23.  [seek] does not start from the initial snapshot.  On a paused player
    whose events ascend in time and begin at or before [t], [seek(t)] applies
    the events with [time <= t], in order, on top of whatever state the
    reconstructor is in, and sets the clock to [t]. *)
Theorem seek_applies_events_to_current_state
    (fuel : nat) (timeMs now : Q) (p : Player.KakiatoPlayer)
    (first : KakiatoEvent) (others : list KakiatoEvent) :
  Player.subscribed p ->
  Engine.isPlaying (Engine.engine (Player.host p)) = false ->
  Engine.events (Engine.engine (Player.host p)) = first :: others ->
  timeAscending (first :: others) ->
  event_time first <= timeMs ->
  exists p',
    Player.seek fuel timeMs now p = Player.Returned p'
    /\ Player.textState (Player.getState now p')
       = State.applyEvents (filter (notAfter timeMs) (first :: others))
           (Player.textState (Player.getState now p))
    /\ Player.currentTime (Player.getState now p') = timeMs.
Proof. apply seek_paused_player. Qed.

(** X24.  After [stop()], [seek(t)] shows the document as it was at [t]: the
    state obtained from the initial text by the events with [time <= t]. *)
Theorem stop_then_seek_reconstructs
    (fuel : nat) (timeMs now later : Q) (p : Player.KakiatoPlayer)
    (doc : Player.KakiatoDocument)
    (first : KakiatoEvent) (others : list KakiatoEvent) :
  Player.subscribed p ->
  Player.document p = Some doc ->
  Engine.events (Engine.engine (Player.host p)) = first :: others ->
  timeAscending (first :: others) ->
  event_time first <= timeMs ->
  exists p',
    Player.seek fuel timeMs later (Player.stop now p) = Player.Returned p'
    /\ Player.textState (Player.getState later p')
       = State.applyEvents (filter (notAfter timeMs) (first :: others))
           (State.reset (Player.initial_text doc))
    /\ Player.currentTime (Player.getState later p') = timeMs.
Proof.
  intros Hsub Hdoc Hevs Hasc Hfirst.
  destruct (EngineFacts.pause_frame now (Player.host p))
    as (He & Hi & Hl & Hs & Hh & Ht).
  destruct (seek_paused_player fuel timeMs later (Player.stop now p) first others)
    as (p' & Hseek & Hstate & Htime); auto.
  - unfold Player.subscribed, Player.stop; rewrite Hdoc; cbn.
    rewrite Hh; exact Hsub.
  - unfold Player.stop; rewrite Hdoc; cbn.
    apply EngineFacts.pause_not_playing.
  - unfold Player.stop; rewrite Hdoc; cbn. now rewrite He.
  - exists p'; split; [exact Hseek |]; split; [| exact Htime].
    cbn; rewrite Hstate; unfold Player.stop; rewrite Hdoc; reflexivity.
Qed.

(** *** Playing a document through *)

Lemma timeoutsRun_quiet (fuel n : nat) (p : Player.KakiatoPlayer) :
  Engine.pending (Player.host p) = [] ->
  Player.timeoutsRun fuel n p = Player.Returned p.
Proof. intros H; destruct n; simpl; [reflexivity | now rewrite H]. Qed.

Lemma timeoutsRun_awaiting (fuel : nat) (n : nat) :
  forall (i : nat) (p : Player.KakiatoPlayer),
    (1 <= fuel)%nat ->
    Player.subscribed p ->
    awaiting i (Player.host p) ->
    (List.length (Engine.events (Engine.engine (Player.host p))) - i <= n)%nat ->
    exists p',
      Player.timeoutsRun fuel n p = Player.Returned p'
      /\ Player.stateReconstructor p'
         = State.applyEvents
             (skipn i (Engine.events (Engine.engine (Player.host p))))
             (Player.stateReconstructor p)
      /\ Engine.isPlaying (Engine.engine (Player.host p')) = false.
Proof.
  induction n as [|n IH]; intros i p Hfuel Hsub Haw Hn.
  - destruct Haw as (_ & _ & _ & t & event & _ & Hnth & _).
    assert (i < List.length (Engine.events (Engine.engine (Player.host p))))%nat
      by (apply nth_error_Some; congruence).
    lia.
  - unfold Player.subscribed in Hsub.
    destruct (EngineLaws.fire_due_awaiting fuel i (Player.host p) Hfuel Haw)
      as (t & event & w' & Hpend & Hnth & Hfire & Htr & Hevs & Hhs & Hnext).
    { rewrite Hsub; exact subscriber_inert. }
    cbn [Player.timeoutsRun]; rewrite Hpend, Hfire.
    unfold Player.settle.
    rewrite (deliveredSince_extra _ _ _ Htr), Hsub; cbn [deliveries map
      Engine.delivered_event replayInto].
    rewrite (EngineLaws.skipn_nth_error _ _ _ Hnth).
    change (State.applyEvents (event :: ?l) ?s)
      with (State.applyEvents l (State.applyEvent event s)).
    set (p1 := Player.mkPlayer _ w' _).
    destruct Hnext as [[Hmore Haw1] | (Hend & Hp1 & Hq1)].
    + destruct (IH (S i) p1 Hfuel) as (p' & Hrun & Hstate & Hdone).
      * unfold Player.subscribed; subst p1; cbn; now rewrite Hhs.
      * exact Haw1.
      * subst p1; cbn; rewrite Hevs; lia.
      * exists p'; split; [exact Hrun |]; split; [| exact Hdone].
        rewrite Hstate; subst p1; cbn; now rewrite Hevs.
    + exists p1; split; [apply timeoutsRun_quiet; exact Hq1 |].
      rewrite skipn_all2 by exact Hend; split; [reflexivity | exact Hp1].
Qed.

(** X25.  Loading a document into a player at rest, playing it and letting the
    host run every timeout when it is due ends with the reconstructor in the
    state obtained from the document's initial text by all its events in
    order, and with the player no longer playing. *)
Theorem playing_through_reconstructs_document
    (fuel : nat) (now later : Q) (doc : Player.KakiatoDocument)
    (p : Player.KakiatoPlayer) :
  (1 <= fuel)%nat ->
  Player.subscribed p ->
  Engine.isPlaying (Engine.engine (Player.host p)) = false ->
  Engine.pending (Player.host p) = [] ->
  Engine.loop (Engine.engine (Player.host p)) = false ->
  exists p1 p2,
    Player.play fuel now (Player.load doc p) = Player.Returned p1
    /\ Player.timeoutsRun fuel (List.length (Player.events doc)) p1
       = Player.Returned p2
    /\ Player.textState (Player.getState later p2)
       = State.applyEvents (Player.events doc)
           (State.reset (Player.initial_text doc))
    /\ Player.isPlaying (Player.getState later p2) = false.
Proof.
  intros Hfuel Hsub Hp Hq Hl.
  unfold Player.play; cbn [Player.load Player.document Player.host].
  destruct (EngineLaws.play_starts fuel now
              (Engine.loadEvents (Player.events doc) (Player.host p)))
    as (w1 & Hplay & Htr & Hevs & Hhs & Hnext); auto.
  rewrite Hplay; unfold Player.settle.
  rewrite (deliveredSince_extra _ w1 []) by (now rewrite app_nil_r).
  cbn [map replayInto Player.document Player.host Player.stateReconstructor].
  set (p1 := Player.mkPlayer _ w1 _).
  cbn in Hevs, Hhs, Hnext.
  destruct Hnext as [Haw | (Hend & Hp1 & Hq1)].
  - destruct (timeoutsRun_awaiting fuel (List.length (Player.events doc)) 0 p1)
      as (p2 & Hrun & Hstate & Hdone); auto.
    + unfold Player.subscribed; subst p1; cbn; now rewrite Hhs.
    + subst p1; cbn; rewrite Hevs; lia.
    + exists p1, p2; split; [reflexivity |]; split; [exact Hrun |].
      cbn; split; [| exact Hdone].
      rewrite Hstate; subst p1; cbn; now rewrite Hevs.
  - exists p1, p1; split; [reflexivity |].
    split; [apply timeoutsRun_quiet; exact Hq1 |].
    cbn; split; [| exact Hp1].
    destruct (Player.events doc); [reflexivity | simpl in Hend; lia].
Qed.

Lemma playing_through_reconstructs_document_witness :
  let doc := Player.mkDocument EmptyString
               (StateLawSpec.typed [(0, "h"%string); (100, "i"%string)]) in
  (1 <= 2)%nat
  /\ Player.subscribed (Player.constructor None)
  /\ exists p1 p2,
       Player.play 2 0 (Player.load doc (Player.constructor None))
       = Player.Returned p1
       /\ Player.timeoutsRun 2 (List.length (Player.events doc)) p1
          = Player.Returned p2
       /\ Player.textState (Player.getState 500 p2)
          = State.applyEvents (Player.events doc)
              (State.reset (Player.initial_text doc))
       /\ Player.isPlaying (Player.getState 500 p2) = false.
Proof.
  intros doc.
  split; [lia |].
  split; [reflexivity |].
  apply (playing_through_reconstructs_document 2 0 500 doc
           (Player.constructor None)).
  - lia.
  - reflexivity.
  - reflexivity.
  - reflexivity.
  - reflexivity.
Defined.

Lemma seek_applies_events_to_current_state_witness :
  let evs := StateLawSpec.typed [(0, "h"%string); (100, "i"%string)] in
  let p := Player.load (Player.mkDocument EmptyString evs)
             (Player.constructor None) in
  Player.subscribed p
  /\ timeAscending evs
  /\ exists p',
       Player.seek 2 50 0 p = Player.Returned p'
       /\ Player.textState (Player.getState 0 p')
          = State.applyEvents (filter (notAfter 50) evs)
              (Player.textState (Player.getState 0 p))
       /\ Player.currentTime (Player.getState 0 p') = 50.
Proof.
  intros evs p.
  assert (Hasc : timeAscending evs)
    by (simpl; repeat split; repeat constructor; vm_compute; discriminate).
  split; [reflexivity |].
  split; [exact Hasc |].
  apply (seek_applies_events_to_current_state 2 50 0 p
           (StateSpec.deltaOnly (mkBase 0 None) "insertText" "h")
           [StateSpec.deltaOnly (mkBase 100 None) "insertText" "i"]).
  - reflexivity.
  - reflexivity.
  - reflexivity.
  - exact Hasc.
  - vm_compute; discriminate.
Defined.

Lemma stop_then_seek_reconstructs_witness :
  let evs := StateLawSpec.typed [(0, "h"%string); (100, "i"%string)] in
  let doc := Player.mkDocument EmptyString evs in
  let p := Player.load doc (Player.constructor None) in
  Player.document p = Some doc
  /\ timeAscending evs
  /\ exists p',
       Player.seek 2 100 7 (Player.stop 5 p) = Player.Returned p'
       /\ Player.textState (Player.getState 7 p')
          = State.applyEvents (filter (notAfter 100) evs)
              (State.reset (Player.initial_text doc))
       /\ Player.currentTime (Player.getState 7 p') = 100.
Proof.
  intros evs doc p.
  assert (Hasc : timeAscending evs)
    by (simpl; repeat split; repeat constructor; vm_compute; discriminate).
  split; [reflexivity |].
  split; [exact Hasc |].
  apply (stop_then_seek_reconstructs 2 100 5 7 p doc
           (StateSpec.deltaOnly (mkBase 0 None) "insertText" "h")
           [StateSpec.deltaOnly (mkBase 100 None) "insertText" "i"]).
  - reflexivity.
  - reflexivity.
  - reflexivity.
  - exact Hasc.
  - vm_compute; discriminate.
Defined.

End PlayerFacts.

(* ------------------------------------------------------------------ *)
(** ** Properties of the recorder *)

Module RecorderFacts.

Import Types Recorder RecorderSpec EngineSpec.
Open Scope Q_scope.

(** *** What one dispatch does *)

Lemma onEvent_recording (e : Recorded) (r : KakiatoRecorder) :
  isRecording r = true ->
  onEvent e r
  = mkRecorder (events r ++ [e]) (sessionMetadata r) true (initialText r)
      (startTime r) (attached r) (lastSelection r).
Proof. intros H; unfold onEvent; now rewrite H. Qed.

(** A dispatch leaves the recorded events as they are or appends one event,
    stamped with the time elapsed since [start()]; nothing else of the
    recording changes. *)
Lemma dispatch_appends (now : Q) (dom : Dom) (e : DomEvent)
    (r : KakiatoRecorder) :
  isRecording r = true ->
  attached r = true ->
  let r' := dispatch now dom e r in
  isRecording r' = true
  /\ attached r' = true
  /\ startTime r' = startTime r
  /\ sessionMetadata r' = sessionMetadata r
  /\ initialText r' = initialText r
  /\ (events r' = events r
      \/ exists recorded,
           events r' = events r ++ [recorded]
           /\ event_time (event recorded) = now - startTime r
           /\ (e = DomSelectionChange
               \/ translate (now - startTime r) dom e = Some recorded)).
Proof.
  intros Hrec Hatt r'; subst r'.
  assert (Hother : forall recorded,
            translate (now - startTime r) dom e = Some recorded ->
            event_time (event recorded) = now - startTime r).
  { destruct e; cbn; intros recorded H; try discriminate;
      try (injection H as <-; reflexivity);
      destruct (isEditableElement target); try discriminate;
      injection H as <-; reflexivity. }
  assert (Hcases : e = DomSelectionChange
                   \/ dispatch now dom e r
                      = match translate (now - startTime r) dom e with
                        | Some recorded => onEvent recorded r
                        | None => r
                        end)
    by (unfold dispatch; rewrite Hatt; destruct e; auto).
  destruct Hcases as [-> | ->].
  - unfold dispatch; rewrite Hatt; cbn [negb]; unfold handleSelectionChange.
    destruct (selectionIndices dom) as [[a f] |]; [| repeat split; auto].
    destruct (sameSelection (lastSelection r) a f); [repeat split; auto |].
    rewrite onEvent_recording by exact Hrec; cbn.
    do 5 (split; [auto |]).
    right; eexists; split; [reflexivity |]; split; [reflexivity |].
    left; reflexivity.
  - destruct (translate (now - startTime r) dom e) as [recorded |] eqn:Ht;
      [| repeat split; auto].
    rewrite onEvent_recording by exact Hrec; cbn.
    do 5 (split; [auto |]).
    right; exists recorded; split; [reflexivity |].
    split; [now apply Hother | right; reflexivity].
Qed.

(** *** Times *)

Lemma timeAscending_snoc (l : list KakiatoEvent) (e : KakiatoEvent) :
  timeAscending l ->
  Forall (fun e' => event_time e' <= event_time e) l ->
  timeAscending (l ++ [e]).
Proof.
  induction l as [|a l IH]; simpl; intros Hasc Hle; [split; [constructor | exact I] |].
  destruct Hasc as [Ha Hasc]; inversion Hle as [|? ? Hae Hl]; subst.
  split; [| now apply IH].
  apply Forall_app; split; [exact Ha | repeat constructor; exact Hae].
Qed.

Lemma dispatchAll_times (activity : list (Q * Dom * DomEvent)) :
  forall (t : Q) (r : KakiatoRecorder),
    isRecording r = true ->
    attached r = true ->
    startTime r <= t ->
    clockMonotone t activity ->
    timeAscending (map event (events r)) ->
    Forall (fun e => 0 <= event_time e /\ event_time e <= t - startTime r)
      (map event (events r)) ->
    let r' := dispatchAll activity r in
    timeAscending (map event (events r'))
    /\ Forall (fun e => 0 <= event_time e) (map event (events r'))
    /\ sessionMetadata r' = sessionMetadata r
    /\ initialText r' = initialText r.
Proof.
  induction activity as [|[[now dom] e] activity IH];
    intros t r Hrec Hatt Hst Hclock Hasc Hbound; cbn.
  - repeat split; auto.
    eapply Forall_impl; [| exact Hbound]; cbn; tauto.
  - destruct Hclock as [Hnow Hclock]; cbn in Hnow, Hclock.
    destruct (dispatch_appends now dom e r Hrec Hatt)
      as (Hrec1 & Hatt1 & Hst1 & Hmeta1 & Hinit1 & Hev).
    specialize (IH now (dispatch now dom e r) Hrec1 Hatt1).
    rewrite Hst1, Hmeta1, Hinit1 in IH.
    apply IH; [lra | exact Hclock | |].
    + destruct Hev as [-> | (recorded & -> & Htime & _)]; [exact Hasc |].
      rewrite map_app; apply timeAscending_snoc; [exact Hasc |].
      eapply Forall_impl; [| exact Hbound]; cbn.
      intros a [_ Ha]; rewrite Htime; lra.
    + destruct Hev as [-> | (recorded & -> & Htime & _)].
      * eapply Forall_impl; [| exact Hbound]; cbn; intros a [H0 Ha]; split; lra.
      * rewrite map_app; apply Forall_app; split.
        -- eapply Forall_impl; [| exact Hbound]; cbn; intros a [H0 Ha]; split; lra.
        -- repeat constructor; cbn; rewrite Htime; lra.
Qed.

(** X26.  The producer's contract.  When the wall clock does not run backwards,
    the document of a recording has events whose times are not negative and
    do not decrease along the array: what the engine's [seek] relies on. *)
Theorem recorded_times_ascend
    (now : Q) (dom : Dom) (meta : KakiatoSessionMeta)
    (activity : list (Q * Dom * DomEvent)) (r : KakiatoRecorder) :
  isRecording r = false ->
  clockMonotone now activity ->
  exists doc,
    getDocument (dispatchAll activity (start now dom meta r)) = Some doc
    /\ timeAscending (map event (doc_events doc))
    /\ Forall (fun e => 0 <= event_time e) (map event (doc_events doc)).
Proof.
  intros Hidle Hclock.
  destruct (dispatchAll_times activity now (start now dom meta r))
    as (Hasc & Hpos & Hmeta & _); unfold start; rewrite ?Hidle; cbn;
    try reflexivity; try lra; try exact Hclock; try exact I; try constructor.
  unfold getDocument; unfold start in Hmeta; rewrite Hidle in Hmeta.
  rewrite Hmeta; cbn.
  eexists; split; [reflexivity |]; cbn.
  unfold start in Hasc, Hpos; rewrite Hidle in Hasc, Hpos.
  split; assumption.
Qed.

Lemma recorded_times_ascend_witness :
  let field_ := HTMLInputElement "h" (Some 1%Z) (Some 1%Z) in
  let dom := mkDom None (Some field_) in
  let activity :=
    [ (1005, dom, DomKeyDown "h" "KeyH" (mkKeys false false false false)
                    (Some field_));
      (1005, dom, DomInput "insertText" (Some "h"%string)
                    (mkKeys false false false false) (Some field_));
      (1100, dom, DomBlur (Some field_)) ] in
  isRecording constructor = false
  /\ clockMonotone 1000 activity
  /\ exists doc,
       getDocument
         (dispatchAll activity
            (start 1000 dom (mkSession "id" "ua" "en" "desktop") constructor))
       = Some doc
       /\ timeAscending (map event (doc_events doc))
       /\ Forall (fun e => 0 <= event_time e) (map event (doc_events doc)).
Proof.
  intros field_ dom activity.
  assert (Hclock : clockMonotone 1000 activity)
    by (cbn; repeat split; vm_compute; discriminate).
  split; [reflexivity |].
  split; [exact Hclock |].
  apply (recorded_times_ascend 1000 dom (mkSession "id" "ua" "en" "desktop")
           activity constructor).
  - reflexivity.
  - exact Hclock.
Defined.

(** *** Text *)






(** *** Selection *)

Lemma handleSelectionChange_again (now later : Q) (dom : Dom)
    (r : KakiatoRecorder) :
  handleSelectionChange later dom (handleSelectionChange now dom r)
  = handleSelectionChange now dom r.
Proof.
  unfold handleSelectionChange.
  destruct (selectionIndices dom) as [[a f] |]; [| reflexivity].
  destruct (sameSelection (lastSelection r) a f) eqn:Hsame;
    [now rewrite Hsame |].
  unfold onEvent; cbn.
  destruct (isRecording r); cbn; now rewrite !Z.eqb_refl.
Qed.

(** X28.  A [selectionchange] that finds the selection where the last one left it
    records nothing: dispatched twice on the same page, the second dispatch
    leaves the recorder exactly as the first one left it. *)
Theorem repeated_selection_is_recorded_once
    (now later : Q) (dom : Dom) (r : KakiatoRecorder) :
  dispatch later dom DomSelectionChange (dispatch now dom DomSelectionChange r)
  = dispatch now dom DomSelectionChange r.
Proof.
  unfold dispatch.
  destruct (attached r) eqn:Hatt; cbn [negb]; [| now rewrite Hatt].
  destruct (negb (attached (handleSelectionChange now dom r)));
    [reflexivity | apply handleSelectionChange_again].
Qed.

Lemma walk_within (textNodes : list (nat * string)) (n : nat) (offset : Z) :
  forall textOffset : Z,
    NoDup (map fst textNodes) ->
    pointsInto textNodes n offset ->
    (textOffset <= walk textNodes n offset textOffset
     <= textOffset + State.strlen (textContent textNodes))%Z.
Proof.
  induction textNodes as [|[c content] rest IH]; intros acc Hnd (x & Hin & Hoff);
    [contradiction |].
  inversion Hnd as [|? ? Hfresh Hnd']; subst.
  change (textContent ((c, content) :: rest))
    with (content ++ textContent rest)%string.
  rewrite StateLaws.strlen_append.
  pose proof (StateLaws.strlen_nonneg content).
  pose proof (StateLaws.strlen_nonneg (textContent rest)).
  cbn [walk]; destruct (Nat.eqb_spec c n) as [-> | Hne].
  - destruct Hin as [Heq | Hin].
    + injection Heq as ->; lia.
    + exfalso; apply Hfresh; apply (in_map fst) in Hin; exact Hin.
  - destruct Hin as [Heq | Hin]; [congruence |].
    specialize (IH (acc + State.strlen content)%Z Hnd'
                  (ex_intro _ x (conj Hin Hoff))).
    lia.
Qed.

(** X29.  The index recorded for an end of the selection in a content-editable
    element lies within the element's text, provided the end points into one
    of the element's text nodes. *)
Theorem getTextOffset_within_text
    (textNodes : list (nat * string)) (n : nat) (offset : Z) :
  NoDup (map fst textNodes) ->
  pointsInto textNodes n offset ->
  (0 <= getTextOffset textNodes (Some n) offset
   <= State.strlen (textContent textNodes))%Z.
Proof.
  intros Hnd Hinto; unfold getTextOffset.
  pose proof (walk_within textNodes n offset 0 Hnd Hinto); lia.
Qed.

Lemma getTextOffset_within_text_witness :
  let textNodes := [(4%nat, "hello "%string); (9%nat, "world"%string)] in
  NoDup (map fst textNodes)
  /\ pointsInto textNodes 9 2
  /\ (0 <= getTextOffset textNodes (Some 9%nat) 2
      <= State.strlen (textContent textNodes))%Z.
Proof.
  intros textNodes.
  assert (Hnd : NoDup (map fst textNodes)).
  { repeat constructor; simpl; intuition discriminate. }
  assert (Hinto : pointsInto textNodes 9 2).
  { exists "world"%string; split; [right; left; reflexivity |].
    split; vm_compute; discriminate. }
  split; [exact Hnd |].
  split; [exact Hinto |].
  apply (getTextOffset_within_text textNodes 9 2); assumption.
Defined.

(** *** Stopping *)

(** X30.  After [stop()] the recording is frozen: whatever the browser still
    dispatches, the recorder, and with it the document it hands out, stays
    as [stop()] left it. *)
Theorem stopped_recorder_ignores_events
    (activity : list (Q * Dom * DomEvent)) (r : KakiatoRecorder) :
  attached r = isRecording r ->
  dispatchAll activity (stop r) = stop r
  /\ getDocument (dispatchAll activity (stop r)) = getDocument r.
Proof.
  intros Hinv.
  assert (Hoff : attached (stop r) = false).
  { unfold stop; destruct (isRecording r) eqn:Hrec; cbn; [reflexivity |].
    now rewrite Hinv. }
  assert (Hsame : dispatchAll activity (stop r) = stop r).
  { induction activity as [|[[t d] e] activity IH]; [reflexivity |].
    change (dispatchAll ((t, d, e) :: activity) (stop r))
      with (dispatchAll activity (dispatch t d e (stop r))).
    unfold dispatch at 1; rewrite Hoff; exact IH. }
  split; [exact Hsame |].
  rewrite Hsame; unfold stop, getDocument.
  destruct (isRecording r); reflexivity.
Qed.

Lemma stopped_recorder_ignores_events_witness :
  let dom := mkDom None (Some (HTMLInputElement "h" (Some 1%Z) (Some 1%Z))) in
  let r := start 1000 dom (mkSession "id" "ua" "en" "desktop") constructor in
  attached r = isRecording r
  /\ dispatchAll [(1200, dom, DomFocus (activeElement dom))] (stop r) = stop r.
Proof.
  intros dom r.
  split; [reflexivity |].
  apply (stopped_recorder_ignores_events
           [(1200, dom, DomFocus (activeElement dom))] r).
  reflexivity.
Defined.

End RecorderFacts.

(* ------------------------------------------------------------------ *)
(** * Rounding to binary64 *)

Module DoubleFacts.

Import Double.
Open Scope Q_scope.

Lemma nearestEven_error (y : Q) :
  Qabs (inject_Z (nearestEven y) - y) <= 1 # 2.
Proof.
  unfold nearestEven.
  pose proof (Qfloor_le y) as Hlo.
  pose proof (Qlt_floor y) as Hhi.
  rewrite inject_Z_plus in Hhi. change (inject_Z 1) with 1 in Hhi.
  apply Qabs_Qle_condition.
  destruct (Qcompare (y - inject_Z (Qfloor y)) (1 # 2)) eqn:Hc.
  - apply Qeq_alt in Hc.
    destruct (Z.even (Qfloor y));
      [| rewrite inject_Z_plus; change (inject_Z 1) with 1]; split; lra.
  - apply Qlt_alt in Hc. split; lra.
  - apply Qgt_alt in Hc. rewrite inject_Z_plus. change (inject_Z 1) with 1.
    split; lra.
Qed.

Lemma two_power_pos (z : Z) : 0 < 2 ^ z.
Proof. apply Qpower_0_lt. reflexivity. Qed.

(** [ilog2] does not overshoot: [2 ^ ilog2 x <= |x|]. *)
Lemma ilog2_le (x : Q) : ~ x == 0 -> 2 ^ ilog2 x <= Qabs x.
Proof.
  intros Hx. unfold ilog2.
  destruct (Qle_bool _ (Qabs x)) eqn:Hb.
  - now apply Qle_bool_iff.
  - clear Hb. destruct x as [num den]. cbn [Qnum Qden Qabs].
    set (n := Z.abs num). set (d := Zpos den).
    assert (Hn : (0 < n)%Z).
    { subst n. unfold Qeq in Hx. simpl in Hx. lia. }
    assert (Hd : (0 < d)%Z) by (subst d; lia).
    destruct (Z.log2_spec n Hn) as [Hn1 _].
    destruct (Z.log2_spec d Hd) as [_ Hd2].
    pose proof (Z.log2_nonneg n) as Ha. pose proof (Z.log2_nonneg d) as Hb.
    set (a := Z.log2 n) in *. set (b := Z.log2 d) in *.
    replace (a - b - 1)%Z with (a - (b + 1))%Z by lia.
    rewrite Qpower_minus by discriminate.
    change 2 with (inject_Z 2).
    rewrite <- !Zpower_Qpower by lia.
    rewrite (Qmake_Qdiv n den). fold d.
    assert (Hpb : (0 < 2 ^ (b + 1))%Z) by (apply Z.pow_pos_nonneg; lia).
    apply Qle_shift_div_r; [rewrite <- (Zlt_Qlt 0); exact Hpb |].
    unfold Qdiv. rewrite <- Qmult_assoc, (Qmult_comm (/ _)), Qmult_assoc.
    apply Qle_shift_div_l; [rewrite <- (Zlt_Qlt 0); exact Hd |].
    rewrite <- !inject_Z_mult, <- Zle_Qle.
    replace (Z.succ b) with (b + 1)%Z in Hd2 by lia.
    nia.
Qed.

(** ... and does not fall short: [|x| < 2 ^ (ilog2 x + 1)]. *)
Lemma ilog2_lt (x : Q) : ~ x == 0 -> Qabs x < 2 ^ (ilog2 x + 1).
Proof.
  intros Hx. unfold ilog2.
  destruct (Qle_bool _ (Qabs x)) eqn:Hb.
  - clear Hb. destruct x as [num den]. cbn [Qnum Qden Qabs].
    set (n := Z.abs num). set (d := Zpos den).
    assert (Hn : (0 < n)%Z).
    { subst n. unfold Qeq in Hx. simpl in Hx. lia. }
    assert (Hd : (0 < d)%Z) by (subst d; lia).
    destruct (Z.log2_spec n Hn) as [_ Hn2].
    destruct (Z.log2_spec d Hd) as [Hd1 _].
    pose proof (Z.log2_nonneg n) as Ha. pose proof (Z.log2_nonneg d) as Hb.
    set (a := Z.log2 n) in *. set (b := Z.log2 d) in *.
    replace (a - b + 1)%Z with (a + 1 - b)%Z by lia.
    rewrite Qpower_minus by discriminate.
    change 2 with (inject_Z 2).
    rewrite <- !Zpower_Qpower by lia.
    rewrite (Qmake_Qdiv n den). fold d.
    assert (Hpb : (0 < 2 ^ b)%Z) by (apply Z.pow_pos_nonneg; lia).
    apply Qlt_shift_div_l; [rewrite <- (Zlt_Qlt 0); exact Hpb |].
    unfold Qdiv. rewrite <- Qmult_assoc, (Qmult_comm (/ _)), Qmult_assoc.
    apply Qlt_shift_div_r; [rewrite <- (Zlt_Qlt 0); exact Hd |].
    rewrite <- !inject_Z_mult, <- Zlt_Qlt.
    replace (Z.succ a) with (a + 1)%Z in Hn2 by lia.
    nia.
  - replace (Z.log2 (Z.abs (Qnum x)) - Z.log2 (Z.pos (Qden x)) - 1 + 1)%Z
      with (Z.log2 (Z.abs (Qnum x)) - Z.log2 (Z.pos (Qden x)))%Z by lia.
    apply Qnot_le_lt. intros Hle.
    apply Qle_bool_iff in Hle. congruence.
Qed.

Lemma round_zero (x : Q) : x == 0 -> round x == 0.
Proof.
  intros Hx. unfold round. rewrite Qred_correct.
  assert (Hy : x / ulp x == 0).
  { unfold Qdiv. generalize (/ ulp x). intros i. rewrite Hx. ring. }
  set (y := x / ulp x) in *.
  assert (Hf : Qfloor y = 0%Z).
  { pose proof (Qfloor_le y) as Hlo. pose proof (Qlt_floor y) as Hhi.
    rewrite inject_Z_plus in Hhi. change (inject_Z 1) with 1 in Hhi.
    assert (H0 : inject_Z (Qfloor y) <= inject_Z 0)
      by (change (inject_Z 0) with 0; lra).
    assert (H1 : inject_Z (-1) < inject_Z (Qfloor y))
      by (change (inject_Z (-1)) with (-1); lra).
    rewrite <- Zle_Qle in H0. rewrite <- Zlt_Qlt in H1. lia. }
  assert (Hn : nearestEven y = 0%Z).
  { unfold nearestEven. rewrite Hf.
    destruct (Qcompare _ _) eqn:Hc; try reflexivity.
    apply Qgt_alt in Hc. change (inject_Z 0) with 0 in Hc. lra. }
  rewrite Hn. ring.
Qed.

(** What one rounding loses: at most the unit roundoff relative to the
    exact value, or half the smallest subnormal. *)
Lemma round_error (x : Q) :
  Qabs (round x - x) <= unitRoundoff * Qabs x + eta.
Proof.
  destruct (Qeq_dec x 0) as [Hx | Hx].
  - rewrite (round_zero x Hx), Hx. vm_compute. discriminate.
  - unfold round. rewrite Qred_correct.
    pose proof (two_power_pos (exponent x - 52)) as Hp.
    fold (ulp x) in Hp.
    pose proof (nearestEven_error (x / ulp x)) as Hm.
    set (m := inject_Z (nearestEven (x / ulp x))) in *.
    assert (Hhalf : Qabs (m * ulp x - x) <= ulp x * (1 # 2)).
    { assert (Heq : m * ulp x - x == (m - x / ulp x) * ulp x) by (field; lra).
      rewrite Heq, Qabs_Qmult, (Qabs_pos (ulp x)) by lra.
      rewrite Qmult_comm. apply Qmult_le_l; [exact Hp | exact Hm]. }
    eapply Qle_trans; [exact Hhalf |].
    pose proof (Qabs_nonneg x) as Hax.
    assert (Heta : 0 < eta) by apply two_power_pos.
    unfold ulp, exponent.
    destruct (Z.max_spec (ilog2 x) emin) as [[Hlt ->] | [Hle ->]].
    + assert (Hu : 2 ^ (emin - 52) * (1 # 2) == eta) by reflexivity.
      rewrite Hu. unfold unitRoundoff. lra.
    + pose proof (ilog2_le x Hx) as Hlog.
      replace (ilog2 x - 52)%Z with (ilog2 x + -52)%Z by lia.
      rewrite Qpower_plus by discriminate.
      assert (Hc : 2 ^ (-52) * (1 # 2) == unitRoundoff) by reflexivity.
      rewrite <- Qmult_assoc, Hc.
      assert (2 ^ ilog2 x * unitRoundoff <= Qabs x * unitRoundoff).
      { apply Qmult_le_compat_r; [exact Hlog | discriminate]. }
      lra.
Qed.

(** Rounding keeps the sign. *)
Lemma nearestEven_nonpos (y : Q) : y <= 0 -> (nearestEven y <= 0)%Z.
Proof.
  intros Hy. unfold nearestEven.
  pose proof (Qfloor_le y) as Hlo.
  assert (Hf : (Qfloor y <= 0)%Z).
  { rewrite Zle_Qle. change (inject_Z 0) with 0. lra. }
  destruct (Qcompare (y - inject_Z (Qfloor y)) (1 # 2)) eqn:Hc.
  - apply Qeq_alt in Hc.
    assert (Hneg : (Qfloor y < 0)%Z).
    { rewrite Zlt_Qlt. change (inject_Z 0) with 0. lra. }
    destruct (Z.even (Qfloor y)); lia.
  - exact Hf.
  - apply Qgt_alt in Hc.
    assert (Hneg : (Qfloor y < 0)%Z).
    { rewrite Zlt_Qlt. change (inject_Z 0) with 0. lra. }
    lia.
Qed.

Lemma round_nonpos (x : Q) : x <= 0 -> round x <= 0.
Proof.
  intros Hx. unfold round. rewrite Qred_correct.
  pose proof (two_power_pos (exponent x - 52)) as Hp. fold (ulp x) in Hp.
  assert (Hy : x / ulp x <= 0).
  { apply Qle_shift_div_r; [exact Hp | lra]. }
  pose proof (nearestEven_nonpos _ Hy) as Hm.
  rewrite Zle_Qle in Hm. change (inject_Z 0) with 0 in Hm.
  set (m := inject_Z (nearestEven (x / ulp x))) in *.
  assert (H : 0 <= (- m) * ulp x) by (apply Qmult_le_0_compat; lra).
  lra.
Qed.

(** The rounding agrees with the binary64 arithmetic of the proof
    assistant: on the operations of a resume at a wall time of the size
    [Date.now()] returns, and on subnormal results, ties included. *)
Example round_agrees_with_hardware :
  toQ Hardware.realTimeAt100 = Some (round (100 / 3))
  /\ toQ Hardware.startTimeAt100
     = Some (round (1700000000000 - round (100 / 3)))
  /\ toQ Hardware.elapsedAt100
     = Some (round (1700000000000
                    - round (1700000000000 - round (100 / 3))))
  /\ toQ Hardware.resumedAt100
     = Some (round (round (1700000000000
                           - round (1700000000000 - round (100 / 3))) * 3))
  /\ toQ Hardware.tenthPlusFifth
     = Some (round (round (1 / 10) + round (2 / 10)))
  /\ toQ Hardware.thirdMinusOne = Some (round (round (1 / 3) - 1))
  /\ toQ Hardware.threeHalvesOfLeast = Some (round ((3 # 2) * 2 ^ (-1074)))
  /\ toQ Hardware.fiveHalvesOfLeast = Some (round ((5 # 2) * 2 ^ (-1074)))
  /\ toQ Hardware.thirdOfLeast = Some (round ((1 # 3) * 2 ^ (-1074))).
Proof. repeat split; vm_compute; reflexivity. Qed.

End DoubleFacts.

(* ------------------------------------------------------------------ *)
(** * The engine in rounded arithmetic *)

Module RoundedFacts.

Import Types Engine EngineSpec RoundedSpec Double DoubleFacts.
Open Scope Q_scope.

#[local] Arguments round x : simpl never.
#[local] Arguments Qabs x : simpl never.

Lemma abs_le (x y : Q) : Qabs x <= y -> - y <= x /\ x <= y.
Proof. apply Qabs_Qle_condition. Qed.

Lemma le_abs (x y : Q) : - y <= x -> x <= y -> Qabs x <= y.
Proof. intros; apply Qabs_Qle_condition; split; assumption. Qed.

Lemma abs_bounds (x : Q) : - Qabs x <= x /\ x <= Qabs x /\ 0 <= Qabs x.
Proof.
  split; [| split].
  - apply (abs_le x (Qabs x)). apply Qle_refl.
  - apply Qle_Qabs.
  - apply Qabs_nonneg.
Qed.

Lemma resume_error (V S now : Q) :
  0 < S ->
  let q := round (V / S) in
  let a := round (now - q) in
  let b := round (now - a) in
  Qabs (round (b * S) - V) <= resumeError V S now.
Proof.
  intros HS q a b.
  set (r := V / S) in *.
  assert (HV : V == r * S) by (unfold r; field; lra).
  pose proof (round_error r) as E1.
  pose proof (round_error (now - q)) as E2.
  pose proof (round_error (now - a)) as E3.
  pose proof (round_error (b * S)) as E4.
  change (round r) with q in E1.
  change (round (now - q)) with a in E2.
  change (round (now - a)) with b in E3.
  set (V' := round (b * S)) in *.
  clearbody q a b V' r.
  assert (Heta : 0 < eta) by apply two_power_pos.
  rewrite Qabs_Qmult, (Qabs_pos S) in E4 by lra.
  apply abs_le in E1, E2, E3, E4.
  destruct E1 as [E1l E1u], E2 as [E2l E2u], E3 as [E3l E3u], E4 as [E4l E4u].
  destruct (abs_bounds r) as (R1 & R2 & R0).
  destruct (abs_bounds now) as (N1 & N2 & N0).
  destruct (abs_bounds (now - q)) as (Q1 & Q2 & Q0).
  destruct (abs_bounds (now - a)) as (A1 & A2 & A0).
  destruct (abs_bounds b) as (B1 & B2 & B0).
  set (R := Qabs r) in *. set (N := Qabs now) in *.
  set (Aq := Qabs (now - q)) in *. set (Aa := Qabs (now - a)) in *.
  set (Ab := Qabs b) in *.
  unfold unitRoundoff in *.
  assert (Hq : Aq <= N + (1 + (1 # 9007199254740992)) * R + eta).
  { apply le_abs; lra. }
  assert (Ha : Aa <= R + (1 # 2251799813685248) * (N + R) + 3 * eta).
  { apply le_abs; lra. }
  assert (Hb : Qabs (b - r)
               <= (1 # 2251799813685248) * (N + R) + (7 # 2) * eta).
  { apply le_abs; lra. }
  apply abs_le in Hb. destruct Hb as [Hbl Hbu].
  assert (HAb : Ab <= R + (1 # 2251799813685248) * (N + R) + (7 # 2) * eta).
  { apply le_abs; lra. }
  assert (HVabs : Qabs V == R * S).
  { unfold R. rewrite HV, Qabs_Qmult, (Qabs_pos S) by lra. reflexivity. }
  assert (HS0 : 0 <= S) by lra.
  pose proof (Qmult_le_compat_r _ _ S HAb HS0) as F1.
  pose proof (Qmult_le_compat_r _ _ S Hbl HS0) as F2.
  pose proof (Qmult_le_compat_r _ _ S Hbu HS0) as F3.
  pose proof (Qmult_le_0_compat _ _ R0 HS0) as P1.
  pose proof (Qmult_le_0_compat _ _ N0 HS0) as P2.
  pose proof (Qmult_le_0_compat _ _ (Qlt_le_weak _ _ Heta) HS0) as P3.
  unfold resumeError. rewrite HVabs. fold N.
  apply le_abs; lra.
Qed.


(** Within [withinBounds] none of the four operations of a resume comes
    near the overflow threshold. *)
Lemma resume_stays_finite (V S now : Q) :
  0 < S ->
  withinBounds V S now ->
  let q := round (V / S) in
  let a := round (now - q) in
  let b := round (now - a) in
  Qabs q < overflowThreshold
  /\ Qabs a < overflowThreshold
  /\ Qabs b < overflowThreshold
  /\ Qabs (round (b * S)) < overflowThreshold.
Proof.
  intros HS (HN & HSb & HVb) q a b.
  set (r := V / S) in *.
  assert (HR : Qabs r <= bound).
  { unfold r, Qdiv. rewrite Qabs_Qmult, Qabs_Qinv, (Qabs_pos S) by lra.
    apply Qle_shift_div_r; [exact HS | exact HVb]. }
  pose proof (round_error r) as E1.
  pose proof (round_error (now - q)) as E2.
  pose proof (round_error (now - a)) as E3.
  pose proof (round_error (b * S)) as E4.
  change (round r) with q in E1.
  change (round (now - q)) with a in E2.
  change (round (now - a)) with b in E3.
  set (V' := round (b * S)) in *.
  clearbody q a b V' r.
  assert (Heta : 0 < eta) by apply two_power_pos.
  assert (Heta1 : eta <= 1 # 8) by (vm_compute; discriminate).
  assert (HB1 : 1 <= bound) by (vm_compute; discriminate).
  assert (HT1 : 16 * bound < overflowThreshold) by (vm_compute; reflexivity).
  assert (HT2 : 16 * (bound * bound) < overflowThreshold)
    by (vm_compute; reflexivity).
  rewrite Qabs_Qmult, (Qabs_pos S) in E4 by lra.
  apply abs_le in E1, E2, E3, E4.
  destruct E1 as [E1l E1u], E2 as [E2l E2u], E3 as [E3l E3u], E4 as [E4l E4u].
  destruct (abs_bounds r) as (R1 & R2 & R0).
  destruct (abs_bounds now) as (N1 & N2 & N0).
  destruct (abs_bounds (now - q)) as (Q1 & Q2 & Q0).
  destruct (abs_bounds (now - a)) as (A1 & A2 & A0).
  destruct (abs_bounds b) as (B1 & B2 & B0).
  set (R := Qabs r) in *. set (N := Qabs now) in *.
  set (Aq := Qabs (now - q)) in *. set (Aa := Qabs (now - a)) in *.
  set (Ab := Qabs b) in *.
  set (B := bound) in *. set (T := overflowThreshold) in *.
  clearbody B T.
  unfold unitRoundoff in *.
  assert (Hq : Qabs q <= 3 * B) by (apply le_abs; lra).
  assert (HAq : Aq <= 4 * B) by (apply le_abs; lra).
  assert (Ha : Qabs a <= 6 * B) by (apply le_abs; lra).
  assert (HAa : Aa <= 7 * B) by (apply le_abs; lra).
  assert (HAb : Ab <= 3 * B).
  { assert (Hbr : Qabs (b - r) <= B) by (apply le_abs; lra).
    apply abs_le in Hbr. destruct Hbr. apply le_abs; lra. }
  assert (HS0 : 0 <= S) by lra.
  assert (F1 : Ab * S <= 3 * B * B).
  { apply Qle_trans with (3 * B * S).
    - apply Qmult_le_compat_r; [exact HAb | exact HS0].
    - apply Qmult_le_l; [lra | exact HSb]. }
  assert (P1 : 0 <= Ab * S) by (apply Qmult_le_0_compat; lra).
  assert (P2 : 0 <= (B - 1) * (B + 1)) by (apply Qmult_le_0_compat; lra).
  assert (HV' : Qabs V' <= 8 * (B * B)).
  { assert (Hb : - (Ab * S) <= b * S /\ b * S <= Ab * S).
    { split.
      - assert (H : (- Ab) * S <= b * S)
          by (apply Qmult_le_compat_r; [lra | exact HS0]).
        lra.
      - apply Qmult_le_compat_r; [lra | exact HS0]. }
    destruct Hb. apply le_abs; lra. }
  repeat split; lra.
Qed.

Lemma resumeError_nonneg (v s now : Q) : 0 < s -> 0 <= resumeError v s now.
Proof.
  intros Hs. unfold resumeError.
  pose proof (Qabs_nonneg v) as Hv. pose proof (Qabs_nonneg now) as Hn.
  assert (Heta : 0 < eta) by apply two_power_pos.
  assert (0 <= s * Qabs now) by (apply Qmult_le_0_compat; lra).
  assert (0 <= (4 * s + 1) * eta) by (apply Qmult_le_0_compat; lra).
  lra.
Qed.

Lemma abs_self (x : Q) : Qabs (x - x) == 0.
Proof.
  assert (H : x - x == 0) by ring.
  rewrite H. reflexivity.
Qed.

(** *** Exact arithmetic is the case without rounding *)

Lemma pause_unrounded (now : Q) (w : Host) :
  Rounded.pause unrounded now w = pause now w.
Proof. reflexivity. Qed.

Lemma getCurrentTime_unrounded (now : Q) (w : Host) :
  Rounded.getCurrentTime unrounded now w = getCurrentTime now w.
Proof. reflexivity. Qed.

Lemma scheduleNextEvent_unrounded (fuel : nat) (now : Q) (w : Host) :
  Rounded.scheduleNextEvent unrounded fuel now w = scheduleNextEvent fuel now w.
Proof.
  revert w; induction fuel as [|fuel IH]; intros w; [reflexivity |].
  cbn [Rounded.scheduleNextEvent scheduleNextEvent].
  destruct (negb (isPlaying (engine w))); [reflexivity |].
  destruct (List.length (events (engine w)) <=? currentIndex (engine w))%nat.
  - destruct (loop (engine w)); [apply IH | reflexivity].
  - reflexivity.
Qed.

Lemma play_unrounded (fuel : nat) (now : Q) (w : Host) :
  Rounded.play unrounded fuel now w = play fuel now w.
Proof.
  unfold Rounded.play, play.
  destruct (isPlaying (engine w)); [reflexivity |].
  destruct (List.length (events (engine w)) =? 0)%nat; [reflexivity |].
  apply scheduleNextEvent_unrounded.
Qed.

Lemma emitFrom_unrounded (steps i : nat) event (index : nat) (now : Q)
    (w : Host) :
  Rounded.emitFrom unrounded steps i event index now w
  = emitFrom steps i event index now w.
Proof.
  revert i w; induction steps as [|steps IH]; intros i w; [reflexivity |].
  cbn [Rounded.emitFrom emitFrom].
  destruct (nth_error (onEventHandlers (engine w)) i); [| reflexivity].
  apply IH.
Qed.

Lemma replay_unrounded (count i : nat) (now : Q) (w : Host) :
  Rounded.replay unrounded count i now w = replay count i now w.
Proof.
  revert i w; induction count as [|count IH]; intros i w; [reflexivity |].
  cbn [Rounded.replay replay].
  unfold Rounded.emitEvent, emitEvent.
  rewrite emitFrom_unrounded. apply IH.
Qed.

Lemma seek_unrounded (fuel : nat) (time now : Q) (w : Host) :
  Rounded.seek unrounded fuel time now w = seek fuel time now w.
Proof.
  unfold Rounded.seek, seek.
  rewrite pause_unrounded, replay_unrounded.
  destruct (isPlaying (engine w)); [apply play_unrounded | reflexivity].
Qed.

Lemma setSpeed_unrounded (fuel : nat) (s now : Q) (w : Host) :
  Rounded.setSpeed unrounded fuel s now w = setSpeed fuel s now w.
Proof.
  unfold Rounded.setSpeed, setSpeed.
  destruct (Qle_bool s 0); [reflexivity |].
  destruct (isPlaying (engine w)); [| reflexivity].
  rewrite pause_unrounded. apply play_unrounded.
Qed.

Lemma fire_unrounded (fuel id : nat) (now : Q) (w : Host) :
  Rounded.fire unrounded fuel id now w = fire fuel id now w.
Proof.
  unfold Rounded.fire, fire.
  destruct (find _ (pending w)); [| reflexivity].
  destruct (Qle_bool _ now); [| reflexivity].
  unfold Rounded.onTimeout, onTimeout, Rounded.emitEvent, emitEvent.
  rewrite emitFrom_unrounded. apply scheduleNextEvent_unrounded.
Qed.

(** *** Resuming *)

(** [play()] on a paused engine, away from the wrap-around of a loop: it
    returns, and the clock reads the frozen virtual time up to rounding. *)
Lemma play_from_paused_rounded (fuel : nat) (t : Q) (w : Host) :
  (1 <= fuel)%nat ->
  isPlaying (engine w) = false ->
  0 < speed (engine w) ->
  atEndOfLoop w = false ->
  exists w',
    Rounded.play round fuel t w = Normal w'
    /\ Qabs (Rounded.getCurrentTime round t w' - pausedAt (engine w))
       <= resumeError (pausedAt (engine w)) (speed (engine w)) t
    /\ speed (engine w') = speed (engine w).
Proof.
  intros Hfuel Hpaused Hspeed Hend.
  pose proof (resumeError_nonneg (pausedAt (engine w)) (speed (engine w)) t
                Hspeed) as Hnn.
  destruct fuel as [|fuel]; [lia |].
  unfold Rounded.play, atEndOfLoop in *; rewrite Hpaused.
  destruct w as [[evs i playing s l tid st pa hs] p n tr]; simpl in *.
  destruct (Nat.eqb_spec (List.length evs) 0) as [Hlen | Hlen].
  - eexists; split; [reflexivity |].
    unfold Rounded.getCurrentTime; simpl; rewrite Hpaused.
    split; [rewrite abs_self; exact Hnn | reflexivity].
  - destruct (Nat.leb_spec (List.length evs) i) as [Hi | Hi].
    + rewrite andb_true_r in Hend; subst l.
      eexists; split; [reflexivity |].
      unfold Rounded.getCurrentTime; simpl.
      split; [rewrite abs_self; exact Hnn | reflexivity].
    + destruct (nth_error evs i) as [event |] eqn:Hnth.
      * eexists; split; [reflexivity |].
        unfold Rounded.getCurrentTime; simpl.
        split; [| reflexivity].
        now apply resume_error.
      * apply nth_error_None in Hnth; lia.
Qed.

Lemma pause_rounded_frame (fl : Q -> Q) (now : Q) (w : Host) :
  isPlaying (engine (Rounded.pause fl now w)) = false
  /\ events (engine (Rounded.pause fl now w)) = events (engine w)
  /\ currentIndex (engine (Rounded.pause fl now w)) = currentIndex (engine w)
  /\ loop (engine (Rounded.pause fl now w)) = loop (engine w)
  /\ speed (engine (Rounded.pause fl now w)) = speed (engine w)
  /\ onEventHandlers (engine (Rounded.pause fl now w))
     = onEventHandlers (engine w)
  /\ trace (Rounded.pause fl now w) = trace w.
Proof.
  unfold Rounded.pause; destruct w as [[evs i playing s l tid st pa hs] p n tr];
    simpl; destruct playing; simpl; [destruct tid |]; simpl; repeat split.
Qed.

(** Pausing freezes the reading of the clock: what [getCurrentTime()]
    returned at the wall time of the call is what it returns from then on. *)
Lemma pause_rounded_freezes (fl : Q -> Q) (now later : Q) (w : Host) :
  Rounded.getCurrentTime fl later (Rounded.pause fl now w)
  = Rounded.getCurrentTime fl now w.
Proof.
  unfold Rounded.getCurrentTime, Rounded.pause;
    destruct w as [[evs i playing s l tid st pa hs] p n tr];
    simpl; destruct playing; simpl; [destruct tid |]; simpl; reflexivity.
Qed.

(** C5, as stated, fails, for two reasons.  Rounding: an engine paused at
    [100] with speed [3] and resumed at a wall time of [1.7e12] reads
    [100 - 2^-12], in the model and in the binary64 arithmetic of the proof
    assistant alike; paused at [2^1000] with speed [2^-1000] the division
    overflows and the reading is not a number at all.  Wrap-around: a
    looping engine that a subscriber paused during the delivery of its last
    event, at virtual time [50], restarts at [0] when it is resumed. *)
Lemma resumed_clock_misses_paused_time :
  (let w := pausedAtTime [at_ 0; at_ 200] 100 3 in
   getIsPlaying w = false
   /\ Rounded.getCurrentTime round 0 w == 100
   /\ getSpeed w == 3
   /\ exists w',
        Rounded.play round 1 1700000000000 w = Normal w'
        /\ Rounded.getCurrentTime round 1700000000000 w' == 409599 # 4096
        /\ ~ Rounded.getCurrentTime round 1700000000000 w' == 100)
  /\ toQ Hardware.resumedAt100 = Some (409599 # 4096)
  /\ toQ Hardware.resumedAtOverflow = None
  /\ exists w1 w2 w3,
       Rounded.play round 2 0 loopingHost = Normal w1
       /\ Rounded.fire round 2 1 50 w1 = Normal w2
       /\ getIsPlaying w2 = false
       /\ Rounded.getCurrentTime round 50 w2 == 50
       /\ 0 < getSpeed w2
       /\ Rounded.play round 2 60 w2 = Normal w3
       /\ Rounded.getCurrentTime round 60 w3 == 0
       /\ ~ Rounded.getCurrentTime round 60 w3
            == Rounded.getCurrentTime round 50 w2.
Proof.
  split; [| split; [| split]].
  - cbv zeta. split; [reflexivity |].
    split; [vm_compute; reflexivity |].
    split; [vm_compute; reflexivity |].
    eexists. split; [vm_compute; reflexivity |].
    split; vm_compute; congruence.
  - vm_compute; reflexivity.
  - vm_compute; reflexivity.
  - do 3 eexists.
    split; [vm_compute; reflexivity |].
    split; [vm_compute; reflexivity |].
    repeat split; vm_compute; congruence.
Qed.

(** C5, amended.  Pause at any wall time, wait [d], resume: unless the
    engine loops and has delivered its whole sequence, [play()] returns and
    the clock then reads the virtual time at which the engine was paused up
    to the rounding of the four operations involved, that is within
    [resumeError], for every positive speed. *)
Theorem pause_resume_restores_time_up_to_rounding
    (fuel : nat) (now d : Q) (w : Host) :
  (1 <= fuel)%nat ->
  0 < getSpeed w ->
  0 < d ->
  atEndOfLoop w = false ->
  let paused := Rounded.pause round now w in
  let V := Rounded.getCurrentTime round now paused in
  withinBounds V (getSpeed w) (now + d) ->
  exists w',
    Rounded.play round fuel (now + d) paused = Normal w'
    /\ Qabs (Rounded.getCurrentTime round (now + d) w' - V)
       <= resumeError V (getSpeed w) (now + d).
Proof.
  intros Hfuel Hspeed _ Hend paused V _.
  destruct (pause_rounded_frame round now w)
    as (Hpaused & Hevs & Hidx & Hloop & Hsp & _).
  fold paused in Hpaused, Hevs, Hidx, Hloop, Hsp.
  destruct (play_from_paused_rounded fuel (now + d) paused)
    as (w' & Hplay & Hread & _).
  - exact Hfuel.
  - exact Hpaused.
  - rewrite Hsp; exact Hspeed.
  - unfold atEndOfLoop in *. now rewrite Hevs, Hidx, Hloop.
  - exists w'; split; [exact Hplay |].
    assert (HV : V = pausedAt (engine paused)).
    { unfold V, Rounded.getCurrentTime. now rewrite Hpaused. }
    rewrite HV. unfold getSpeed. rewrite <- Hsp. exact Hread.
Qed.

Lemma pause_resume_restores_time_up_to_rounding_witness :
  let w := pausedAtTime [at_ 0; at_ 200] 100 3 in
  (1 <= 1)%nat
  /\ 0 < getSpeed w
  /\ 0 < 1700000000000
  /\ atEndOfLoop w = false
  /\ withinBounds
       (Rounded.getCurrentTime round 0 (Rounded.pause round 0 w))
       (getSpeed w) (0 + 1700000000000)
  /\ exists w',
       Rounded.play round 1 (0 + 1700000000000) (Rounded.pause round 0 w)
       = Normal w'
       /\ Qabs (Rounded.getCurrentTime round (0 + 1700000000000) w'
                - Rounded.getCurrentTime round 0 (Rounded.pause round 0 w))
          <= resumeError
               (Rounded.getCurrentTime round 0 (Rounded.pause round 0 w))
               (getSpeed w) (0 + 1700000000000).
Proof.
  intros w.
  assert (Hb : withinBounds
                 (Rounded.getCurrentTime round 0 (Rounded.pause round 0 w))
                 (getSpeed w) (0 + 1700000000000))
    by (repeat split; vm_compute; discriminate).
  split; [lia |].
  split; [vm_compute; reflexivity |].
  split; [reflexivity |].
  split; [reflexivity |].
  split; [exact Hb |].
  apply (pause_resume_restores_time_up_to_rounding 1 0 1700000000000 w).
  - lia.
  - vm_compute; reflexivity.
  - reflexivity.
  - reflexivity.
  - exact Hb.
Defined.

(** *** Changing the speed *)

(** X14.  [setSpeed(s)] with a positive [s] returns with the new speed in place
    and does not make the clock jump: a paused engine reads exactly what it
    read before, a playing one what it read before up to the rounding of the
    resume, unless it loops and has delivered its whole sequence. *)
Theorem setSpeed_keeps_time_up_to_rounding
    (fuel : nat) (s now : Q) (w : Host) :
  (1 <= fuel)%nat ->
  0 < s ->
  atEndOfLoop w = false ->
  let V := Rounded.getCurrentTime round now w in
  withinBounds V s now ->
  exists w',
    Rounded.setSpeed round fuel s now w = Normal w'
    /\ getSpeed w' = s
    /\ Qabs (Rounded.getCurrentTime round now w' - V) <= resumeError V s now
    /\ (getIsPlaying w = false -> Rounded.getCurrentTime round now w' = V).
Proof.
  intros Hfuel Hs Hend V _.
  pose proof (resumeError_nonneg V s now Hs) as Hnn.
  unfold Rounded.setSpeed.
  assert (Hpos : Qle_bool s 0 = false).
  { destruct (Qle_bool s 0) eqn:Hb; [| reflexivity].
    apply Qle_bool_iff in Hb. lra. }
  rewrite Hpos.
  destruct (isPlaying (engine w)) eqn:Hplaying.
  - destruct (pause_rounded_frame round now w)
      as (Hpaused & Hevs & Hidx & Hloop & Hsp & _).
    set (paused := Rounded.pause round now w) in *.
    set (w1 := this (fun e => set_speed e s) paused).
    assert (HV : pausedAt (engine w1) = V).
    { subst w1 V. cbn [this engine set_speed pausedAt].
      rewrite <- (pause_rounded_freezes round now now w).
      fold paused. unfold Rounded.getCurrentTime. now rewrite Hpaused. }
    destruct (play_from_paused_rounded fuel now w1)
      as (w' & Hplay & Hread & Hspeed').
    + exact Hfuel.
    + exact Hpaused.
    + exact Hs.
    + unfold atEndOfLoop in *.
      change (events (engine w1)) with (events (engine paused)).
      change (currentIndex (engine w1)) with (currentIndex (engine paused)).
      change (loop (engine w1)) with (loop (engine paused)).
      now rewrite Hevs, Hidx, Hloop.
    + exists w'. split; [exact Hplay |].
      split; [exact Hspeed' |].
      rewrite HV in Hread.
      split; [exact Hread | unfold getIsPlaying; intros Hno; congruence].
  - eexists. split; [reflexivity |].
    split; [reflexivity |].
    assert (Hsame : Rounded.getCurrentTime round now
                      (this (fun e => set_speed e s) w) = V).
    { subst V. unfold Rounded.getCurrentTime.
      cbn [this engine set_speed isPlaying pausedAt].
      now rewrite Hplaying. }
    rewrite Hsame. split; [rewrite abs_self; exact Hnn | intros _; reflexivity].
Qed.

Lemma setSpeed_keeps_time_up_to_rounding_witness :
  exists w0,
    Rounded.play round 1 1700000000000 (pausedAtTime [at_ 0; at_ 200] 100 3)
    = Normal w0
    /\ (1 <= 1)%nat
    /\ 0 < 7
    /\ atEndOfLoop w0 = false
    /\ getIsPlaying w0 = true
    /\ withinBounds (Rounded.getCurrentTime round 1700000000050 w0) 7
         1700000000050
    /\ exists w',
         Rounded.setSpeed round 1 7 1700000000050 w0 = Normal w'
         /\ getSpeed w' = 7
         /\ Qabs (Rounded.getCurrentTime round 1700000000050 w'
                  - Rounded.getCurrentTime round 1700000000050 w0)
            <= resumeError (Rounded.getCurrentTime round 1700000000050 w0) 7
                 1700000000050
         /\ (getIsPlaying w0 = false ->
             Rounded.getCurrentTime round 1700000000050 w'
             = Rounded.getCurrentTime round 1700000000050 w0).
Proof.
  eexists. split; [vm_compute; reflexivity |].
  match goal with |- _ /\ _ /\ _ /\ _ /\ withinBounds ?v ?s ?n /\ _ =>
    assert (Hb : withinBounds v s n) by (repeat split; vm_compute; discriminate)
  end.
  split; [lia |].
  split; [reflexivity |].
  split; [reflexivity |].
  split; [reflexivity |].
  split; [exact Hb |].
  apply setSpeed_keeps_time_up_to_rounding.
  - lia.
  - reflexivity.
  - reflexivity.
  - exact Hb.
Defined.

(** *** Seeking *)

Lemma invoke_rounded_inert (fl : Q -> Q) (h : PlaybackEventHandler)
    event (index : nat) (now : Q) (w : Host) :
  inert h ->
  Rounded.invoke fl h event index now w = invoke h event index now w.
Proof.
  intros Hh. unfold Rounded.invoke, invoke. unfold inert in Hh.
  now rewrite Hh.
Qed.

Lemma emitFrom_rounded_inert (fl : Q -> Q) (steps : nat) :
  forall (i : nat) event (index : nat) (now : Q) (w : Host),
    Forall inert (onEventHandlers (engine w)) ->
    Rounded.emitFrom fl steps i event index now w
    = emitFrom steps i event index now w.
Proof.
  induction steps as [|steps IH]; intros i event index now w Hinert;
    [reflexivity |].
  cbn [Rounded.emitFrom emitFrom].
  destruct (nth_error (onEventHandlers (engine w)) i) as [h |] eqn:Hnth;
    [| reflexivity].
  assert (Hh : inert h).
  { apply nth_error_In in Hnth.
    now apply (proj1 (Forall_forall _ _) Hinert). }
  rewrite (invoke_rounded_inert fl h event index now w Hh).
  apply IH.
  unfold invoke. unfold inert in Hh. rewrite Hh. exact Hinert.
Qed.

Lemma replay_rounded_inert (fl : Q -> Q) (count : nat) :
  forall (i : nat) (now : Q) (w : Host),
    Forall inert (onEventHandlers (engine w)) ->
    Rounded.replay fl count i now w = replay count i now w.
Proof.
  induction count as [|count IH]; intros i now w Hinert; [reflexivity |].
  cbn [Rounded.replay replay].
  unfold Rounded.emitEvent.
  rewrite emitFrom_rounded_inert by exact Hinert.
  fold (emitEvent (nth_error (events (engine w)) i) i now w).
  apply IH.
  rewrite EngineFacts.emitEvent_inert by exact Hinert. exact Hinert.
Qed.

(** X21.  [seek(t)] sets the clock to [t]: exactly on an engine that is not
    playing, and up to the rounding of the resume on one that is, with
    plain consumers and a positive speed. *)
Theorem seek_sets_clock_up_to_rounding
    (fuel : nat) (t now : Q) (w : Host) :
  (1 <= fuel)%nat ->
  0 < getSpeed w ->
  Forall inert (onEventHandlers (engine w)) ->
  withinBounds t (getSpeed w) now ->
  exists w',
    Rounded.seek round fuel t now w = Normal w'
    /\ Qabs (Rounded.getCurrentTime round now w' - t)
       <= resumeError t (getSpeed w) now
    /\ (getIsPlaying w = false -> Rounded.getCurrentTime round now w' = t).
Proof.
  intros Hfuel Hspeed Hinert _.
  pose proof (resumeError_nonneg t (getSpeed w) now Hspeed) as Hnn.
  unfold Rounded.seek.
  destruct (pause_rounded_frame round now w)
    as (Hpaused & Hevs & Hidx & Hloop & Hsp & Hhs & _).
  set (paused := Rounded.pause round now w) in *.
  assert (Hinert2 :
            Forall inert
              (onEventHandlers
                 (engine
                    (this (fun e => set_pausedAt e t)
                       (this (fun e =>
                                set_currentIndex e
                                  (seekTarget (events (engine paused)) 0 0 t))
                          paused))))).
  { cbn [this engine set_pausedAt set_currentIndex onEventHandlers].
    rewrite Hhs. exact Hinert. }
  rewrite replay_rounded_inert by exact Hinert2.
  rewrite EngineFacts.replay_inert by exact Hinert2.
  set (w2 := traced _ _).
  assert (Hpaused2 : isPlaying (engine w2) = false) by exact Hpaused.
  assert (Ht : pausedAt (engine w2) = t) by reflexivity.
  assert (Hsp2 : speed (engine w2) = speed (engine w)) by exact Hsp.
  assert (Hidle : Rounded.getCurrentTime round now w2 = t).
  { unfold Rounded.getCurrentTime. now rewrite Hpaused2. }
  destruct (isPlaying (engine w)) eqn:Hplaying.
  - destruct (events (engine w)) as [|e evs] eqn:Hw.
    + exists w2. split.
      * unfold Rounded.play. rewrite Hpaused2.
        replace (events (engine w2)) with (@nil KakiatoEvent)
          by (subst w2; cbn [traced this engine]; now rewrite Hevs).
        reflexivity.
      * rewrite Hidle. split; [rewrite abs_self; exact Hnn |].
        intros _; reflexivity.
    + destruct (play_from_paused_rounded fuel now w2)
        as (w' & Hplay & Hread & _).
      * exact Hfuel.
      * exact Hpaused2.
      * rewrite Hsp2; exact Hspeed.
      * subst w2; unfold atEndOfLoop; cbn [traced this engine].
        change (events (set_pausedAt _ t)) with (events (engine paused)).
        change (currentIndex (set_pausedAt _ t))
          with (seekTarget (events (engine paused)) 0 0 t).
        rewrite Hevs.
        pose proof (EngineFacts.seekTarget_in_range t (e :: evs)) as Hin.
        destruct (Nat.leb_spec (List.length (e :: evs))
                    (seekTarget (e :: evs) 0 0 t)) as [Hle | Hlt];
          [assert (e :: evs <> []) by discriminate; intuition lia
          | apply andb_false_r].
      * exists w'. split; [exact Hplay |].
        rewrite Ht, Hsp2 in Hread.
        split; [exact Hread | unfold getIsPlaying; intros Hno; congruence].
  - exists w2. split; [reflexivity |].
    rewrite Hidle. split; [rewrite abs_self; exact Hnn | intros _; reflexivity].
Qed.

Lemma seek_sets_clock_up_to_rounding_witness :
  exists w0,
    Rounded.play round 1 1700000000000 (pausedAtTime [at_ 0; at_ 200] 100 3)
    = Normal w0
    /\ (1 <= 1)%nat
    /\ 0 < getSpeed w0
    /\ getIsPlaying w0 = true
    /\ Forall inert (onEventHandlers (engine w0))
    /\ withinBounds 150 (getSpeed w0) 1700000000050
    /\ exists w',
         Rounded.seek round 1 150 1700000000050 w0 = Normal w'
         /\ Qabs (Rounded.getCurrentTime round 1700000000050 w' - 150)
            <= resumeError 150 (getSpeed w0) 1700000000050
         /\ (getIsPlaying w0 = false ->
             Rounded.getCurrentTime round 1700000000050 w' = 150).
Proof.
  eexists. split; [vm_compute; reflexivity |].
  match goal with |- _ /\ _ /\ _ /\ _ /\ withinBounds ?v ?s ?n /\ _ =>
    assert (Hb : withinBounds v s n) by (repeat split; vm_compute; discriminate)
  end.
  split; [lia |].
  split; [vm_compute; reflexivity |].
  split; [reflexivity |].
  split; [repeat constructor |].
  split; [exact Hb |].
  apply seek_sets_clock_up_to_rounding.
  - lia.
  - vm_compute; reflexivity.
  - repeat constructor.
  - exact Hb.
Defined.

(** *** Scheduling *)

(** X13.  On a playing engine with a positive speed and an event left to
    deliver, [scheduleNextEvent] registers exactly one timeout, which has
    captured that event and whose handle the engine keeps; it is never due
    before the call, and it is due at once when the clock already reads
    the time of the event or more. *)
Theorem overdue_event_is_due_at_once
    (fuel : nat) (now : Q) (w : Host) (event : KakiatoEvent) :
  isPlaying (engine w) = true ->
  0 < speed (engine w) ->
  nth_error (events (engine w)) (currentIndex (engine w)) = Some event ->
  exists w' t,
    Rounded.scheduleNextEvent round (S fuel) now w = Normal w'
    /\ pending w' = pending w ++ [t]
    /\ captured t = Some event
    /\ timeoutId (engine w') = Some (timeout_id t)
    /\ now <= due t
    /\ (event_time event <= Rounded.getCurrentTime round now w ->
        due t == now).
Proof.
  intros Hplaying Hspeed Hnth.
  assert (Hlt : (currentIndex (engine w) < List.length (events (engine w)))%nat)
    by (apply nth_error_Some; congruence).
  cbn [Rounded.scheduleNextEvent]. rewrite Hplaying. cbn [negb].
  destruct (Nat.leb_spec (List.length (events (engine w)))
              (currentIndex (engine w))) as [Hle | _]; [lia |].
  rewrite Hnth.
  set (reading := round (round (now - startTime (engine w)) * speed (engine w))).
  set (delay := Qmax 0 (round (round (event_time event - reading)
                               / speed (engine w)))).
  do 2 eexists.
  split; [reflexivity |].
  split; [reflexivity |].
  split; [reflexivity |].
  split; [reflexivity |].
  cbn [due].
  assert (Hdelay : 0 <= delay) by apply Q.le_max_l.
  split; [lra |].
  intros Hover. unfold Rounded.getCurrentTime in Hover.
  rewrite Hplaying in Hover. fold reading in Hover.
  assert (H1 : round (event_time event - reading) <= 0)
    by (apply round_nonpos; lra).
  assert (H2 : round (event_time event - reading) / speed (engine w) <= 0).
  { apply Qle_shift_div_r; [exact Hspeed | lra]. }
  assert (H3 : delay == 0).
  { unfold delay. apply Q.max_l. now apply round_nonpos. }
  lra.
Qed.

Lemma overdue_event_is_due_at_once_witness :
  exists w0,
    Rounded.play round 1 1700000000000 (pausedAtTime [at_ 0; at_ 200] 100 3)
    = Normal w0
    /\ isPlaying (engine w0) = true
    /\ 0 < speed (engine w0)
    /\ nth_error (events (engine w0)) (currentIndex (engine w0))
       = Some (at_ 0)
    /\ event_time (at_ 0) <= Rounded.getCurrentTime round 1700000000000 w0
    /\ exists w' t,
         Rounded.scheduleNextEvent round 1 1700000000000 w0 = Normal w'
         /\ pending w' = pending w0 ++ [t]
         /\ captured t = Some (at_ 0)
         /\ timeoutId (engine w') = Some (timeout_id t)
         /\ 1700000000000 <= due t
         /\ (event_time (at_ 0) <= Rounded.getCurrentTime round 1700000000000 w0 ->
             due t == 1700000000000).
Proof.
  eexists. split; [vm_compute; reflexivity |].
  split; [reflexivity |].
  split; [vm_compute; reflexivity |].
  split; [reflexivity |].
  split; [vm_compute; discriminate |].
  apply overdue_event_is_due_at_once.
  - reflexivity.
  - vm_compute; reflexivity.
  - reflexivity.
Defined.

End RoundedFacts.
